(** * Aquarium simulation: a shallow embedding of the numeric core

  The development follows the JavaScript sources of the project:
  - [fish.js]: procedural fish geometry (shaping curves, frames, fins,
    merged mesh);
  - [main.js]: flock steering with spring separation and wall bounce,
    height-field water solver and its mesh, bubbles, sand, swaying plants,
    and the earlier animation loop kept in the file;
  - the kelp variant of the main loop (alignment and cohesion, chain of
    points with a spring step and a length-constraint pass, ribbon mesh).

  Numbers.  JavaScript numbers are IEEE doubles.  They are modelled by the
  real numbers of the Standard Library: arithmetic is exact, there is no
  rounding, no infinity and no NaN.  A statement of the sources that holds
  "within floating tolerance" is therefore stated as an equality on reals.
  Tests on numbers ([<], [<=], [===]) are the decidable comparisons of [R].
  Some properties hold of the code only where its doubles follow the real
  numbers up to rounding: not where a square overflows or underflows, a
  height falls below the smallest double, a point lies within rounding of a
  cell boundary, or a quotient is [0 / 0].  Their statements carry the bound
  or the tolerance that keeps the code inside that range, and say nothing
  outside it.

  Objects.  A [THREE.Vector3] that is mutated in place is modelled by the
  value it holds after the mutation; where two names alias one object the
  embedding says so at the place it matters.  Calls that may raise a
  [TypeError] (a method called on [undefined]) return an [option].

  Library code.  [three.js] is a dependency of the project and not part of
  its sources; the functions used by the sources ([Vector3], [MathUtils],
  [Curve], [CatmullRomCurve3], [PlaneGeometry], [mergeGeometries]) are
  embedded after the library's implementation. *)

From Stdlib Require Import Reals Lra Lia Psatz List ZArith Bool Arith.
Import ListNotations.
Open Scope R_scope.

Set Implicit Arguments.

(** ** Comparisons of numbers as booleans *)

Definition Rltb (a b : R) : bool := if Rlt_dec a b then true else false.
Definition Rleb (a b : R) : bool := if Rle_dec a b then true else false.
Definition Reqb (a b : R) : bool := if Req_dec_T a b then true else false.

(** [a || b] on numbers: [b] when [a] is [0], else [a]. *)
Definition orElse (a b : R) : R := if Reqb a 0 then b else a.

(** ** THREE.Vector3 *)

Record Vector3 : Type := vec3 { vx : R; vy : R; vz : R }.

Module V3.

Definition zero : Vector3 := vec3 0 0 0.

Definition add (a b : Vector3) : Vector3 :=
  vec3 (vx a + vx b) (vy a + vy b) (vz a + vz b).

(** [a.sub(b)], and [subVectors(a, b)] on a fresh or scratch vector. *)
Definition sub (a b : Vector3) : Vector3 :=
  vec3 (vx a - vx b) (vy a - vy b) (vz a - vz b).

Definition multiplyScalar (a : Vector3) (s : R) : Vector3 :=
  vec3 (vx a * s) (vy a * s) (vz a * s).

(** [divideScalar(s) { return this.multiplyScalar(1 / s) }] *)
Definition divideScalar (a : Vector3) (s : R) : Vector3 :=
  multiplyScalar a (1 / s).

Definition lengthSq (a : Vector3) : R :=
  vx a * vx a + vy a * vy a + vz a * vz a.

Definition length (a : Vector3) : R := sqrt (lengthSq a).

(** [normalize() { return this.divideScalar(this.length() || 1) }] *)
Definition normalize (a : Vector3) : Vector3 :=
  divideScalar a (orElse (length a) 1).

(** [lerp(v, alpha)]: [this.x += (v.x - this.x) * alpha], per axis. *)
Definition lerp (a v : Vector3) (alpha : R) : Vector3 :=
  vec3 (vx a + (vx v - vx a) * alpha)
       (vy a + (vy v - vy a) * alpha)
       (vz a + (vz v - vz a) * alpha).

(** [lerpVectors(v1, v2, alpha)] has the same formula on a target vector. *)
Definition lerpVectors (v1 v2 : Vector3) (alpha : R) : Vector3 :=
  lerp v1 v2 alpha.

Definition addScaledVector (a v : Vector3) (s : R) : Vector3 :=
  vec3 (vx a + vx v * s) (vy a + vy v * s) (vz a + vz v * s).

Definition distanceToSquared (a b : Vector3) : R :=
  let dx := vx a - vx b in
  let dy := vy a - vy b in
  let dz := vz a - vz b in
  dx * dx + dy * dy + dz * dz.

Definition distanceTo (a b : Vector3) : R := sqrt (distanceToSquared a b).

Definition setY (a : Vector3) (y : R) : Vector3 := vec3 (vx a) y (vz a).
Definition setZ (a : Vector3) (z : R) : Vector3 := vec3 (vx a) (vy a) z.

(** [Quaternion.setFromAxisAngle(axis, angle)]: the axis is assumed to be
    normalized by the library, which does not check it. *)
Record Quaternion : Type := quat { qx : R; qy : R; qz : R; qw : R }.

Definition setFromAxisAngle (axis : Vector3) (angle : R) : Quaternion :=
  let halfAngle := angle / 2 in
  let s := sin halfAngle in
  quat (vx axis * s) (vy axis * s) (vz axis * s) (cos halfAngle).

(** [applyQuaternion(q)]: [t = 2 * cross(q.xyz, v)], then
    [v + q.w * t + cross(q.xyz, t)]. *)
Definition applyQuaternion (v : Vector3) (q : Quaternion) : Vector3 :=
  let tx := 2 * (qy q * vz v - qz q * vy v) in
  let ty := 2 * (qz q * vx v - qx q * vz v) in
  let tz := 2 * (qx q * vy v - qy q * vx v) in
  vec3 (vx v + qw q * tx + qy q * tz - qz q * ty)
       (vy v + qw q * ty + qz q * tx - qx q * tz)
       (vz v + qw q * tz + qx q * ty - qy q * tx).

Definition applyAxisAngle (v axis : Vector3) (angle : R) : Vector3 :=
  applyQuaternion v (setFromAxisAngle axis angle).

End V3.

(** Every coordinate of [p] is at most [M] in absolute value. *)
Definition boxed (M : R) (p : Vector3) : Prop :=
  Rabs (vx p) <= M /\ Rabs (vy p) <= M /\ Rabs (vz p) <= M.

(** ** THREE.MathUtils *)

Module MathUtils.

(** [clamp(value, min, max) = Math.max(min, Math.min(max, value))] *)
Definition clamp (value lo hi : R) : R := Rmax lo (Rmin hi value).

(** [randFloat(low, high) = low + Math.random() * (high - low)]; the draw
    of [Math.random()] is the argument [rnd]. *)
Definition randFloat (rnd low high : R) : R := low + rnd * (high - low).

(** [randFloatSpread(range) = range * (0.5 - Math.random())] *)
Definition randFloatSpread (rnd range : R) : R := range * (0.5 - rnd).

(** [degToRad(degrees) = degrees * (Math.PI / 180)] *)
Definition degToRad (degrees : R) : R := degrees * (PI / 180).

End MathUtils.

(** ** JavaScript arrays *)

Module JsArray.

(** [forEach((a, i) => ...)] threading a state: the callback sees the element
    and its index, in ascending order of the index. *)
Fixpoint foldiFrom {A S : Type} (f : S -> nat -> A -> S) (i : nat) (l : list A) (s : S) : S :=
  match l with
  | [] => s
  | a :: t => foldiFrom f (Datatypes.S i) t (f s i a)
  end.

Definition foldi {A S : Type} (f : S -> nat -> A -> S) (l : list A) (s : S) : S :=
  foldiFrom f 0 l s.

Fixpoint mapiFrom {A B : Type} (f : nat -> A -> B) (i : nat) (l : list A) : list B :=
  match l with
  | [] => []
  | a :: t => f i a :: mapiFrom f (Datatypes.S i) t
  end.

Definition mapi {A B : Type} (f : nat -> A -> B) (l : list A) : list B :=
  mapiFrom f 0 l.

(** [l[i] = v] for [i] below the length; nothing to do elsewhere (used for
    arrays of objects that are mutated through an index in range). *)
Fixpoint setNth {A : Type} (i : nat) (v : A) (l : list A) : list A :=
  match l, i with
  | [], _ => []
  | _ :: t, O => v :: t
  | h :: t, Datatypes.S i' => h :: setNth i' v t
  end.

(** [l[i] = v] on an array that may have holes: an index past the end
    extends the array, the slots in between stay empty ([None]). *)
Fixpoint assign {A : Type} (l : list (option A)) (i : nat) (v : A) : list (option A) :=
  match i, l with
  | O, [] => [Some v]
  | O, _ :: t => Some v :: t
  | Datatypes.S i', [] => None :: assign [] i' v
  | Datatypes.S i', h :: t => h :: assign t i' v
  end.

(** [l[i]]: [None] stands for [undefined] (a hole or an index out of range). *)
Definition get {A : Type} (l : list (option A)) (i : nat) : option A :=
  match nth_error l i with
  | Some (Some v) => Some v
  | _ => None
  end.

(** [l.pop()]: drops the last element; an empty array stays empty. *)
Definition pop {A : Type} (l : list A) : list A := removelast l.

(** [l.push(v)] *)
Definition push {A : Type} (l : list A) (v : A) : list A := l ++ [v].

End JsArray.

(** ** main.js: the tank and the flock *)

Module Tank.

Definition aqWidth : R := 20.
Definition aqHeight : R := 10.
Definition aqDepth : R := 16.

(** Motion bounds *)
Definition margin : R := 2.
Definition halfX : R := aqWidth / 2 - margin.
Definition halfY : R := aqHeight / 2 - margin.
Definition halfZ : R := aqDepth / 2 - margin.

(** A point of the box [aqWidth x aqHeight x aqDepth] around the origin. *)
Definition contains (p : Vector3) : Prop :=
  Rabs (vx p) <= aqWidth / 2 /\ Rabs (vy p) <= aqHeight / 2 /\ Rabs (vz p) <= aqDepth / 2.

End Tank.

(** The GUI parameters ([params]); the last three exist in the kelp variant
    of the loop only. *)
Record Params : Type := mkParams {
  fishCount : nat;
  fishSpeed : R;
  turnSpeed : R;
  separationDist : R;
  separationStrength : R;
  alignmentStrength : R;
  cohesionStrength : R;
  flockRadius : R
}.

Definition params : Params :=
  mkParams 5 2 1.5 1.0 2.0 1.0 1.0 3.0.

(** An entry of [fishData]: [position] is [mesh.position].  The mesh, the
    material, the orientation quaternion and the bounding radius are
    rendering data that the physics never reads. *)
Record Fish : Type := mkFish {
  position : Vector3;
  velocity : Vector3;
  acceleration : Vector3;
  mass : R
}.

(** The two global arrays.  [targets] is written through an index, so it is
    an array with possible holes. *)
Record World : Type := mkWorld {
  fishData : list Fish;
  targets : list (option Vector3)
}.

(** The values of [Math.random()] consumed when a fish is created: one for
    the mass, three for its first target. *)
Record SpawnDraws : Type := mkSpawnDraws {
  massDraw : R;
  spawnTargetDraw : Vector3
}.

(** The values of [Math.random()] a fish may consume in one tick: three for
    the axis of the bounce turn, one for its angle, three for a new target. *)
Record TickDraws : Type := mkTickDraws {
  axisDraw : Vector3;
  angleDraw : R;
  targetDraw : Vector3
}.

Inductive LoopVariant : Type :=
| SeparationOnly   (* main.js *)
| Flocking.        (* the kelp variant: separation, alignment, cohesion *)

Module Flock.

Import Tank.

(** [pickNewTarget(i)]; [draw] holds the three values of [Math.random()]. *)
Definition newTarget (draw : Vector3) : Vector3 :=
  vec3 (MathUtils.randFloat (vx draw) (- halfX) halfX)
       (MathUtils.randFloat (vy draw) (- halfY) halfY)
       (MathUtils.randFloat (vz draw) (- halfZ) halfZ).

Definition pickNewTarget (draw : Vector3) (i : nat) (tg : list (option Vector3))
  : list (option Vector3) :=
  JsArray.assign tg i (newTarget draw).

(** *** updateFishCount *)

(** One turn of [while (fishData.length > count)]. *)
Definition removeFish (w : World) : World :=
  mkWorld (JsArray.pop (fishData w)) (JsArray.pop (targets w)).

Fixpoint removeExtra (fuel count : nat) (w : World) : World :=
  match fuel with
  | O => w
  | Datatypes.S fuel' =>
      if (count <? List.length (fishData w))%nat
      then removeExtra fuel' count (removeFish w)
      else w
  end.

(** The fish pushed by one turn of [while (fishData.length < count)]: a new
    mesh sits at the origin. *)
Definition newFish (p : Params) (d : SpawnDraws) : Fish :=
  mkFish V3.zero
         (V3.multiplyScalar (vec3 1 0 0) (fishSpeed p))
         V3.zero
         (1.0 + massDraw d * 0.2).

Definition addFish (p : Params) (d : SpawnDraws) (w : World) : World :=
  let fishData' := JsArray.push (fishData w) (newFish p d) in
  mkWorld fishData'
          (pickNewTarget (spawnTargetDraw d) (List.length fishData' - 1) (targets w)).

Fixpoint addNew (fuel : nat) (p : Params) (count : nat) (draws : nat -> SpawnDraws)
  (w : World) : World :=
  match fuel with
  | O => w
  | Datatypes.S fuel' =>
      if (List.length (fishData w) <? count)%nat
      then addNew fuel' p count draws (addFish p (draws (List.length (fishData w))) w)
      else w
  end.

(** [updateFishCount(count)]: each loop runs at most as many turns as the
    fuel it is given here. *)
Definition updateFishCount (p : Params) (count : nat) (draws : nat -> SpawnDraws)
  (w : World) : World :=
  addNew count p count draws (removeExtra (List.length (fishData w)) count w).

(** *** The animation loop, part 1: forces *)

(** The body of the inner [forEach((fishB, j) => ...)]. *)
Definition separationStep (p : Params) (fishA : Fish) (i : nat)
  (acc : Vector3) (j : nat) (fishB : Fish) : Vector3 :=
  if (i =? j)%nat then acc
  else
    let offset := V3.sub (position fishA) (position fishB) in
    let dist := V3.length offset in
    let minDist := separationDist p in
    if Rltb 0 dist && Rltb dist minDist then
      let k := separationStrength p in
      let forceMag := k * (minDist - dist) in
      let force := V3.multiplyScalar (V3.normalize offset) forceMag in
      V3.add acc (V3.divideScalar force (mass fishA))
    else acc.

Definition separation (p : Params) (fs : list Fish) (i : nat) (fishA : Fish) : Vector3 :=
  JsArray.foldi (separationStep p fishA i) fs V3.zero.

(** The kelp variant goes on with alignment and cohesion. *)
Definition neighborsOf (p : Params) (fs : list Fish) (i : nat) (fishA : Fish) : list Fish :=
  JsArray.foldi
    (fun nb j fishB =>
       if (i =? j)%nat then nb
       else if Rltb (V3.distanceTo (position fishA) (position fishB)) (flockRadius p)
            then JsArray.push nb fishB else nb)
    fs [].

Definition sumOf (f : Fish -> Vector3) (l : list Fish) : Vector3 :=
  fold_left (fun s n => V3.add s (f n)) l V3.zero.

Definition flocking (p : Params) (fs : list Fish) (i : nat) (fishA : Fish)
  (acc : Vector3) : Vector3 :=
  let neighbors := neighborsOf p fs i fishA in
  if (0 <? List.length neighbors)%nat then
    let n := INR (List.length neighbors) in
    let avgVel := V3.normalize (V3.divideScalar (sumOf velocity neighbors) n) in
    let alignment :=
      V3.multiplyScalar (V3.sub avgVel (V3.normalize (velocity fishA)))
                        (alignmentStrength p) in
    let acc1 := V3.add acc alignment in
    let avgPos := V3.divideScalar (sumOf position neighbors) n in
    let cohesion :=
      V3.multiplyScalar (V3.normalize (V3.sub avgPos (position fishA)))
                        (cohesionStrength p) in
    V3.add acc1 cohesion
  else acc.

Definition forceOn (lv : LoopVariant) (p : Params) (fs : list Fish) (i : nat)
  (fishA : Fish) : Vector3 :=
  match lv with
  | SeparationOnly => separation p fs i fishA
  | Flocking => flocking p fs i fishA (separation p fs i fishA)
  end.

Definition setAcceleration (f : Fish) (a : Vector3) : Fish :=
  mkFish (position f) (velocity f) a (mass f).

(** Part 1 writes accelerations only, and reads positions and velocities
    only: the order of the outer loop does not show. *)
Definition computeForces (lv : LoopVariant) (p : Params) (fs : list Fish) : list Fish :=
  JsArray.mapi (fun i fishA => setAcceleration fishA (forceOn lv p fs i fishA)) fs.

(** *** The animation loop, part 2: steering, move, wall bounce, target *)

(** The velocity after [vel.add(...)] and the chain
    [normalize().lerp(desiredDir, turnSpeed * delta).normalize()
     .multiplyScalar(fishSpeed)]. *)
Definition desiredDir (target pos : Vector3) : Vector3 :=
  V3.normalize (V3.sub target pos).

Definition blend (p : Params) (delta : R) (target : Vector3) (f : Fish) : Vector3 :=
  V3.lerp
    (V3.normalize (V3.add (velocity f) (V3.multiplyScalar (acceleration f) delta)))
    (desiredDir target (position f))
    (turnSpeed p * delta).

Definition steerVelocity (p : Params) (delta : R) (target : Vector3) (f : Fish) : Vector3 :=
  V3.multiplyScalar (V3.normalize (blend p delta target f)) (fishSpeed p).

(** Steering and [pos.addScaledVector(vel, delta)]. *)
Definition steer (p : Params) (delta : R) (target : Vector3) (f : Fish) : Fish :=
  let vel := steerVelocity p delta target f in
  mkFish (V3.addScaledVector (position f) vel delta) vel (acceleration f) (mass f).

(** One axis of the wall bounce: the new coordinate, the new velocity
    component, and whether the fish bounced. *)
Definition bounceAxis (pos vel half : R) : R * R * bool :=
  if Rltb pos (- half) || Rltb half pos
  then (MathUtils.clamp pos (- half) half, vel * -1, true)
  else (pos, vel, false).

Definition bounceTurn (d : TickDraws) (vel : Vector3) : Vector3 :=
  V3.applyAxisAngle vel
    (V3.normalize (axisDraw d))
    (MathUtils.randFloatSpread (angleDraw d) (PI / 8)).

Definition wallBounce (d : TickDraws) (f : Fish) : Fish :=
  let '(px, wx, bx) := bounceAxis (vx (position f)) (vx (velocity f)) halfX in
  let '(py, wy, byy) := bounceAxis (vy (position f)) (vy (velocity f)) halfY in
  let '(pz, wz, bz) := bounceAxis (vz (position f)) (vz (velocity f)) halfZ in
  let bounced := bx || byy || bz in
  let vel := vec3 wx wy wz in
  mkFish (vec3 px py pz)
         (if bounced then bounceTurn d vel else vel)
         (acceleration f) (mass f).

Definition moveFish (p : Params) (delta : R) (d : TickDraws) (target : Vector3)
  (f : Fish) : Fish :=
  wallBounce d (steer p delta target f).

(** The body of the second [forEach((fish, i) => ...)].  Reading
    [targets[i]] where it is [undefined] raises a [TypeError]. *)
Definition fishStep (p : Params) (delta : R) (draws : nat -> TickDraws)
  (w : World) (i : nat) : option World :=
  match nth_error (fishData w) i, JsArray.get (targets w) i with
  | Some fish, Some target =>
      let fish' := moveFish p delta (draws i) target fish in
      Some (mkWorld
              (JsArray.setNth i fish' (fishData w))
              (if Rltb (V3.distanceToSquared (position fish') target) 0.25
               then pickNewTarget (targetDraw (draws i)) i (targets w)
               else targets w))
  | _, _ => None
  end.

Definition fishLoop (p : Params) (delta : R) (draws : nat -> TickDraws)
  (w : World) : option World :=
  fold_left
    (fun ow i => match ow with Some w' => fishStep p delta draws w' i | None => None end)
    (seq 0 (List.length (fishData w)))
    (Some w).

(** The flock part of one callback of [setAnimationLoop]; [delta] is the
    value of [clock.getDelta()]. *)
Definition tick (lv : LoopVariant) (p : Params) (delta : R) (draws : nat -> TickDraws)
  (w : World) : option World :=
  fishLoop p delta draws (mkWorld (computeForces lv p (fishData w)) (targets w)).

(** What happens between two displays of the page: a tick, or a change of
    the population from the GUI.  The GUI may change the parameters at any
    time, so each event carries its own. *)
Inductive Event : Type :=
| EvTick (lv : LoopVariant) (p : Params) (delta : R) (draws : nat -> TickDraws)
| EvCount (p : Params) (count : nat) (draws : nat -> SpawnDraws).

Definition handle (e : Event) (w : World) : option World :=
  match e with
  | EvTick lv p delta draws => tick lv p delta draws w
  | EvCount p count draws => Some (updateFishCount p count draws w)
  end.

Fixpoint run (es : list Event) (w : World) : option World :=
  match es with
  | [] => Some w
  | e :: es' =>
      match handle e w with
      | Some w' => run es' w'
      | None => None
      end
  end.

Definition emptyWorld : World := mkWorld [] [].

(** The position of a fish is inside the motion bounds. *)
Definition inBounds (f : Fish) : Prop :=
  - halfX <= vx (position f) <= halfX /\
  - halfY <= vy (position f) <= halfY /\
  - halfZ <= vz (position f) <= halfZ.

End Flock.

(** Auxiliary notions for the properties of the flock. *)

(** The loop over the fish, cut after [k] turns. *)
Definition fishLoopUpTo (p : Params) (delta : R) (draws : nat -> TickDraws)
  (k : nat) (w : World) : option World :=
  fold_left
    (fun ow i => match ow with Some w' => Flock.fishStep p delta draws w' i | None => None end)
    (seq 0 k) (Some w).

(** The two arrays have the same length and no target is [undefined]. *)
Definition paired (w : World) : Prop :=
  List.length (targets w) = List.length (fishData w) /\
  Forall (fun t => t <> None) (targets w).

(** The force on [a] from a neighbour [b] closer than [separationDist]. *)
Definition pairAcceleration (p : Params) (a b : Fish) : Vector3 :=
  let offset := V3.sub (position a) (position b) in
  V3.multiplyScalar offset
    (separationStrength p * (separationDist p - V3.length offset)
     / (V3.length offset * mass a)).

(** ** main.js: the water surface *)

Module Water.

Import Tank.

Definition WATER_RES_X : nat := 64.
Definition WATER_RES_Z : nat := 64.

Definition WAVE_SPEED : R := 2.0.
Definition DAMPING : R := 0.995.

(** A two-dimensional array [a[x][z]] of numbers.  The loops of the solver
    and the guard of [disturbWater] keep every index inside the array, where
    [read] and [write] are the JavaScript reads and writes. *)
Definition read (a : list (list R)) (x z : nat) : R := nth z (nth x a []) 0.

Definition write (a : list (list R)) (x z : nat) (v : R) : list (list R) :=
  JsArray.setNth x (JsArray.setNth z v (nth x a [])) a.

Record Grid : Type := mkGrid {
  waterHeights : list (list R);
  waterVelocities : list (list R)
}.

(** The two arrays as the initialisation loops leave them. *)
Definition initialGrid : Grid :=
  mkGrid (repeat (repeat 0 WATER_RES_Z) WATER_RES_X)
         (repeat (repeat 0 WATER_RES_Z) WATER_RES_X).

(** [for (let i = lo; i < hi; i++) body], threading the state. *)
Definition forRange {S : Type} (lo hi : nat) (body : S -> nat -> S) (s : S) : S :=
  fold_left body (seq lo (hi - lo)) s.

(** The body of the two loops of [updateWaterPhysics], for the cell
    [(x, z)]: the new velocity and the new height of the cell. *)
Definition cellUpdate (delta : R) (g : Grid) (x z : nat) : R * R :=
  let h := waterHeights g in
  let laplacian :=
    (read h (x - 1) z + read h (x + 1) z + read h x (z - 1) + read h x (z + 1)) / 4
    - read h x z in
  let v1 := read (waterVelocities g) x z + laplacian * WAVE_SPEED * delta in
  let v2 := v1 * DAMPING in
  (read h x z + v2 * delta, v2).

Definition writeCell (g : Grid) (x z : nat) (hv : R * R) : Grid :=
  mkGrid (write (waterHeights g) x z (fst hv))
         (write (waterVelocities g) x z (snd hv)).

Definition cellStep (delta : R) (g : Grid) (x z : nat) : Grid :=
  writeCell g x z (cellUpdate delta g x z).

(** [updateWaterPhysics(delta)]: both arrays are updated in place, cell after
    cell, in ascending order of [x] and, for each [x], of [z]. *)
Definition updateWaterPhysics (delta : R) (g : Grid) : Grid :=
  forRange 1 (WATER_RES_X - 1)
    (fun g x => forRange 1 (WATER_RES_Z - 1) (fun g z => cellStep delta g x z) g)
    g.

(** [Math.floor((world / size + 0.5) * res)], of the exact product; the code
    takes the integer part of the rounded one, which is that of the next
    cell for a point within rounding of a cell boundary. *)
Definition gridIndex (world size : R) (res : nat) : Z :=
  Int_part ((world / size + 0.5) * INR res).

(** [disturbWater(worldX, worldZ, strength)] *)
Definition disturbWater (worldX worldZ strength : R) (g : Grid) : Grid :=
  let ix := gridIndex worldX aqWidth WATER_RES_X in
  let iz := gridIndex worldZ aqDepth WATER_RES_Z in
  if ((0 <? ix) && (ix <? Z.of_nat WATER_RES_X - 1) &&
      (0 <? iz) && (iz <? Z.of_nat WATER_RES_Z - 1))%Z
  then mkGrid (waterHeights g)
              (write (waterVelocities g) (Z.to_nat ix) (Z.to_nat iz)
                     (read (waterVelocities g) (Z.to_nat ix) (Z.to_nat iz) + strength))
  else g.

(** The reference the in-place solver is compared with: the synchronous step,
    where the Laplacian of every cell is computed from the heights of the
    previous tick only ([old]), whatever has been written since. *)
Definition syncCellUpdate (delta : R) (old g : Grid) (x z : nat) : R * R :=
  let h := waterHeights old in
  let laplacian :=
    (read h (x - 1) z + read h (x + 1) z + read h x (z - 1) + read h x (z + 1)) / 4
    - read h x z in
  let v1 := read (waterVelocities g) x z + laplacian * WAVE_SPEED * delta in
  let v2 := v1 * DAMPING in
  (read h x z + v2 * delta, v2).

Definition synchronousStep (delta : R) (g : Grid) : Grid :=
  forRange 1 (WATER_RES_X - 1)
    (fun acc x =>
       forRange 1 (WATER_RES_Z - 1)
         (fun acc z => writeCell acc x z (syncCellUpdate delta g acc x z)) acc)
    g.

End Water.

(** Auxiliary notions for the properties of the solver. *)

(** Both arrays have the size the initialisation gives them. *)
Definition gridOk (g : Water.Grid) : Prop :=
  List.length (Water.waterHeights g) = Water.WATER_RES_X /\
  Forall (fun row => List.length row = Water.WATER_RES_Z) (Water.waterHeights g) /\
  List.length (Water.waterVelocities g) = Water.WATER_RES_X /\
  Forall (fun row => List.length row = Water.WATER_RES_Z) (Water.waterVelocities g).

Definition hAt (g : Water.Grid) (x z : nat) : R := Water.read (Water.waterHeights g) x z.
Definition vAt (g : Water.Grid) (x z : nat) : R := Water.read (Water.waterVelocities g) x z.

Definition cellOf (g : Water.Grid) (x z : nat) : R * R := (hAt g x z, vAt g x z).

(** The cells [z = 1 .. k] of the row [x], then the rows [x = 1 .. m], each
    cell rewritten with what [f] computes from the grid as it is then. *)
Definition sweepRow (f : Water.Grid -> nat -> nat -> R * R) (x k : nat)
  (g : Water.Grid) : Water.Grid :=
  fold_left (fun g z => Water.writeCell g x z (f g x z)) (seq 1 k) g.

Definition sweepRows (f : Water.Grid -> nat -> nat -> R * R) (nz m : nat)
  (g : Water.Grid) : Water.Grid :=
  fold_left (fun g x => sweepRow f x nz g) (seq 1 m) g.

(** The world coordinate of the middle of the cell [i], on an axis of length
    [size] cut into [res] cells; a cell is [size / res] wide. *)
Definition cellCentre (size : R) (res i : nat) : R :=
  ((INR i + 0.5) / INR res - 0.5) * size.

(** The width of a cell on that axis. *)
Definition cellWidth (size : R) (res : nat) : R := size / INR res.

(** Between [g] and [g'] the velocity of the interior cell [(ix, iz)] has
    gained [strength], and no height and no other velocity has changed. *)
Definition disturbedAt (g g' : Water.Grid) (strength : R) (ix iz : nat) : Prop :=
  (1 <= ix <= 62)%nat /\ (1 <= iz <= 62)%nat /\
  Water.waterHeights g' = Water.waterHeights g /\
  forall x z, vAt g' x z =
              if ((x =? ix) && (z =? iz))%nat then vAt g x z + strength else vAt g x z.

(** A cell [(x', z')] is swept before the cell [(x, z)]. *)
Definition sweptBefore (x' z' x z : nat) : Prop :=
  (1 <= x' /\ 1 <= z' <= 62 /\ (x' < x \/ (x' = x /\ z' < z)))%nat.

(** ** The kelp variant of the main loop: chains of points *)

(** An entry of [seaPlants]; the mesh is rebuilt from [points] every tick and
    is not part of the physics. *)
Record Plant : Type := mkPlant {
  base : Vector3;
  points : list Vector3;
  velocities : list Vector3
}.

(** What one tick of a plant reads from outside: the positions of the fish,
    and, for each segment [j] of the spring loop, the value of
    [performance.now()] and the values of the two calls of
    [clock.getDelta()] (each call returns the time since the previous one). *)
Record Frame : Type := mkFrame {
  fishPositions : list Vector3;
  now : nat -> R;
  springDelta : nat -> R;
  dampDelta : nat -> R
}.

Module Kelp.

Definition SEGMENTS : nat := 12.
Definition PLANT_COUNT : nat := 10.
Definition PLANT_LEN : R := 2.5.

Definition kelpSpring : R := 60.
Definition kelpDamping : R := 7.2.
Definition jointLength : R := PLANT_LEN / INR (SEGMENTS - 1).

(** In a plant built by [addSeaPlants] both arrays have [SEGMENTS] entries,
    and every index the loops use is below [SEGMENTS]; [item] and
    [JsArray.setNth] are the reads and writes there. *)
Definition item (l : list Vector3) (j : nat) : Vector3 := nth j l V3.zero.

(** The chain of points from the base upward, at rest ([addSeaPlants]).  The
    heights are those of the code, [base.y + (j / (SEGMENTS - 1)) * PLANT_LEN];
    in exact arithmetic they are [jointLength] apart, in doubles they are so
    within rounding. *)
Definition newPlant (b : Vector3) : Plant :=
  mkPlant b
    (map (fun j => vec3 (vx b) (vy b + INR j / INR (SEGMENTS - 1) * PLANT_LEN) (vz b))
         (seq 0 SEGMENTS))
    (repeat V3.zero SEGMENTS).

(** [for (let j = 1; j < SEGMENTS; j++) body], threading the plant. *)
Definition forSegments (body : Plant -> nat -> Plant) (pl : Plant) : Plant :=
  fold_left body (seq 1 (SEGMENTS - 1)) pl.

(** 1. Fixed base *)
Definition pinBase (pl : Plant) : Plant :=
  mkPlant (base pl)
          (JsArray.setNth 0 (base pl) (points pl))
          (JsArray.setNth 0 V3.zero (velocities pl)).

(** 2. Fish interaction *)
Definition pushSegment (fishPos : Vector3) (pl : Plant) (j : nat) : Plant :=
  let dist := V3.distanceTo (item (points pl) j) fishPos in
  if Rltb dist 0.55 then
    let push :=
      V3.multiplyScalar
        (V3.normalize (V3.setY (V3.sub (item (points pl) j) fishPos) 0)) 0.09 in
    let push := V3.setY push 0.04 in
    mkPlant (base pl) (points pl)
            (JsArray.setNth j (V3.add (item (velocities pl) j) push) (velocities pl))
  else pl.

Definition fishInteraction (fr : Frame) (pl : Plant) : Plant :=
  fold_left (fun pl fishPos => forSegments (pushSegment fishPos) pl)
            (fishPositions fr) pl.

(** 3. Spring and water current idle movement *)
Definition springStep (fr : Frame) (pl : Plant) (j : nat) : Plant :=
  let t := INR j / INR (SEGMENTS - 1) in
  let sway := sin (now fr j * 0.0007 + vx (base pl) * 0.2 + t * 2.2) * 0.0002 * (0.5 + t) in
  let prev := item (points pl) (j - 1) in
  let curr := item (points pl) j in
  let target :=
    V3.add prev (V3.applyAxisAngle (vec3 sway jointLength 0) (vec3 0 1 0) (sway * 2)) in
  let diff := V3.sub target curr in
  let v1 := V3.add (item (velocities pl) j)
                   (V3.multiplyScalar diff (kelpSpring * springDelta fr j)) in
  let v2 := V3.multiplyScalar v1 (exp (- kelpDamping * dampDelta fr j)) in
  mkPlant (base pl)
          (JsArray.setNth j (V3.add curr v2) (points pl))
          (JsArray.setNth j v2 (velocities pl)).

(** The plant before the constraint pass. *)
Definition springPass (fr : Frame) (pl : Plant) : Plant :=
  forSegments (springStep fr) (fishInteraction fr (pinBase pl)).

(** 4. Length constraint pass *)
Definition constraintStep (pl : Plant) (j : nat) : Plant :=
  let prev := item (points pl) (j - 1) in
  let curr := item (points pl) j in
  let dir := V3.normalize (V3.sub curr prev) in
  mkPlant (base pl)
          (JsArray.setNth j (V3.add prev (V3.multiplyScalar dir jointLength)) (points pl))
          (velocities pl).

Definition constraintPass (pl : Plant) : Plant := forSegments constraintStep pl.

(** The physics of one plant in one tick. *)
Definition updatePlant (fr : Frame) (pl : Plant) : Plant :=
  constraintPass (springPass fr pl).

(** Both arrays have [SEGMENTS] entries. *)
Definition wellFormed (pl : Plant) : Prop :=
  List.length (points pl) = SEGMENTS /\ List.length (velocities pl) = SEGMENTS.

End Kelp.

(** Two particular inputs of the plant update. *)

(** A frame without fish in which [clock.getDelta()] returns 0 at every call
    of the spring loop (two calls closer than the resolution of the clock). *)
Definition stillFrame : Frame :=
  mkFrame [] (fun _ => 0) (fun _ => 0) (fun _ => 0).

(** A plant at rest but for the velocity of its first joint, which points
    down the first segment with the length of a joint. *)
Definition slackPlant : Plant :=
  mkPlant V3.zero
          (points (Kelp.newPlant V3.zero))
          (JsArray.setNth 1 (vec3 0 (- Kelp.jointLength) 0) (repeat V3.zero Kelp.SEGMENTS)).


(** ** THREE.CatmullRomCurve3 and the sampling methods of THREE.Curve *)

(** [new CatmullRomCurve3(points, closed)]; the sources leave the curve type
    at its default, ['centripetal']. *)
Record CatmullRomCurve3 : Type := mkCurve {
  controlPoints : list Vector3;
  closed : bool
}.

(** The coefficients held by a [CubicPoly]. *)
Record CubicPoly : Type := mkPoly { c0 : R; c1 : R; c2 : R; c3 : R }.

Module Curve.

(** [Math.pow(x, 0.25)] for the squared distances ([0 <= x]) it is called
    on. *)
Definition pow025 (x : R) : R := sqrt (sqrt x).

Definition init (x0 x1 t0 t1 : R) : CubicPoly :=
  mkPoly x0 t0 (- 3 * x0 + 3 * x1 - 2 * t0 - t1) (2 * x0 - 2 * x1 + t0 + t1).

Definition initNonuniformCatmullRom (x0 x1 x2 x3 dt0 dt1 dt2 : R) : CubicPoly :=
  let t1 := (x1 - x0) / dt0 - (x2 - x0) / (dt0 + dt1) + (x2 - x1) / dt1 in
  let t2 := (x2 - x1) / dt1 - (x3 - x1) / (dt1 + dt2) + (x3 - x2) / dt2 in
  init x1 x2 (t1 * dt1) (t2 * dt1).

Definition calc (p : CubicPoly) (t : R) : R :=
  let t2 := t * t in
  let t3 := t2 * t in
  c0 p + c1 p * t + c2 p * t2 + c3 p * t3.

(** [points[k % l]]; for [t] in [[0, 1]] every index [getPoint] uses is an
    index of the array. *)
Definition pointAt (pts : list Vector3) (k : Z) : Vector3 :=
  nth (Z.to_nat (Z.rem k (Z.of_nat (List.length pts)))) pts V3.zero.

(** The segment and the weight inside it that [getPoint] derives from [t]. *)
Definition locate (c : CatmullRomCurve3) (t : R) : Z * R :=
  let l := Z.of_nat (List.length (controlPoints c)) in
  let p := (INR (List.length (controlPoints c)) - (if closed c then 0 else 1)) * t in
  let intPoint := Int_part p in
  let weight := p - IZR intPoint in
  if closed c then
    ((intPoint + (if (0 <? intPoint)%Z then 0 else (Z.abs intPoint / l + 1) * l))%Z, weight)
  else if Reqb weight 0 && (intPoint =? l - 1)%Z then ((l - 2)%Z, 1)
  else (intPoint, weight).

(** The four control points around the segment [intPoint].  The two
    extrapolated end points are written to the same scratch vector [tmp]: when
    both are needed ([p0] and [p3] of an open curve of two points) [p0] holds
    the second one too. *)
Definition neighbours (c : CatmullRomCurve3) (intPoint : Z)
  : Vector3 * Vector3 * Vector3 * Vector3 :=
  let pts := controlPoints c in
  let l := Z.of_nat (List.length pts) in
  let extrapolateFirst := V3.add (V3.sub (pointAt pts 0) (pointAt pts 1)) (pointAt pts 0) in
  let extrapolateLast :=
    V3.add (V3.sub (pointAt pts (l - 1)) (pointAt pts (l - 2))) (pointAt pts (l - 1)) in
  let inner3 := closed c || (intPoint + 2 <? l)%Z in
  let p0 :=
    if closed c || (0 <? intPoint)%Z then pointAt pts (intPoint - 1)
    else if inner3 then extrapolateFirst else extrapolateLast in
  let p1 := pointAt pts intPoint in
  let p2 := pointAt pts (intPoint + 1) in
  let p3 := if inner3 then pointAt pts (intPoint + 2) else extrapolateLast in
  (p0, p1, p2, p3).

(** The centripetal polynomials of the segment, evaluated at [weight]. *)
Definition interpolate (p0 p1 p2 p3 : Vector3) (weight : R) : Vector3 :=
  let dt0 := pow025 (V3.distanceToSquared p0 p1) in
  let dt1 := pow025 (V3.distanceToSquared p1 p2) in
  let dt2 := pow025 (V3.distanceToSquared p2 p3) in
  let dt1 := if Rltb dt1 1e-4 then 1.0 else dt1 in
  let dt0 := if Rltb dt0 1e-4 then dt1 else dt0 in
  let dt2 := if Rltb dt2 1e-4 then dt1 else dt2 in
  let px := initNonuniformCatmullRom (vx p0) (vx p1) (vx p2) (vx p3) dt0 dt1 dt2 in
  let py := initNonuniformCatmullRom (vy p0) (vy p1) (vy p2) (vy p3) dt0 dt1 dt2 in
  let pz := initNonuniformCatmullRom (vz p0) (vz p1) (vz p2) (vz p3) dt0 dt1 dt2 in
  vec3 (calc px weight) (calc py weight) (calc pz weight).

(** [CatmullRomCurve3.getPoint(t)] *)
Definition getPoint (c : CatmullRomCurve3) (t : R) : Vector3 :=
  let '(intPoint, weight) := locate c t in
  let '(p0, p1, p2, p3) := neighbours c intPoint in
  interpolate p0 p1 p2 p3 weight.

Definition arcLengthDivisions : nat := 200.

(** The loop of [getLengths]: the running sums of the distances between
    consecutive points [getPoint(p / divisions)]. *)
Fixpoint arcSums (c : CatmullRomCurve3) (divisions : nat) (ps : list nat)
  (last : Vector3) (sum : R) : list R :=
  match ps with
  | [] => []
  | p :: ps' =>
      let current := getPoint c (INR p / INR divisions) in
      let sum' := sum + V3.distanceTo current last in
      sum' :: arcSums c divisions ps' current sum'
  end.

(** [getLengths()]; the cache of the library returns the same array as long
    as the curve is not changed, which the sources never do. *)
Definition getLengths (c : CatmullRomCurve3) : list R :=
  0 :: arcSums c arcLengthDivisions (seq 1 arcLengthDivisions) (getPoint c 0) 0.

(** The binary search of [getUtoTmapping]: the value of [high] when the loop
    ends.  Each turn shrinks [high - low], so the loop ends within
    [high - low + 1] turns. *)
Fixpoint search (fuel : nat) (arcLengths : list R) (target : R) (low high : Z) : Z :=
  match fuel with
  | O => high
  | S fuel' =>
      if (low <=? high)%Z then
        let i := (low + (high - low) / 2)%Z in
        let comparison := nth (Z.to_nat i) arcLengths 0 - target in
        if Rltb comparison 0 then search fuel' arcLengths target (i + 1) high
        else if Rltb 0 comparison then search fuel' arcLengths target low (i - 1)
        else i
      else high
  end.

(** [getUtoTmapping(u)] *)
Definition getUtoTmapping (c : CatmullRomCurve3) (u : R) : R :=
  let arcLengths := getLengths c in
  let il := List.length arcLengths in
  let targetArcLength := u * nth (il - 1) arcLengths 0 in
  let i := search il arcLengths targetArcLength 0 (Z.of_nat il - 1) in
  if Reqb (nth (Z.to_nat i) arcLengths 0) targetArcLength then IZR i / (INR il - 1)
  else
    let lengthBefore := nth (Z.to_nat i) arcLengths 0 in
    let lengthAfter := nth (Z.to_nat (i + 1)) arcLengths 0 in
    let segmentLength := lengthAfter - lengthBefore in
    let segmentFraction := (targetArcLength - lengthBefore) / segmentLength in
    (IZR i + segmentFraction) / (INR il - 1).

Definition getPointAt (c : CatmullRomCurve3) (u : R) : Vector3 :=
  getPoint c (getUtoTmapping c u).

(** [getPoints(divisions)]: the loop runs [d = 0 .. divisions]. *)
Definition getPoints (c : CatmullRomCurve3) (divisions : nat) : list Vector3 :=
  map (fun d => getPoint c (INR d / INR divisions)) (seq 0 (divisions + 1)).

(** [getSpacedPoints(divisions)]: the loop runs [d = 0 .. divisions]. *)
Definition getSpacedPoints (c : CatmullRomCurve3) (divisions : nat) : list Vector3 :=
  map (fun d => getPointAt c (INR d / INR divisions)) (seq 0 (divisions + 1)).

End Curve.

(** The points [getLengths] measures, and the running sums it stores. *)
Definition sample (c : CatmullRomCurve3) (k : nat) : Vector3 :=
  Curve.getPoint c (INR k / INR Curve.arcLengthDivisions).

Fixpoint cumulated (c : CatmullRomCurve3) (k : nat) : R :=
  match k with
  | O => 0
  | S k' => cumulated c k' + V3.distanceTo (sample c k) (sample c k')
  end.

(** ** How a call ends *)

(** [OutOfRange] is the error the specification names for a lookup outside
    the sampled range; [TypeError] is raised by a method call on
    [undefined]. *)
Inductive JsError : Type := TypeError | OutOfRange.

(** A call returns (possibly [undefined], where the result type is an
    [option]) or throws. *)
Inductive Completion (A : Type) : Type :=
| Normal (a : A)
| Throw (e : JsError).

Arguments Normal {A} a.
Arguments Throw {A} e.

Definition bind {A B : Type} (m : Completion A) (k : A -> Completion B) : Completion B :=
  match m with
  | Normal a => k a
  | Throw e => Throw e
  end.

Notation "x <- m ;; k" := (bind m (fun x => k))
  (at level 61, m at next level, right associativity).

(** [l.map(f)] where [f] may throw. *)
Fixpoint mapM {A B : Type} (f : A -> Completion B) (l : list A) : Completion (list B) :=
  match l with
  | [] => Normal []
  | a :: t => b <- f a ;; bs <- mapM f t ;; Normal (b :: bs)
  end.

(** ** THREE.BufferGeometry, PlaneGeometry and mergeGeometries *)

(** The attributes the mesh assembly depends on: the positions (one entry per
    vertex; the flat array of the sources holds three numbers per entry), the
    [parts] tag of each vertex and the index.  Normals and texture
    coordinates are shading data. *)
Record BufferGeometry : Type := mkGeometry {
  positions : list Vector3;
  partTags : list nat;
  indices : list nat
}.

Module Three.

Definition vertexCount (g : BufferGeometry) : nat := List.length (positions g).

(** The index of [new PlaneGeometry(w, h, gridX, gridY)]: two triangles per
    cell. *)
Definition planeIndices (gridX gridY : nat) : list nat :=
  let gridX1 := (gridX + 1)%nat in
  flat_map
    (fun iy =>
       flat_map
         (fun ix =>
            let a := (ix + gridX1 * iy)%nat in
            let b := (ix + gridX1 * (iy + 1))%nat in
            let c := (ix + 1 + gridX1 * (iy + 1))%nat in
            let d := (ix + 1 + gridX1 * iy)%nat in
            [a; b; d; b; c; d])
         (seq 0 gridX))
    (seq 0 gridY).

Definition planePositions (width height : R) (gridX gridY : nat) : list Vector3 :=
  let segment_width := width / INR gridX in
  let segment_height := height / INR gridY in
  flat_map
    (fun iy =>
       let y := INR iy * segment_height - height / 2 in
       map (fun ix => vec3 (INR ix * segment_width - width / 2) (- y) 0)
           (seq 0 (gridX + 1)))
    (seq 0 (gridY + 1)).

Definition PlaneGeometry (width height : R) (gridX gridY : nat) : BufferGeometry :=
  mkGeometry (planePositions width height gridX gridY) [] (planeIndices gridX gridY).

(** [g.setAttribute("position", new Float32BufferAttribute(pts, 3))] and
    [g.setAttribute("parts", new Float32BufferAttribute(parts, 1))] *)
Definition setPosition (g : BufferGeometry) (pts : list Vector3) : BufferGeometry :=
  mkGeometry pts (partTags g) (indices g).

Definition setParts (g : BufferGeometry) (parts : list nat) : BufferGeometry :=
  mkGeometry (positions g) parts (indices g).

Definition translate (g : BufferGeometry) (x y z : R) : BufferGeometry :=
  mkGeometry (map (fun p => vec3 (vx p + x) (vy p + y) (vz p + z)) (positions g))
             (partTags g) (indices g).

Definition rotateX (g : BufferGeometry) (angle : R) : BufferGeometry :=
  mkGeometry
    (map (fun p => vec3 (vx p)
                        (cos angle * vy p - sin angle * vz p)
                        (sin angle * vy p + cos angle * vz p))
         (positions g))
    (partTags g) (indices g).

(** The merged index of [mergeGeometries]: the index of each geometry
    shifted by the number of vertices of the geometries before it. *)
Fixpoint mergeIndices (gs : list BufferGeometry) (indexOffset : nat) : list nat :=
  match gs with
  | [] => []
  | g :: gs' =>
      map (fun i => (i + indexOffset)%nat) (indices g)
      ++ mergeIndices gs' (indexOffset + vertexCount g)
  end.

(** [BufferGeometryUtils.mergeGeometries(geometries)] on indexed geometries
    that carry the same attributes, as all geometries of the fish do. *)
Definition mergeGeometries (gs : list BufferGeometry) : BufferGeometry :=
  mkGeometry (concat (map positions gs))
             (concat (map partTags gs))
             (mergeIndices gs 0).

End Three.

(** Every index of the geometry is the index of one of its vertices. *)
Definition validGeometry (g : BufferGeometry) : Prop :=
  Forall (fun i => (i < Three.vertexCount g)%nat) (indices g).

(** ** fish.js: createFishGeometry *)

Module FishGeometry.

Definition divisions : nat := 200.

Definition curve2 (l : list (R * R)) : CatmullRomCurve3 :=
  mkCurve (map (fun p => vec3 (fst p) (snd p) 0) l) false.

(** shaping curves *)
Definition topCurve : CatmullRomCurve3 :=
  curve2 [(0, 0); (0.1, 0.15); (1, 0.75); (3.5, 1.5); (9, 0.5); (9.5, 0.45); (10, 0.55)].
Definition topPoints : list Vector3 := Curve.getSpacedPoints topCurve 100.

Definition bottomCurve : CatmullRomCurve3 :=
  curve2 [(0, 0); (0.1, -0.15); (0.5, -0.35); (4.5, -1); (8, -0.6); (9.5, -0.45);
          (10, -0.55)].
Definition bottomPoints : list Vector3 := Curve.getSpacedPoints bottomCurve 100.

Definition sideCurve : CatmullRomCurve3 :=
  mkCurve [vec3 0 0 0; vec3 0.1 0 0.125; vec3 1 0 0.375; vec3 4 (-0.25) 0.6;
           vec3 8 0 0.25; vec3 10 0 0.05] false.
Definition sidePoints : list Vector3 := Curve.getSpacedPoints sideCurve 100.

(** [getPoint(curvePoints, x)]: the first pair of consecutive points whose
    [x] bracket the query; the function falls off its end, returning
    [undefined], when there is none.  On a pair with the same [x] the weight
    [a] is the quotient [0 / 0], [NaN] in the code and [0] here: the
    properties of the point returned are stated for pairs with distinct
    [x]. *)
Fixpoint getPoint (curvePoints : list Vector3) (x : R) : Completion (option Vector3) :=
  match curvePoints with
  | [] => Normal None
  | i1 :: rest =>
      match rest with
      | [] => Normal None
      | i2 :: _ =>
          if Rleb (vx i1) x && Rleb x (vx i2) then
            let a := (x - vx i1) / (vx i2 - vx i1) in
            Normal (Some (V3.lerpVectors i1 i2 a))
          else getPoint rest x
      end
  end.

(** A use of the result of [getPoint] as a vector ([.add], [.clone], a
    control point of a curve): a [TypeError] on [undefined]. *)
Definition getPointDefined (curvePoints : list Vector3) (x : R) : Completion Vector3 :=
  r <- getPoint curvePoints x ;;
  match r with
  | Some v => Normal v
  | None => Throw TypeError
  end.

Definition getFramePoints (top bottom side : Vector3) : list Vector3 :=
  let sideR := side in
  let sideL := V3.setZ sideR (vz sideR * -1) in
  let baseCurve := mkCurve [bottom; sideR; top; sideL] true in
  Curve.getSpacedPoints baseCurve divisions.

Definition getFrame (x : R) : Completion (list Vector3) :=
  top <- getPointDefined topPoints x ;;
  bottom <- getPointDefined bottomPoints x ;;
  side <- getPointDefined sidePoints x ;;
  Normal (getFramePoints top bottom side).

Definition step : R := 0.05.

(** [for (let i = step; i < 10; i += step) frames.push(getFrame(i))]: the
    condition fails at the latest when [i] has been increased 199 times. *)
Fixpoint frameLoop (fuel : nat) (i : R) : Completion (list (list Vector3)) :=
  match fuel with
  | O => Normal []
  | S fuel' =>
      if Rltb i 10 then
        f <- getFrame i ;; fs <- frameLoop fuel' (i + step) ;; Normal (f :: fs)
      else Normal []
  end.

(** An element of an array that is used as a vector. *)
Definition element (l : list Vector3) (k : nat) : Completion Vector3 :=
  match nth_error l k with
  | Some v => Normal v
  | None => Throw TypeError
  end.

Definition computeFrames : Completion (list (list Vector3)) :=
  let first := repeat V3.zero (divisions + 1) in
  fs <- frameLoop 200 step ;;
  top <- element topPoints 100 ;;
  bottom <- element bottomPoints 100 ;;
  side <- element sidePoints 100 ;;
  Normal (first :: fs ++ [getFramePoints top bottom side]).

(** [createFin(basePoints, contourPoints, isTop)] *)
Definition createFin (basePoints contourPoints : list Vector3) (isTop : bool)
  : Completion BufferGeometry :=
  let shift := 0.05 in
  let shiftSign := if isTop then 1 else -1 in
  let vAdd := vec3 0 (- shift * shiftSign) 0 in
  basePts <- mapM (fun p => v <- getPointDefined basePoints (vx p) ;; Normal (V3.add v vAdd))
                  contourPoints ;;
  let basePtsRev := tl (rev basePts) in
  let contourPointsRev := tl (rev contourPoints) in
  let basePts :=
    JsArray.mapi
      (fun idx p =>
         if (0 <? idx)%nat && (idx <? List.length basePts - 1)%nat
         then V3.setZ p (shift * shiftSign) else p)
      basePts in
  let basePtsRev :=
    JsArray.mapi
      (fun idx p =>
         if (idx <? List.length basePtsRev - 1)%nat
         then V3.setZ p (- shift * shiftSign) else p)
      basePtsRev in
  let fullPoints := contourPoints ++ contourPointsRev ++ basePts ++ basePtsRev in
  let plane := Three.PlaneGeometry 1 1 ((List.length contourPoints - 1) * 2) 1 in
  Normal (Three.setParts (Three.setPosition plane fullPoints)
                         (map (fun _ => 1%nat) fullPoints)).

(** FINS *)
Definition tailCurve : CatmullRomCurve3 :=
  curve2 [(11, -1); (12.5, -1.5); (12, 0); (12.5, 1.5); (11, 1)].
Definition tailfinSlices : nat := 5.

Definition dorsalCurve : CatmullRomCurve3 :=
  curve2 [(3, 1.45); (3.25, 2.25); (3.75, 3); (6, 2); (7, 1)].
Definition rectCurve : CatmullRomCurve3 :=
  curve2 [(6, -0.9); (7.25, -1.5); (7.5, -0.75)].
Definition pelvicCurve : CatmullRomCurve3 :=
  curve2 [(2.25, -0.7); (3.75, -2); (4, -1)].

(** The tail fin: [tailfinSlices + 1] copies of the last frame, moved step by
    step onto the tail contour. *)
Definition tailGeometry (lastFrame : list Vector3) : Completion BufferGeometry :=
  let tailPoints := Curve.getPoints tailCurve (divisions / 2) in
  let tailPointsRev := tl (rev tailPoints) in
  let fullTailPoints := tailPoints ++ tailPointsRev in
  let tailRatioStep := 1 / INR tailfinSlices in
  rows <- mapM
            (fun i =>
               let ratio := INR i * tailRatioStep in
               mapM (fun ip =>
                       q <- element fullTailPoints (fst ip) ;;
                       Normal (V3.lerpVectors (snd ip) q ratio))
                    (combine (seq 0 (List.length lastFrame)) lastFrame))
            (seq 0 (tailfinSlices + 1)) ;;
  let tailPts := concat rows in
  let gTail := Three.PlaneGeometry 1 1 divisions tailfinSlices in
  Normal (Three.setParts (Three.setPosition gTail tailPts)
                         (map (fun _ => 1%nat) tailPts)).

(** The geometries handed to [mergeGeometries], in this order: body, tail,
    dorsal, rect, left and right pelvic fins. *)
Definition fishParts : Completion (list BufferGeometry) :=
  frames <- computeFrames ;;
  let pts := concat frames in
  lastFrame <- match nth_error frames (List.length frames - 1) with
               | Some f => Normal f
               | None => Throw TypeError
               end ;;
  gTail <- tailGeometry lastFrame ;;
  gDorsal <- createFin topPoints (Curve.getSpacedPoints dorsalCurve 100) true ;;
  gRect <- createFin bottomPoints (Curve.getSpacedPoints rectCurve 40) false ;;
  gPelvic <- createFin bottomPoints (Curve.getSpacedPoints pelvicCurve 40) false ;;
  let gPelvic := Three.translate gPelvic 0 0.6 0 in
  let gPelvicL :=
    Three.translate (Three.rotateX gPelvic (MathUtils.degToRad (-20))) 0 (-0.6) 0 in
  let gPelvicR :=
    Three.translate (Three.rotateX gPelvic (MathUtils.degToRad 20)) 0 (-0.6) 0 in
  let bodyGeom := Three.PlaneGeometry 1 1 divisions (List.length frames - 1) in
  let bodyGeom :=
    Three.setParts (Three.setPosition bodyGeom pts) (map (fun _ => 0%nat) pts) in
  Normal [bodyGeom; gTail; gDorsal; gRect; gPelvicL; gPelvicR].

Definition createFishGeometry : Completion BufferGeometry :=
  gs <- fishParts ;; Normal (Three.mergeGeometries gs).

(** The least and the greatest [x] of a polyline. *)
Definition xMin (pts : list Vector3) : R :=
  fold_right (fun p m => Rmin (vx p) m) (vx (hd V3.zero pts)) pts.

Definition xMax (pts : list Vector3) : R :=
  fold_right (fun p m => Rmax (vx p) m) (vx (hd V3.zero pts)) pts.

End FishGeometry.

(** ** main.js: bubbles *)

(** A bubble: [position] is [bubble.position], [speed] is
    [bubble.userData.speed]. *)
Record Bubble : Type := mkBubble {
  bubblePosition : Vector3;
  bubbleSpeed : R
}.

(** The values of [Math.random()] one call of [resetBubble] consumes, in the
    order of the calls: for [x], for [z], for the speed. *)
Record BubbleDraws : Type := mkBubbleDraws {
  bubbleXDraw : R;
  bubbleZDraw : R;
  bubbleSpeedDraw : R
}.

Module Bubbles.

Import Tank.

(** [resetBubble(bubble)]: every field of the bubble is written. *)
Definition resetBubble (d : BubbleDraws) (_ : Bubble) : Bubble :=
  mkBubble
    (vec3 (MathUtils.randFloatSpread (bubbleXDraw d) (aqWidth * 0.4))
          (- aqHeight / 2 + 0.2)
          (MathUtils.randFloatSpread (bubbleZDraw d) (aqDepth * 0.4)))
    (MathUtils.randFloat (bubbleSpeedDraw d) 0.15 0.5).

(** The body of [bubbles.forEach(bubble => ...)] in the animation loop;
    [now1] and [now2] are the values of the two calls of
    [performance.now()], and [z] is moved with the [x] already moved. *)
Definition animateBubble (delta now1 now2 : R) (d : BubbleDraws) (b : Bubble) : Bubble :=
  let p := bubblePosition b in
  let y := vy p + bubbleSpeed b * delta in
  let x := vx p + sin (now1 * 0.001 + vz p) * 0.01 in
  let z := vz p + cos (now2 * 0.0015 + x) * 0.01 in
  let b' := mkBubble (vec3 x y z) (bubbleSpeed b) in
  if Rltb (aqHeight / 2 - 0.5) y then resetBubble d b' else b'.

End Bubbles.

(** ** main.js: the sand *)

(** The sand mesh: [positionAttr] is the position attribute of its geometry
    (one vector per vertex) and [sandOrigY] the array filled from it when the
    page loads, one entry per vertex. *)
Record SandState : Type := mkSand {
  positionAttr : list Vector3;
  sandOrigY : list R
}.

Module Sand.

Import Tank.

Definition sandWidth : R := aqWidth - 0.3.
Definition sandDepth : R := aqDepth - 0.3.
Definition sandHeight : R := 0.8.

(** [sand.position]: only [y] is set. *)
Definition sandPosition : Vector3 := vec3 0 (- aqHeight / 2 + sandHeight / 2) 0.

(** [for (i...) sandOrigY[i] = posAttr.getY(i)] *)
Definition recordOrigY (verts : list Vector3) : SandState :=
  mkSand verts (map vy verts).

(** [dist < closestDist], where [closestDist] starts as [Infinity]
    ([None]). *)
Definition closer (dist : R) (closestDist : option R) : bool :=
  match closestDist with
  | None => true
  | Some c => Rltb dist c
  end.

(** One turn of the loop of [getSandHeightAt] on the pair
    [(closestDist, closestY)]; [closestY] starts as [null] ([None]). *)
Definition heightStep (x z sandHeight : R) (st : option R * option R) (v : Vector3)
  : option R * option R :=
  if Rltb 0.4 (Rabs (vy v - sandHeight / 2)) then st
  else
    let dist := (vx v - x) * (vx v - x) + (vz v - z) * (vz v - z) in
    if closer dist (fst st) then (Some dist, Some (vy v)) else st.

(** [getSandHeightAt(x, z, sandGeom, sandWidth, sandDepth, sandHeight)]; the
    two sizes are not used by the function. *)
Definition getSandHeightAt (x z : R) (sandGeom : list Vector3)
  (sandWidth sandDepth sandHeight : R) : option R :=
  snd (fold_left (heightStep x z sandHeight) sandGeom (None, None)).

(** The body of the loop of [deformSandAt] for the vertex [i]. *)
Definition deformVertex (worldX worldZ depth radius : R) (origY : list R)
  (i : nat) (v : Vector3) : Vector3 :=
  let vx' := vx v + vx sandPosition in
  let vz' := vz v + vz sandPosition in
  let dist := sqrt ((vx' - worldX) * (vx' - worldX) + (vz' - worldZ) * (vz' - worldZ)) in
  if Rltb dist radius then
    let factor := 1 - dist / radius in
    V3.setY v (nth i origY 0 - depth * factor)
  else v.

(** [deformSandAt(worldX, worldZ, depth = 0.12, radius = 0.5)] *)
Definition deformSandAt (worldX worldZ depth radius : R) (s : SandState) : SandState :=
  mkSand (JsArray.mapi (deformVertex worldX worldZ depth radius (sandOrigY s))
                       (positionAttr s))
         (sandOrigY s).

(** [relaxSand(delta, speed = 0.2)] *)
Definition relaxSand (delta speed : R) (s : SandState) : SandState :=
  mkSand (JsArray.mapi
            (fun i v => V3.setY v (vy v + (nth i (sandOrigY s) 0 - vy v) * speed * delta))
            (positionAttr s))
         (sandOrigY s).

(** The sand part of the animation loop: a dent under every fish that swims
    within 0.5 of the height of the sand mesh, then the relaxation. *)
Definition sandTick (delta : R) (fishPositions : list Vector3) (s : SandState) : SandState :=
  relaxSand delta 0.2
    (fold_left
       (fun s fishPos =>
          if Rltb (Rabs (vy fishPos - vy sandPosition)) 0.5
          then deformSandAt (vx fishPos) (vz fishPos) 0.12 0.5 s
          else s)
       fishPositions s).

End Sand.

(** Every vertex is between its original height and [depth] below it. *)
Definition dentedAtMost (depth : R) (s : SandState) : Prop :=
  List.length (sandOrigY s) = List.length (positionAttr s) /\
  forall i, (i < List.length (positionAttr s))%nat ->
    nth i (sandOrigY s) 0 - depth <= vy (nth i (positionAttr s) V3.zero)
    <= nth i (sandOrigY s) 0.

(** ** main.js: the plants that sway *)

Module SwayPlant.

(** An entry of [plants]: [position] is [mesh.position]; the rotation of the
    mesh is set from [angle] and read by nothing. *)
Record Plant : Type := mkPlant {
  position : Vector3;
  angle : R;
  velocity : R;
  restAngle : R;
  stiffness : R;
  damping : R
}.

(** The plant pushed by [addPlants]; the two draws are the values of
    [Math.random()] for the stiffness and for the damping. *)
Definition newPlant (pos : Vector3) (stiffnessDraw dampingDraw : R) : Plant :=
  mkPlant pos 0 0 0 (10 + stiffnessDraw * 2) (4.5 + dampingDraw).



End SwayPlant.

(** ** main.js: the mesh of the water surface *)

Module WaterMesh.

(** [posAttr.setY(i, y)]: a write past the end of the attribute's array is
    ignored. *)
Definition setY (posAttr : list Vector3) (i : nat) (y : R) : list Vector3 :=
  JsArray.setNth i (V3.setY (nth i posAttr V3.zero) y) posAttr.

(** [updateWaterMesh()] on the position attribute of the water mesh. *)
Definition updateWaterMesh (g : Water.Grid) (posAttr : list Vector3) : list Vector3 :=
  Water.forRange 0 Water.WATER_RES_X
    (fun posAttr x =>
       Water.forRange 0 Water.WATER_RES_Z
         (fun posAttr z =>
            let i := (z + x * Water.WATER_RES_Z)%nat in
            setY posAttr i (Water.read (Water.waterHeights g) x z))
         posAttr)
    posAttr.

(** The number of vertices of [new PlaneGeometry(aqWidth, aqDepth, 128, 128)]. *)
Definition vertexCount : nat := (128 + 1) * (128 + 1).

End WaterMesh.

(** ** The kelp variant: the ribbon of a plant *)

(** The geometry [createKelpRibbon] builds: positions, texture coordinates
    and index (the normals are recomputed from them). *)
Record Ribbon : Type := mkRibbon {
  ribbonPositions : list Vector3;
  ribbonUvs : list (R * R);
  ribbonIndex : list nat
}.

Module KelpRibbon.

(** [Vector3.crossVectors(a, b)] *)
Definition crossVectors (a b : Vector3) : Vector3 :=
  vec3 (vy a * vz b - vz a * vy b)
       (vz a * vx b - vx a * vz b)
       (vx a * vy b - vy a * vx b).

(** The side vector of the segment from [pA] to [pB]. *)
Definition sideOf (pA pB : Vector3) : Vector3 :=
  let dir := V3.normalize (V3.sub pB pA) in
  let up := vec3 0 1 0 in
  let side := V3.normalize (crossVectors up dir) in
  if Rltb (V3.length side) 0.0001 then vec3 1 0 0 else side.

Definition widthAt (bladeWidth : R) (segs i : nat) : R :=
  let t := INR i / INR segs in
  bladeWidth * (1 - t * 0.75).

(** The two vertices pushed for the segment [i]: left, then right. *)
Definition segmentVertices (points : list Vector3) (bladeWidth : R) (segs i : nat)
  : list Vector3 :=
  let pA := nth i points V3.zero in
  let pB := nth (i + 1) points V3.zero in
  let side := sideOf pA pB in
  let width := widthAt bladeWidth segs i in
  let left := V3.add pA (V3.multiplyScalar side (width * 0.5)) in
  let right := V3.add pA (V3.multiplyScalar side (- width * 0.5)) in
  [left; right].

(** The two triangles pushed for the segment [i]. *)
Definition segmentTriangles (i : nat) : list nat :=
  let a := (i * 2)%nat in
  let b := (a + 1)%nat in
  let c := (a + 2)%nat in
  let d := (a + 3)%nat in
  [a; b; c; b; d; c].

(** [createKelpRibbon(points, bladeWidth)]; for an empty array
    [points.length - 1] is [-1] and neither loop runs, as for [0]. *)
Definition createKelpRibbon (points : list Vector3) (bladeWidth : R) : Ribbon :=
  let segs := (List.length points - 1)%nat in
  mkRibbon
    (flat_map (segmentVertices points bladeWidth segs) (seq 0 segs))
    (flat_map (fun i => let t := INR i / INR segs in [(0, t); (1, t)]) (seq 0 segs))
    (flat_map segmentTriangles (seq 0 (segs - 1))).

End KelpRibbon.

(** ** main.js: the earlier animation loop *)

(** The second copy of the loop in [main.js]: no forces and no bounce; the
    separation steers, and the position is clamped. *)
Module EarlyLoop.

Import Tank.

(** An entry of [fishData] there: [position] is [mesh.position]. *)
Record Fish : Type := mkFish {
  position : Vector3;
  velocity : Vector3
}.

(** The body of the inner [forEach(({ mesh: otherFish }, j) => ...)]. *)
Definition separationStep (p : Params) (pos : Vector3) (i : nat)
  (separation : Vector3) (j : nat) (otherFish : Fish) : Vector3 :=
  if (i =? j)%nat then separation
  else
    let offset := V3.sub pos (position otherFish) in
    let dist := V3.length offset in
    if Rltb dist (separationDist p) && Rltb 0 dist
    then V3.add separation (V3.divideScalar (V3.normalize offset) dist)
    else separation.

(** Combine: desired + separation *)
Definition steerDir (p : Params) (fs : list Fish) (i : nat) (pos target : Vector3)
  : Vector3 :=
  let desiredDir := V3.normalize (V3.sub target pos) in
  let separation := JsArray.foldi (separationStep p pos i) fs V3.zero in
  let separation := V3.multiplyScalar (V3.normalize separation) (separationStrength p) in
  V3.normalize (V3.add desiredDir separation).

(** Smooth steering, move and clamp: the fish of index [i] after the body of
    the outer [forEach]; [fs] is the array as it is then. *)
Definition moveFish (p : Params) (delta : R) (fs : list Fish) (i : nat)
  (target : Vector3) (f : Fish) : Fish :=
  let vel :=
    V3.multiplyScalar
      (V3.normalize
         (V3.lerp (V3.normalize (velocity f))
                  (steerDir p fs i (position f) target)
                  (turnSpeed p * delta)))
      (fishSpeed p) in
  let pos := V3.addScaledVector (position f) vel delta in
  mkFish (vec3 (MathUtils.clamp (vx pos) (- halfX) halfX)
               (MathUtils.clamp (vy pos) (- halfY) halfY)
               (MathUtils.clamp (vz pos) (- halfZ) halfZ))
         vel.

End EarlyLoop.

(* ================================================================== *)
(** * Properties *)

(** ** Reflection of the boolean comparisons *)

Lemma Rltb_true a b : Rltb a b = true <-> a < b.
Proof. unfold Rltb; destruct (Rlt_dec a b); split; auto; discriminate. Qed.

Lemma Rltb_false a b : Rltb a b = false <-> ~ a < b.
Proof. unfold Rltb; destruct (Rlt_dec a b); split; auto; try discriminate; tauto. Qed.

Lemma Rleb_true a b : Rleb a b = true <-> a <= b.
Proof. unfold Rleb; destruct (Rle_dec a b); split; auto; discriminate. Qed.

Lemma Rleb_false a b : Rleb a b = false <-> ~ a <= b.
Proof. unfold Rleb; destruct (Rle_dec a b); split; auto; try discriminate; tauto. Qed.

Lemma Reqb_true a b : Reqb a b = true <-> a = b.
Proof. unfold Reqb; destruct (Req_dec_T a b); split; auto; discriminate. Qed.

Lemma Reqb_false a b : Reqb a b = false <-> a <> b.
Proof. unfold Reqb; destruct (Req_dec_T a b); split; auto; try discriminate; tauto. Qed.


(** ** Vectors *)

Lemma vec3_eq a b : vx a = vx b -> vy a = vy b -> vz a = vz b -> a = b.
Proof. destruct a, b; simpl; intros; subst; reflexivity. Qed.

Lemma lengthSq_nonneg a : 0 <= V3.lengthSq a.
Proof. unfold V3.lengthSq; nra. Qed.

Lemma length_nonneg a : 0 <= V3.length a.
Proof. apply sqrt_pos. Qed.

Lemma length_sqr a : V3.length a * V3.length a = V3.lengthSq a.
Proof. apply sqrt_sqrt, lengthSq_nonneg. Qed.

Lemma lengthSq_zero_inv a : V3.lengthSq a = 0 -> a = V3.zero.
Proof.
  unfold V3.lengthSq; intros H.
  apply vec3_eq; simpl; nra.
Qed.

Lemma length_zero_inv a : V3.length a = 0 -> a = V3.zero.
Proof.
  intros H; apply lengthSq_zero_inv.
  apply sqrt_eq_0; [apply lengthSq_nonneg | exact H].
Qed.

Lemma length_zero : V3.length V3.zero = 0.
Proof.
  unfold V3.length, V3.lengthSq; simpl.
  replace (0 * 0 + 0 * 0 + 0 * 0) with 0 by ring. apply sqrt_0.
Qed.

Lemma length_multiplyScalar a s :
  V3.length (V3.multiplyScalar a s) = V3.length a * Rabs s.
Proof.
  unfold V3.length.
  replace (V3.lengthSq (V3.multiplyScalar a s)) with (V3.lengthSq a * (s * s))
    by (unfold V3.lengthSq; simpl; ring).
  rewrite sqrt_mult; [| apply lengthSq_nonneg | nra].
  f_equal. apply sqrt_Rsqr_abs.
Qed.

Lemma orElse_nonzero a b : a <> 0 -> orElse a b = a.
Proof. intros H; unfold orElse. apply Reqb_false in H. now rewrite H. Qed.

Lemma orElse_zero b : orElse 0 b = b.
Proof. unfold orElse. now rewrite (proj2 (Reqb_true 0 0) eq_refl). Qed.

Lemma normalize_zero : V3.normalize V3.zero = V3.zero.
Proof.
  unfold V3.normalize. rewrite length_zero, orElse_zero.
  apply vec3_eq; simpl; lra.
Qed.

Lemma normalize_nonzero a :
  a <> V3.zero -> V3.normalize a = V3.multiplyScalar a (1 / V3.length a).
Proof.
  intros H. unfold V3.normalize, V3.divideScalar.
  rewrite orElse_nonzero; [reflexivity |].
  intros H0; apply H, length_zero_inv, H0.
Qed.

Lemma length_normalize a : a <> V3.zero -> V3.length (V3.normalize a) = 1.
Proof.
  intros H. rewrite (normalize_nonzero H), length_multiplyScalar.
  assert (Hp : 0 < V3.length a).
  { destruct (length_nonneg a) as [Hl | Hl]; [exact Hl |].
    exfalso; apply H, length_zero_inv; auto. }
  rewrite Rabs_pos_eq.
  - field; lra.
  - apply Rlt_le. unfold Rdiv. rewrite Rmult_1_l. apply Rinv_0_lt_compat, Hp.
Qed.

(** A normalized vector has length one, or is the zero vector. *)
Lemma normalize_cases a :
  V3.lengthSq (V3.normalize a) = 1 \/ V3.normalize a = V3.zero.
Proof.
  destruct (Req_dec_T (V3.length a) 0) as [H | H].
  - right. apply length_zero_inv in H. subst. apply normalize_zero.
  - left. rewrite <- length_sqr, length_normalize; [ring |].
    intros ->. apply H, length_zero.
Qed.

Lemma length_negate_axis a sx sy sz :
  (sx = 1 \/ sx = -1) -> (sy = 1 \/ sy = -1) -> (sz = 1 \/ sz = -1) ->
  V3.length (vec3 (vx a * sx) (vy a * sy) (vz a * sz)) = V3.length a.
Proof.
  intros Hx Hy Hz. unfold V3.length. f_equal. unfold V3.lengthSq; simpl.
  destruct Hx, Hy, Hz; subst; ring.
Qed.



(** ** JavaScript arrays *)

Lemma setNth_length A i (v : A) l : List.length (JsArray.setNth i v l) = List.length l.
Proof.
  revert i; induction l as [| h t IH]; intros [| i]; simpl; auto.
Qed.

Lemma setNth_same A i (v : A) l :
  (i < List.length l)%nat -> nth_error (JsArray.setNth i v l) i = Some v.
Proof.
  revert i; induction l as [| h t IH]; intros [| i]; simpl; intros H;
    try lia; auto. apply IH; lia.
Qed.

Lemma setNth_other A i j (v : A) l :
  i <> j -> nth_error (JsArray.setNth i v l) j = nth_error l j.
Proof.
  revert i j; induction l as [| h t IH]; intros [| i] [| j] H; simpl; auto.
  congruence.
Qed.

Lemma assign_in_range A (l : list (option A)) i v :
  (i < List.length l)%nat -> JsArray.assign l i v = JsArray.setNth i (Some v) l.
Proof.
  revert i; induction l as [| h t IH]; intros [| i]; simpl; intros H;
    try lia; auto. f_equal. apply IH; lia.
Qed.

Lemma assign_at_end A (l : list (option A)) v :
  JsArray.assign l (List.length l) v = l ++ [Some v].
Proof. induction l as [| h t IH]; simpl; auto. now rewrite IH. Qed.

Lemma mapiFrom_length A B (f : nat -> A -> B) i l :
  List.length (JsArray.mapiFrom f i l) = List.length l.
Proof. revert i; induction l; simpl; auto. Qed.

Lemma mapiFrom_nth_error A B (f : nat -> A -> B) i l j :
  nth_error (JsArray.mapiFrom f i l) j = option_map (f (i + j)%nat) (nth_error l j).
Proof.
  revert i j; induction l as [| h t IH]; intros i [| j]; simpl; auto.
  - now rewrite Nat.add_0_r.
  - rewrite IH. now replace (Datatypes.S i + j)%nat with (i + Datatypes.S j)%nat by lia.
Qed.

(** ** Flock: the wall bounce keeps every fish inside the motion bounds *)

Lemma half_extents : Tank.halfX = 8 /\ Tank.halfY = 3 /\ Tank.halfZ = 6.
Proof.
  unfold Tank.halfX, Tank.halfY, Tank.halfZ,
    Tank.aqWidth, Tank.aqHeight, Tank.aqDepth, Tank.margin.
  repeat split; lra.
Qed.

Lemma clamp_bounds v lo hi : lo <= hi -> lo <= MathUtils.clamp v lo hi <= hi.
Proof.
  intros H. unfold MathUtils.clamp. split.
  - apply Rmax_l.
  - apply Rmax_lub; [exact H | apply Rmin_l].
Qed.

Lemma bounceAxis_bounds pos vel half :
  0 <= half -> - half <= fst (fst (Flock.bounceAxis pos vel half)) <= half.
Proof.
  intros Hh. unfold Flock.bounceAxis.
  destruct (Rltb pos (- half)) eqn:E1; simpl.
  - apply clamp_bounds; lra.
  - destruct (Rltb half pos) eqn:E2; simpl.
    + apply clamp_bounds; lra.
    + apply Rltb_false in E1, E2. lra.
Qed.

Lemma wallBounce_inBounds d f : Flock.inBounds (Flock.wallBounce d f).
Proof.
  destruct half_extents as (HX & HY & HZ).
  unfold Flock.wallBounce.
  pose proof (@bounceAxis_bounds (vx (position f)) (vx (velocity f)) Tank.halfX) as Bx.
  pose proof (@bounceAxis_bounds (vy (position f)) (vy (velocity f)) Tank.halfY) as By.
  pose proof (@bounceAxis_bounds (vz (position f)) (vz (velocity f)) Tank.halfZ) as Bz.
  destruct (Flock.bounceAxis (vx (position f)) (vx (velocity f)) Tank.halfX) as [[px wx] bx].
  destruct (Flock.bounceAxis (vy (position f)) (vy (velocity f)) Tank.halfY) as [[py wy] byy].
  destruct (Flock.bounceAxis (vz (position f)) (vz (velocity f)) Tank.halfZ) as [[pz wz] bz].
  unfold Flock.inBounds; simpl in *.
  repeat split; try apply Bx; try apply By; try apply Bz; lra.
Qed.

Lemma moveFish_inBounds p delta d target f :
  Flock.inBounds (Flock.moveFish p delta d target f).
Proof. apply wallBounce_inBounds. Qed.

Lemma fishLoopUpTo_S p delta draws k w :
  fishLoopUpTo p delta draws (S k) w =
  match fishLoopUpTo p delta draws k w with
  | Some w' => Flock.fishStep p delta draws w' k
  | None => None
  end.
Proof.
  unfold fishLoopUpTo. rewrite seq_S, fold_left_app. reflexivity.
Qed.

Lemma fishStep_inv p delta draws w i w' :
  Flock.fishStep p delta draws w i = Some w' ->
  exists fish target,
    nth_error (fishData w) i = Some fish /\
    JsArray.get (targets w) i = Some target /\
    fishData w' = JsArray.setNth i (Flock.moveFish p delta (draws i) target fish) (fishData w) /\
    (targets w' = targets w \/
     targets w' = Flock.pickNewTarget (targetDraw (draws i)) i (targets w)).
Proof.
  unfold Flock.fishStep.
  destruct (nth_error (fishData w) i) as [fish |]; [| discriminate].
  destruct (JsArray.get (targets w) i) as [target |]; [| discriminate].
  intros H; inversion H; subst; clear H; simpl.
  exists fish, target. repeat split; auto.
  destruct (Rltb _ _); auto.
Qed.

Lemma fishLoopUpTo_inBounds p delta draws k w w' :
  fishLoopUpTo p delta draws k w = Some w' ->
  List.length (fishData w') = List.length (fishData w) /\
  forall j f, (j < k)%nat -> nth_error (fishData w') j = Some f -> Flock.inBounds f.
Proof.
  revert w'; induction k as [| k IH]; intros w' H.
  - unfold fishLoopUpTo in H; simpl in H. inversion H; subst.
    split; [reflexivity | intros; lia].
  - rewrite fishLoopUpTo_S in H.
    destruct (fishLoopUpTo p delta draws k w) as [w1 |]; [| discriminate].
    destruct (IH w1 eq_refl) as [Hlen Hin].
    apply fishStep_inv in H.
    destruct H as (fish & target & Hf & _ & Hfd & _).
    rewrite Hfd. split.
    + now rewrite setNth_length.
    + intros j f Hj Hn.
      destruct (Nat.eq_dec k j) as [-> | Hne].
      * rewrite setNth_same in Hn
          by (apply nth_error_Some; rewrite Hf; discriminate).
        inversion Hn; subst. apply moveFish_inBounds.
      * rewrite setNth_other in Hn by exact Hne.
        apply (Hin j f); [lia | exact Hn].
Qed.

Lemma tick_inBounds lv p delta draws w w' :
  Flock.tick lv p delta draws w = Some w' -> Forall Flock.inBounds (fishData w').
Proof.
  unfold Flock.tick, Flock.fishLoop. intros H.
  apply fishLoopUpTo_inBounds in H. destruct H as [Hlen Hin].
  apply Forall_forall. intros f Hf.
  apply In_nth_error in Hf. destruct Hf as [j Hj].
  apply (Hin j f); [| exact Hj].
  rewrite <- Hlen. apply nth_error_Some. rewrite Hj. discriminate.
Qed.

(** ** Flock: one target per fish *)

Lemma removelast_length A (l : list A) :
  List.length (removelast l) = (List.length l - 1)%nat.
Proof.
  induction l as [| a [| b t] IH]; simpl in *; auto.
  rewrite IH. lia.
Qed.

Lemma removelast_Forall A (P : A -> Prop) (l : list A) :
  Forall P l -> Forall P (removelast l).
Proof.
  induction l as [| a [| b t] IH]; simpl; intros H; auto.
  inversion H; subst. constructor; auto.
Qed.

Lemma setNth_Forall A (P : A -> Prop) i v (l : list A) :
  P v -> Forall P l -> Forall P (JsArray.setNth i v l).
Proof.
  intros Hv. revert i; induction l as [| h t IH]; intros [| i] H; simpl; auto;
    inversion H; subst; constructor; auto.
Qed.

Lemma get_defined A (l : list (option A)) i :
  Forall (fun t => t <> None) l -> (i < List.length l)%nat ->
  exists v, JsArray.get l i = Some v.
Proof.
  intros HF Hi. unfold JsArray.get.
  destruct (nth_error l i) as [o |] eqn:E.
  - apply nth_error_In in E. rewrite Forall_forall in HF.
    specialize (HF _ E). destruct o as [v |]; [eauto | congruence].
  - apply nth_error_None in E. lia.
Qed.

Lemma removeFish_paired w : paired w -> paired (Flock.removeFish w).
Proof.
  intros [Hl HF]. unfold paired, Flock.removeFish, JsArray.pop; simpl. split.
  - rewrite !removelast_length. lia.
  - now apply removelast_Forall.
Qed.

Lemma removeExtra_paired fuel count w :
  paired w -> paired (Flock.removeExtra fuel count w).
Proof.
  revert w; induction fuel as [| fuel IH]; intros w H; simpl; auto.
  destruct (count <? _)%nat; auto. apply IH, removeFish_paired, H.
Qed.

Lemma addFish_paired p d w : paired w -> paired (Flock.addFish p d w).
Proof.
  intros [Hl HF]. unfold paired, Flock.addFish, Flock.pickNewTarget, JsArray.push; simpl.
  rewrite length_app; simpl.
  replace (List.length (fishData w) + 1 - 1)%nat with (List.length (targets w)) by lia.
  rewrite assign_at_end. split.
  - rewrite length_app; simpl. lia.
  - apply Forall_app. split; [exact HF |]. constructor; [discriminate | constructor].
Qed.

Lemma addNew_paired fuel p count draws w :
  paired w -> paired (Flock.addNew fuel p count draws w).
Proof.
  revert w; induction fuel as [| fuel IH]; intros w H; simpl; auto.
  destruct (_ <? count)%nat; auto. apply IH, addFish_paired, H.
Qed.

Lemma updateFishCount_paired p count draws w :
  paired w -> paired (Flock.updateFishCount p count draws w).
Proof.
  intros H. unfold Flock.updateFishCount.
  apply addNew_paired, removeExtra_paired, H.
Qed.

(** Both loops of [updateFishCount] end before their fuel does: the
    population is [count] afterwards. *)
Lemma removeExtra_length fuel count w :
  (List.length (fishData w) <= count + fuel)%nat ->
  (List.length (fishData (Flock.removeExtra fuel count w)) <= count)%nat /\
  ((List.length (fishData w) <= count)%nat -> Flock.removeExtra fuel count w = w).
Proof.
  revert w; induction fuel as [| fuel IH]; intros w H; simpl.
  - split; [lia | reflexivity].
  - destruct (count <? List.length (fishData w))%nat eqn:E.
    + apply Nat.ltb_lt in E. split; [| lia].
      apply IH. unfold Flock.removeFish, JsArray.pop; simpl.
      rewrite removelast_length. lia.
    + apply Nat.ltb_ge in E. split; [lia | reflexivity].
Qed.

Lemma addNew_length fuel p count draws w :
  (List.length (fishData w) <= count)%nat ->
  (count <= List.length (fishData w) + fuel)%nat ->
  List.length (fishData (Flock.addNew fuel p count draws w)) = count.
Proof.
  revert w; induction fuel as [| fuel IH]; intros w H1 H2; simpl.
  - lia.
  - destruct (List.length (fishData w) <? count)%nat eqn:E.
    + apply Nat.ltb_lt in E.
      apply IH; unfold Flock.addFish, JsArray.push; simpl; rewrite length_app; simpl; lia.
    + apply Nat.ltb_ge in E. lia.
Qed.

Lemma updateFishCount_length p count draws w :
  List.length (fishData (Flock.updateFishCount p count draws w)) = count.
Proof.
  unfold Flock.updateFishCount.
  destruct (@removeExtra_length (List.length (fishData w)) count w) as [H _]; [lia |].
  apply addNew_length; lia.
Qed.

Lemma computeForces_length lv p fs :
  List.length (Flock.computeForces lv p fs) = List.length fs.
Proof. apply mapiFrom_length. Qed.

Lemma fishStep_paired p delta draws w i w' :
  paired w -> Flock.fishStep p delta draws w i = Some w' -> paired w'.
Proof.
  intros [Hl HF] H. apply fishStep_inv in H.
  destruct H as (fish & target & Hf & Ht & Hfd & Htg).
  assert (Hi : (i < List.length (fishData w))%nat)
    by (apply nth_error_Some; rewrite Hf; discriminate).
  unfold paired. rewrite Hfd, setNth_length.
  destruct Htg as [-> | ->]; [split; assumption |].
  unfold Flock.pickNewTarget. rewrite assign_in_range by lia. split.
  - now rewrite setNth_length.
  - apply setNth_Forall; [discriminate | exact HF].
Qed.

Lemma fishStep_total p delta draws w i :
  paired w -> (i < List.length (fishData w))%nat ->
  exists w', Flock.fishStep p delta draws w i = Some w'.
Proof.
  intros [Hl HF] Hi. unfold Flock.fishStep.
  destruct (nth_error (fishData w) i) as [fish |] eqn:E.
  - destruct (@get_defined _ (targets w) i HF) as [v Hv]; [lia |].
    rewrite Hv. eauto.
  - apply nth_error_None in E. lia.
Qed.

Lemma fishLoopUpTo_paired p delta draws k w :
  paired w -> (k <= List.length (fishData w))%nat ->
  exists w', fishLoopUpTo p delta draws k w = Some w' /\ paired w' /\
             List.length (fishData w') = List.length (fishData w).
Proof.
  intros Hw. induction k as [| k IH]; intros Hk.
  - exists w. repeat split; auto; apply Hw.
  - destruct IH as (w1 & H1 & P1 & L1); [lia |].
    rewrite fishLoopUpTo_S, H1.
    destruct (@fishStep_total p delta draws w1 k P1) as [w2 H2]; [lia |].
    exists w2. split; [exact H2 |]. split; [eapply fishStep_paired; eauto |].
    apply fishStep_inv in H2. destruct H2 as (? & ? & _ & _ & -> & _).
    now rewrite setNth_length.
Qed.

(** In a world with one target per fish a tick raises no error and keeps
    the pairing. *)
Lemma tick_paired lv p delta draws w :
  paired w ->
  exists w', Flock.tick lv p delta draws w = Some w' /\ paired w'.
Proof.
  intros [Hl HF]. unfold Flock.tick, Flock.fishLoop.
  set (w0 := mkWorld (Flock.computeForces lv p (fishData w)) (targets w)).
  assert (P0 : paired w0).
  { unfold paired, w0; simpl. rewrite computeForces_length. auto. }
  destruct (@fishLoopUpTo_paired p delta draws (List.length (fishData w0)) w0 P0)
    as (w' & H & P & _); [lia |].
  exists w'. split; assumption.
Qed.

Lemma handle_paired e w w' : paired w -> Flock.handle e w = Some w' -> paired w'.
Proof.
  intros Hw. destruct e as [lv p delta draws | p count draws]; simpl; intros H.
  - destruct (@tick_paired lv p delta draws w Hw) as (w1 & H1 & P1). congruence.
  - inversion H; subst. now apply updateFishCount_paired.
Qed.

Lemma run_paired es w w' : paired w -> Flock.run es w = Some w' -> paired w'.
Proof.
  revert w; induction es as [| e es IH]; intros w Hw; simpl; intros H.
  - inversion H; subst; exact Hw.
  - destruct (Flock.handle e w) as [w1 |] eqn:E; [| discriminate].
    eapply IH; [| exact H]. eapply handle_paired; eauto.
Qed.

Lemma run_total es w : paired w -> exists w', Flock.run es w = Some w'.
Proof.
  revert w; induction es as [| e es IH]; intros w Hw; simpl; eauto.
  destruct e as [lv p delta draws | p count draws]; simpl.
  - destruct (@tick_paired lv p delta draws w Hw) as (w1 & -> & P1). now apply IH.
  - apply IH. now apply updateFishCount_paired.
Qed.

Lemma emptyWorld_paired : paired Flock.emptyWorld.
Proof. split; [reflexivity | constructor]. Qed.

(** C2.  After any history of ticks and population changes, from any world
    (any positions, any velocities), at the end of every tick the position of
    every fish lies within [-half, +half] on each of the three axes, for both
    variants of the loop; and when the history starts from a world that has a
    target for each fish, as the empty one does, the tick does end. *)
Theorem position_within_bounds_after_every_tick :
  forall (es : list Flock.Event) (w0 w1 : World)
         (lv : LoopVariant) (p : Params) (delta : R) (draws : nat -> TickDraws),
    Flock.run es w0 = Some w1 ->
    (forall w', Flock.tick lv p delta draws w1 = Some w' ->
                Forall Flock.inBounds (fishData w')) /\
    (paired w0 ->
     exists w', Flock.tick lv p delta draws w1 = Some w' /\
                Forall Flock.inBounds (fishData w')).
Proof.
  intros es w0 w1 lv p delta draws Hrun. split.
  - intros w' H. exact (tick_inBounds _ _ _ _ _ H).
  - intros P0.
    destruct (@tick_paired lv p delta draws w1 (run_paired _ P0 Hrun)) as (w' & H & _).
    exists w'. split; [exact H | exact (tick_inBounds _ _ _ _ _ H)].
Qed.

Lemma position_within_bounds_witness :
  exists w',
    Flock.tick SeparationOnly params (1 / 60)
      (fun _ => mkTickDraws (vec3 0.5 0.25 0.75) 0.5 (vec3 0.5 0.5 0.5))
      (Flock.updateFishCount params 2
         (fun _ => mkSpawnDraws 0.5 (vec3 0.25 0.5 0.75)) Flock.emptyWorld)
    = Some w' /\
    List.length (fishData w') = 2%nat /\
    Forall Flock.inBounds (fishData w').
Proof.
  set (sd := fun _ : nat => mkSpawnDraws 0.5 (vec3 0.25 0.5 0.75)).
  set (td := fun _ : nat => mkTickDraws (vec3 0.5 0.25 0.75) 0.5 (vec3 0.5 0.5 0.5)).
  set (w1 := Flock.updateFishCount params 2 sd Flock.emptyWorld).
  destruct (@position_within_bounds_after_every_tick
              [Flock.EvCount params 2 sd] Flock.emptyWorld w1
              SeparationOnly params (1 / 60) td eq_refl) as [_ T].
  destruct (T emptyWorld_paired) as (w' & H & B).
  exists w'. split; [exact H |]. split; [| exact B].
  unfold Flock.tick, Flock.fishLoop in H.
  apply fishLoopUpTo_inBounds in H. destruct H as [-> _]. reflexivity.
Defined.

(** C10.  In every world reached from the empty one by ticks and population
    changes, the targets array and the fish array have the same length, and
    [targets[i]] is defined for every index [i] of a fish.  (Adding a fish
    writes the target of its index, removing one pops both arrays, and a tick
    writes targets at indices of fish only.) *)
Theorem targets_paired_with_fish :
  forall (es : list Flock.Event) (w : World),
    Flock.run es Flock.emptyWorld = Some w ->
    List.length (targets w) = List.length (fishData w) /\
    forall i, (i < List.length (fishData w))%nat ->
              exists v, JsArray.get (targets w) i = Some v.
Proof.
  intros es w H.
  destruct (run_paired _ emptyWorld_paired H) as [Hl HF].
  split; [exact Hl |].
  intros i Hi. apply get_defined; [exact HF | lia].
Qed.

Lemma targets_paired_witness :
  let sd := fun _ : nat => mkSpawnDraws 0.5 (vec3 0.25 0.5 0.75) in
  let w := Flock.updateFishCount params 3 sd
             (Flock.updateFishCount params 5 sd Flock.emptyWorld) in
  List.length (fishData w) = 3%nat /\
  List.length (targets w) = List.length (fishData w) /\
  forall i, (i < List.length (fishData w))%nat ->
            exists v, JsArray.get (targets w) i = Some v.
Proof.
  intros sd w. split.
  - apply updateFishCount_length.
  - exact (@targets_paired_with_fish
             [Flock.EvCount params 5 sd; Flock.EvCount params 3 sd] w eq_refl).
Defined.

(** ** Flock: the cruise speed *)




Lemma length_x a : V3.length (vec3 a 0 0) = Rabs a.
Proof.
  unfold V3.length, V3.lengthSq; simpl.
  replace (a * a + 0 * 0 + 0 * 0) with (Rsqr a) by (unfold Rsqr; ring).
  apply sqrt_Rsqr_abs.
Qed.






Lemma get_assign_other A (l : list (option A)) i j v :
  i <> j -> JsArray.get (JsArray.assign l i v) j = JsArray.get l j.
Proof.
  unfold JsArray.get.
  revert l j; induction i as [| i IH]; intros [| h t] [| j] H; simpl;
    try congruence.
  - now destruct j.
  - assert (Hij : i <> j) by congruence.
    specialize (IH [] j Hij). rewrite IH. now destruct j.
  - apply IH. congruence.
Qed.







(** ** Flock: separation of two fish *)

Lemma distanceTo_sub a b : V3.distanceTo a b = V3.length (V3.sub a b).
Proof. reflexivity. Qed.

Lemma length_sub_sym a b : V3.length (V3.sub a b) = V3.length (V3.sub b a).
Proof.
  unfold V3.length. f_equal. unfold V3.lengthSq; simpl. ring.
Qed.

Lemma computeForces_pair p a b :
  Flock.computeForces SeparationOnly p [a; b] =
  [ Flock.setAcceleration a (Flock.separationStep p a 0 V3.zero 1 b);
    Flock.setAcceleration b (Flock.separationStep p b 1 V3.zero 0 a) ].
Proof. reflexivity. Qed.

Lemma separationStep_close p a i j b :
  i <> j ->
  0 < V3.distanceTo (position a) (position b) < separationDist p ->
  mass a <> 0 ->
  Flock.separationStep p a i V3.zero j b = pairAcceleration p a b.
Proof.
  intros Hij [Hd1 Hd2] Hm. rewrite distanceTo_sub in Hd1, Hd2.
  unfold Flock.separationStep, pairAcceleration.
  apply Nat.eqb_neq in Hij. rewrite Hij.
  rewrite (proj2 (Rltb_true _ _) Hd1), (proj2 (Rltb_true _ _) Hd2). simpl.
  rewrite normalize_nonzero.
  - apply vec3_eq; simpl; field; split; lra.
  - intros E. rewrite E, length_zero in Hd1. lra.
Qed.

Lemma pairAcceleration_length p a b :
  0 < V3.distanceTo (position a) (position b) < separationDist p ->
  0 < separationStrength p -> 0 < mass a ->
  V3.length (pairAcceleration p a b) =
  separationStrength p * (separationDist p - V3.distanceTo (position a) (position b))
  / mass a.
Proof.
  intros [Hd1 Hd2] Hk Hm. rewrite distanceTo_sub in *.
  unfold pairAcceleration. rewrite length_multiplyScalar.
  set (d := V3.length (V3.sub (position a) (position b))) in *.
  rewrite Rabs_pos_eq.
  - field; split; lra.
  - apply Rlt_le, Rdiv_lt_0_compat; nra.
Qed.

Lemma pairAcceleration_opposite p a b :
  V3.distanceTo (position a) (position b) <> 0 -> mass a <> 0 -> mass b <> 0 ->
  pairAcceleration p a b =
  V3.multiplyScalar (pairAcceleration p b a) (- (mass b / mass a)).
Proof.
  intros Hd Ha Hb. rewrite distanceTo_sub in Hd.
  unfold pairAcceleration. rewrite (length_sub_sym (position b) (position a)).
  apply vec3_eq; simpl; field; repeat split; assumption.
Qed.

Lemma sqrt_004 : sqrt (0.2 * 0.2 + 0 * 0 + 0 * 0) = 0.2.
Proof. apply sqrt_lem_1; lra. Qed.

(** C4, counterexample.  Two fish 0.2 apart, of masses [1.0 + 0 * 0.2] and
    [1.0 + 0.5 * 0.2], with [separationDist = 1] and
    [separationStrength = 2]: the accelerations have magnitudes [1.6] and
    [1.6 / 1.1]. *)
Lemma separation_magnitudes_differ :
  let a := mkFish (vec3 0.2 0 0) (vec3 2 0 0) V3.zero (1.0 + 0 * 0.2) in
  let b := mkFish (vec3 0 0 0) (vec3 2 0 0) V3.zero (1.0 + 0.5 * 0.2) in
  V3.distanceTo (position a) (position b) = 0.2 /\
  exists accA accB,
    map acceleration (Flock.computeForces SeparationOnly params [a; b]) = [accA; accB] /\
    V3.length accA = 1.6 /\
    V3.length accB = 1.6 / 1.1 /\
    V3.length accA <> V3.length accB.
Proof.
  intros a b.
  assert (D : V3.distanceTo (position a) (position b) = 0.2).
  { unfold V3.distanceTo, V3.distanceToSquared; simpl.
    replace (0.2 - 0) with 0.2 by lra. replace (0 - 0) with 0 by lra.
    apply sqrt_004. }
  assert (D' : V3.distanceTo (position b) (position a) = 0.2).
  { rewrite distanceTo_sub, length_sub_sym, <- distanceTo_sub. exact D. }
  split; [exact D |].
  assert (Hd : 0 < V3.distanceTo (position a) (position b) < separationDist params)
    by (rewrite D; simpl; lra).
  assert (Hd' : 0 < V3.distanceTo (position b) (position a) < separationDist params)
    by (rewrite D'; simpl; lra).
  assert (Hk : 0 < separationStrength params) by (simpl; lra).
  assert (Ha : 0 < mass a) by (simpl; lra).
  assert (Hb : 0 < mass b) by (simpl; lra).
  rewrite computeForces_pair. simpl map.
  rewrite (@separationStep_close params a 0 1 b) by (auto; try lia; lra).
  rewrite (@separationStep_close params b 1 0 a) by (auto; try lia; lra).
  exists (pairAcceleration params a b), (pairAcceleration params b a).
  split; [reflexivity |].
  rewrite (@pairAcceleration_length params a b Hd Hk Ha),
    (@pairAcceleration_length params b a Hd' Hk Hb), D, D'.
  simpl. repeat split; lra.
Qed.

(** C4 (amended).  Two fish 0.2 apart, with [separationDist = 1] and
    [separationStrength = 2]: after the force computation of a tick both
    accelerations are non-zero and opposite in direction, and the magnitude
    of each is [1.6] divided by the mass of its fish; the magnitudes are equal
    exactly when the masses are. *)
Theorem separation_of_two_fish :
  forall (p : Params) (a b : Fish),
    separationDist p = 1 -> separationStrength p = 2 ->
    V3.distanceTo (position a) (position b) = 0.2 ->
    0 < mass a -> 0 < mass b ->
    exists accA accB,
      map acceleration (Flock.computeForces SeparationOnly p [a; b]) = [accA; accB] /\
      accA <> V3.zero /\ accB <> V3.zero /\
      accA = V3.multiplyScalar accB (- (mass b / mass a)) /\
      V3.length accA = 1.6 / mass a /\
      V3.length accB = 1.6 / mass b /\
      (V3.length accA = V3.length accB <-> mass a = mass b).
Proof.
  intros p a b Hsd Hk D Ha Hb.
  assert (D' : V3.distanceTo (position b) (position a) = 0.2).
  { rewrite distanceTo_sub, length_sub_sym, <- distanceTo_sub. exact D. }
  assert (Hd : 0 < V3.distanceTo (position a) (position b) < separationDist p)
    by (rewrite D, Hsd; lra).
  assert (Hd' : 0 < V3.distanceTo (position b) (position a) < separationDist p)
    by (rewrite D', Hsd; lra).
  assert (Hk' : 0 < separationStrength p) by (rewrite Hk; lra).
  assert (Ha' : mass a <> 0) by lra.
  assert (Hb' : mass b <> 0) by lra.
  rewrite computeForces_pair. simpl map.
  rewrite (@separationStep_close p a 0 1 b) by (auto; lia).
  rewrite (@separationStep_close p b 1 0 a) by (auto; lia).
  exists (pairAcceleration p a b), (pairAcceleration p b a).
  assert (LA : V3.length (pairAcceleration p a b) = 1.6 / mass a).
  { rewrite (@pairAcceleration_length p a b Hd Hk' Ha), D, Hsd, Hk.
    replace (2 * (1 - 0.2)) with 1.6 by lra. reflexivity. }
  assert (LB : V3.length (pairAcceleration p b a) = 1.6 / mass b).
  { rewrite (@pairAcceleration_length p b a Hd' Hk' Hb), D', Hsd, Hk.
    replace (2 * (1 - 0.2)) with 1.6 by lra. reflexivity. }
  assert (PA : 0 < 1.6 / mass a) by (apply Rdiv_lt_0_compat; lra).
  assert (PB : 0 < 1.6 / mass b) by (apply Rdiv_lt_0_compat; lra).
  split; [reflexivity |].
  split; [intros E; rewrite E, length_zero in LA; lra |].
  split; [intros E; rewrite E, length_zero in LB; lra |].
  split; [apply pairAcceleration_opposite; try lra; rewrite D; lra |].
  split; [exact LA |]. split; [exact LB |].
  rewrite LA, LB. split.
  - intros E.
    assert (Ei : / mass a = / mass b) by (unfold Rdiv in E; lra).
    rewrite <- (Rinv_inv (mass a)), Ei. apply Rinv_inv.
  - intros ->. reflexivity.
Qed.

Lemma separation_of_two_fish_witness :
  let a := mkFish (vec3 0.2 0 0) (vec3 2 0 0) V3.zero (1.0 + 0 * 0.2) in
  let b := mkFish (vec3 0 0 0) (vec3 2 0 0) V3.zero (1.0 + 0.5 * 0.2) in
  exists accA accB,
    map acceleration (Flock.computeForces SeparationOnly params [a; b]) = [accA; accB] /\
    accA <> V3.zero /\ accB <> V3.zero /\
    accA = V3.multiplyScalar accB (- (mass b / mass a)) /\
    V3.length accA = 1.6 / mass a /\
    V3.length accB = 1.6 / mass b /\
    (V3.length accA = V3.length accB <-> mass a = mass b).
Proof.
  intros a b.
  apply (@separation_of_two_fish params a b).
  - simpl; lra.
  - simpl; lra.
  - unfold V3.distanceTo, V3.distanceToSquared; simpl.
    replace (0.2 - 0) with 0.2 by lra. replace (0 - 0) with 0 by lra.
    apply sqrt_004.
  - simpl; lra.
  - simpl; lra.
Defined.

Unset Implicit Arguments.

(** ** Water: reads and writes of the grid *)

Lemma setNth_nth A i j (v d : A) l :
  nth j (JsArray.setNth i v l) d =
  if (i =? j)%nat && (j <? List.length l)%nat then v else nth j l d.
Proof.
  revert i j; induction l as [| h t IH]; intros [| i] [| j]; simpl; auto;
    try (destruct (i =? j)%nat; reflexivity).
Qed.

Lemma row_length (a : list (list R)) n x :
  Forall (fun row => List.length row = n) a -> (x < List.length a)%nat ->
  List.length (nth x a []) = n.
Proof.
  intros HF Hx. rewrite Forall_forall in HF. apply HF, nth_In, Hx.
Qed.

Lemma write_read_same a n x z v :
  Forall (fun row => List.length row = n) a ->
  (x < List.length a)%nat -> (z < n)%nat ->
  Water.read (Water.write a x z v) x z = v.
Proof.
  intros HF Hx Hz. unfold Water.read, Water.write.
  rewrite setNth_nth, Nat.eqb_refl. apply Nat.ltb_lt in Hx as Hx'. rewrite Hx'. simpl.
  rewrite setNth_nth, Nat.eqb_refl, (row_length _ _ _ HF Hx).
  apply Nat.ltb_lt in Hz. now rewrite Hz.
Qed.

Lemma write_read_other a x z v x' z' :
  (x', z') <> (x, z) ->
  Water.read (Water.write a x z v) x' z' = Water.read a x' z'.
Proof.
  intros Hne. unfold Water.read, Water.write.
  rewrite setNth_nth.
  destruct (Nat.eqb_spec x x') as [-> | Hx]; simpl; [| reflexivity].
  destruct (x' <? List.length a)%nat; [| reflexivity].
  rewrite setNth_nth.
  destruct (Nat.eqb_spec z z') as [-> | Hz]; simpl; [congruence | reflexivity].
Qed.

Lemma setNth_beyond A i (v : A) l :
  (List.length l <= i)%nat -> JsArray.setNth i v l = l.
Proof.
  revert i; induction l as [| h t IH]; intros [| i] H; simpl in *; auto; try lia.
  f_equal. apply IH. lia.
Qed.

Lemma write_dims a n x z v :
  Forall (fun row => List.length row = n) a ->
  List.length (Water.write a x z v) = List.length a /\
  Forall (fun row => List.length row = n) (Water.write a x z v).
Proof.
  intros HF. unfold Water.write. split; [apply setNth_length |].
  destruct (Nat.lt_ge_cases x (List.length a)) as [Hx | Hx].
  - apply setNth_Forall; [| exact HF].
    rewrite setNth_length. apply (row_length _ _ _ HF Hx).
  - rewrite setNth_beyond by exact Hx. exact HF.
Qed.

(** ** Water: what a sweep of the interior cells computes *)

Lemma updateWaterPhysics_sweep delta g :
  Water.updateWaterPhysics delta g = sweepRows (Water.cellUpdate delta) 62 62 g.
Proof.
  unfold Water.updateWaterPhysics, Water.forRange, sweepRows, sweepRow, Water.cellStep.
  change (Water.WATER_RES_X - 1 - 1)%nat with 62%nat.
  change (Water.WATER_RES_Z - 1 - 1)%nat with 62%nat.
  reflexivity.
Qed.

Lemma synchronousStep_sweep delta g :
  Water.synchronousStep delta g =
  sweepRows (fun acc x z => Water.syncCellUpdate delta g acc x z) 62 62 g.
Proof.
  unfold Water.synchronousStep, Water.forRange, sweepRows, sweepRow.
  change (Water.WATER_RES_X - 1 - 1)%nat with 62%nat.
  change (Water.WATER_RES_Z - 1 - 1)%nat with 62%nat.
  reflexivity.
Qed.

Lemma writeCell_ok g x z hv : gridOk g -> gridOk (Water.writeCell g x z hv).
Proof.
  intros (H1 & H2 & H3 & H4). unfold gridOk, Water.writeCell; simpl.
  destruct (write_dims (Water.waterHeights g) Water.WATER_RES_Z x z (fst hv) H2) as [L1 F1].
  destruct (write_dims (Water.waterVelocities g) Water.WATER_RES_Z x z (snd hv) H4) as [L2 F2].
  repeat split; try assumption; congruence.
Qed.

Lemma writeCell_same g x z hv :
  gridOk g -> (x < 64)%nat -> (z < 64)%nat ->
  cellOf (Water.writeCell g x z hv) x z = hv.
Proof.
  intros (H1 & H2 & H3 & H4) Hx Hz.
  unfold cellOf, hAt, vAt, Water.writeCell; simpl.
  rewrite (write_read_same _ Water.WATER_RES_Z), (write_read_same _ Water.WATER_RES_Z);
    try assumption; try (rewrite ?H1, ?H3; exact Hx).
  now destruct hv.
Qed.

Lemma writeCell_other g x z hv x' z' :
  (x', z') <> (x, z) -> cellOf (Water.writeCell g x z hv) x' z' = cellOf g x' z'.
Proof.
  intros H. unfold cellOf, hAt, vAt, Water.writeCell; simpl.
  now rewrite !write_read_other by exact H.
Qed.

Lemma sweepRow_S f x k g :
  sweepRow f x (S k) g =
  Water.writeCell (sweepRow f x k g) x (S k) (f (sweepRow f x k g) x (S k)).
Proof. unfold sweepRow. rewrite seq_S, fold_left_app. reflexivity. Qed.

Lemma sweepRows_S f nz m g :
  sweepRows f nz (S m) g = sweepRow f (S m) nz (sweepRows f nz m g).
Proof. unfold sweepRows. rewrite seq_S, fold_left_app. reflexivity. Qed.

(** One row.  Outside the cells of the row the grid is untouched; a cell of
    the row holds what [f] computed from a grid [gm] that has the final values
    at the cells of the row before it and the initial values elsewhere. *)
Lemma sweepRow_spec f x k g :
  gridOk g -> (x < 64)%nat -> (k < 64)%nat ->
  gridOk (sweepRow f x k g) /\
  (forall x' z', ~ (x' = x /\ 1 <= z' <= k)%nat ->
     cellOf (sweepRow f x k g) x' z' = cellOf g x' z') /\
  (forall z, (1 <= z <= k)%nat ->
     exists gm, gridOk gm /\
       cellOf (sweepRow f x k g) x z = f gm x z /\
       (forall x' z', (x' = x /\ 1 <= z' < z)%nat ->
          cellOf gm x' z' = cellOf (sweepRow f x k g) x' z') /\
       (forall x' z', ~ (x' = x /\ 1 <= z' < z)%nat ->
          cellOf gm x' z' = cellOf g x' z')).
Proof.
  intros Hg Hx. induction k as [| k IH]; intros Hk.
  - split; [exact Hg |]. split; [intros; reflexivity |]. intros z Hz; lia.
  - destruct IH as (Ok & Out & In); [lia |].
    rewrite sweepRow_S. set (g' := sweepRow f x k g) in *.
    split; [apply writeCell_ok, Ok |]. split.
    + intros x' z' Hn. rewrite writeCell_other.
      * apply Out. lia.
      * intros E; inversion E; subst. lia.
    + intros z Hz. destruct (Nat.eq_dec z (S k)) as [-> | Hne].
      * exists g'. split; [exact Ok |]. split; [| split].
        -- rewrite writeCell_same; auto.
        -- intros x' z' Hc. rewrite writeCell_other; [reflexivity |].
           intros E; inversion E; subst. lia.
        -- intros x' z' Hc. apply Out. lia.
      * destruct (In z) as (gm & Okm & Hcell & Hbefore & Helse); [lia |].
        exists gm. split; [exact Okm |]. split; [| split].
        -- rewrite writeCell_other; [exact Hcell |].
           intros E; inversion E; subst. lia.
        -- intros x' z' Hc. rewrite writeCell_other; [apply Hbefore, Hc |].
           intros E; inversion E; subst. lia.
        -- exact Helse.
Qed.

(** All rows.  A swept cell holds what [f] computed from a grid [gm] that has
    the final values at the cells swept before it and the initial values
    elsewhere. *)
Lemma sweepRows_spec f m g :
  gridOk g -> (m <= 62)%nat ->
  gridOk (sweepRows f 62 m g) /\
  (forall x' z', ~ (1 <= x' <= m /\ 1 <= z' <= 62)%nat ->
     cellOf (sweepRows f 62 m g) x' z' = cellOf g x' z') /\
  (forall x z, (1 <= x <= m)%nat -> (1 <= z <= 62)%nat ->
     exists gm, gridOk gm /\
       cellOf (sweepRows f 62 m g) x z = f gm x z /\
       (forall x' z', sweptBefore x' z' x z ->
          cellOf gm x' z' = cellOf (sweepRows f 62 m g) x' z') /\
       (forall x' z', ~ sweptBefore x' z' x z ->
          cellOf gm x' z' = cellOf g x' z')).
Proof.
  intros Hg. induction m as [| m IH]; intros Hm.
  - split; [exact Hg |]. split; [intros; reflexivity |]. intros x z Hx; lia.
  - destruct IH as (Ok & Out & In); [lia |].
    rewrite sweepRows_S. set (g' := sweepRows f 62 m g) in *.
    destruct (sweepRow_spec f (S m) 62 g' Ok) as (Ok2 & Out2 & In2); [lia | lia |].
    set (g'' := sweepRow f (S m) 62 g') in *.
    split; [exact Ok2 |]. split.
    + intros x' z' Hn. rewrite Out2 by lia. apply Out. lia.
    + intros x z Hx Hz. destruct (Nat.eq_dec x (S m)) as [-> | Hne].
      * destruct (In2 z Hz) as (gm & Okm & Hcell & Hbefore & Helse).
        exists gm. split; [exact Okm |]. split; [exact Hcell |]. split.
        -- intros x' z' (H1 & H2 & H3).
           destruct (Nat.eq_dec x' (S m)) as [-> | Hx'].
           ++ apply Hbefore. lia.
           ++ rewrite Helse by lia. symmetry. apply Out2. lia.
        -- intros x' z' Hn. unfold sweptBefore in Hn.
           rewrite Helse by lia. apply Out. lia.
      * destruct (In x) with (z := z) as (gm & Okm & Hcell & Hbefore & Helse);
          [lia | exact Hz |].
        exists gm. split; [exact Okm |]. split; [| split].
        -- rewrite Out2 by lia. exact Hcell.
        -- intros x' z' Hb. rewrite Hbefore by exact Hb.
           symmetry. apply Out2. unfold sweptBefore in Hb. lia.
        -- exact Helse.
Qed.

Lemma cellOf_inv a b x z x' z' :
  cellOf a x z = cellOf b x' z' -> hAt a x z = hAt b x' z' /\ vAt a x z = vAt b x' z'.
Proof. unfold cellOf. intros H; inversion H; auto. Qed.

Lemma cellOf_inv' a x z hv :
  cellOf a x z = hv -> hAt a x z = fst hv /\ vAt a x z = snd hv.
Proof. unfold cellOf. intros <-; auto. Qed.

Lemma updateWaterPhysics_ok delta g : gridOk g -> gridOk (Water.updateWaterPhysics delta g).
Proof.
  intros Hg. rewrite updateWaterPhysics_sweep.
  apply (sweepRows_spec (Water.cellUpdate delta) 62 g Hg (le_n 62)).
Qed.

(** The cells of the outermost ring are never written. *)
Lemma updateWaterPhysics_edge delta g x z :
  gridOk g -> ~ (1 <= x <= 62 /\ 1 <= z <= 62)%nat ->
  cellOf (Water.updateWaterPhysics delta g) x z = cellOf g x z.
Proof.
  intros Hg Hn. rewrite updateWaterPhysics_sweep.
  apply (sweepRows_spec (Water.cellUpdate delta) 62 g Hg (le_n 62)), Hn.
Qed.

Lemma cellUpdate_eq delta g x z :
  Water.cellUpdate delta g x z =
  let v2 :=
    (vAt g x z +
     ((hAt g (x - 1) z + hAt g (x + 1) z + hAt g x (z - 1) + hAt g x (z + 1)) / 4
      - hAt g x z) * Water.WAVE_SPEED * delta) * Water.DAMPING in
  (hAt g x z + v2 * delta, v2).
Proof. reflexivity. Qed.

Lemma syncCellUpdate_eq delta old g x z :
  Water.syncCellUpdate delta old g x z =
  let v2 :=
    (vAt g x z +
     ((hAt old (x - 1) z + hAt old (x + 1) z + hAt old x (z - 1) + hAt old x (z + 1)) / 4
      - hAt old x z) * Water.WAVE_SPEED * delta) * Water.DAMPING in
  (hAt old x z + v2 * delta, v2).
Proof. reflexivity. Qed.

(** An interior cell after the in-place step: its Laplacian is made of the
    heights already updated in this tick at [(x-1, z)] and [(x, z-1)], and of
    the heights of the previous tick at [(x+1, z)], [(x, z+1)] and [(x, z)]. *)
Lemma updateWaterPhysics_interior delta g x z :
  gridOk g -> (1 <= x <= 62)%nat -> (1 <= z <= 62)%nat ->
  let g' := Water.updateWaterPhysics delta g in
  vAt g' x z =
    (vAt g x z +
     ((hAt g' (x - 1) z + hAt g (x + 1) z + hAt g' x (z - 1) + hAt g x (z + 1)) / 4
      - hAt g x z) * Water.WAVE_SPEED * delta) * Water.DAMPING /\
  hAt g' x z = hAt g x z + vAt g' x z * delta.
Proof.
  intros Hg Hx Hz g'.
  assert (Hedge : forall x' z', ~ (1 <= x' <= 62 /\ 1 <= z' <= 62)%nat ->
                                cellOf g' x' z' = cellOf g x' z')
    by (intros; now apply updateWaterPhysics_edge).
  destruct (sweepRows_spec (Water.cellUpdate delta) 62 g Hg (le_n 62)) as (_ & _ & In).
  destruct (In x z) as (gm & _ & Hcell & Hbefore & Helse); [lia | lia |].
  rewrite <- updateWaterPhysics_sweep in Hcell, Hbefore. fold g' in Hcell, Hbefore.
  assert (Hnew : forall x' z', (x' < x \/ (x' = x /\ z' < z))%nat ->
                              hAt gm x' z' = hAt g' x' z').
  { intros x' z' Hlt.
    destruct (Nat.le_gt_cases 1 x') as [H1 | H1];
      [destruct (Nat.le_gt_cases 1 z') as [H2 | H2];
       [destruct (Nat.le_gt_cases z' 62) as [H3 | H3] |] |];
      try (apply cellOf_inv, Hbefore; unfold sweptBefore; lia);
      (assert (E1 : cellOf gm x' z' = cellOf g x' z')
         by (apply Helse; unfold sweptBefore; lia);
       assert (E2 : cellOf g' x' z' = cellOf g x' z') by (apply Hedge; lia);
       apply cellOf_inv; congruence). }
  assert (Hold : forall x' z', ~ (x' < x \/ (x' = x /\ z' < z))%nat ->
                              hAt gm x' z' = hAt g x' z' /\ vAt gm x' z' = vAt g x' z').
  { intros x' z' Hge. apply cellOf_inv, Helse. unfold sweptBefore. lia. }
  rewrite cellUpdate_eq in Hcell. cbv zeta in Hcell.
  apply cellOf_inv' in Hcell. destruct Hcell as [Hh Hv].
  rewrite (Hnew (x - 1)%nat z), (Hnew x (z - 1)%nat) in Hh, Hv by lia.
  destruct (Hold (x + 1)%nat z) as [E1 _]; [lia |].
  destruct (Hold x (z + 1)%nat) as [E2 _]; [lia |].
  destruct (Hold x z) as [E3 E4]; [lia |].
  rewrite E1, E2, E3, E4 in Hh, Hv.
  split; [exact Hv |]. rewrite Hv. exact Hh.
Qed.

(** An interior cell after the synchronous step. *)
Lemma synchronousStep_interior delta g x z :
  gridOk g -> (1 <= x <= 62)%nat -> (1 <= z <= 62)%nat ->
  let g' := Water.synchronousStep delta g in
  vAt g' x z =
    (vAt g x z +
     ((hAt g (x - 1) z + hAt g (x + 1) z + hAt g x (z - 1) + hAt g x (z + 1)) / 4
      - hAt g x z) * Water.WAVE_SPEED * delta) * Water.DAMPING /\
  hAt g' x z = hAt g x z + vAt g' x z * delta.
Proof.
  intros Hg Hx Hz g'.
  destruct (sweepRows_spec (fun acc x z => Water.syncCellUpdate delta g acc x z)
              62 g Hg (le_n 62)) as (_ & _ & In).
  destruct (In x z) as (gm & _ & Hcell & _ & Helse); [lia | lia |].
  rewrite <- synchronousStep_sweep in Hcell. fold g' in Hcell.
  rewrite syncCellUpdate_eq in Hcell. cbv zeta in Hcell.
  apply cellOf_inv' in Hcell. destruct Hcell as [Hh Hv]. simpl fst in Hh. simpl snd in Hv.
  destruct (cellOf_inv _ _ _ _ _ _ (Helse x z ltac:(unfold sweptBefore; lia))) as [_ E].
  rewrite E in Hh, Hv.
  split; [exact Hv |]. rewrite Hv. exact Hh.
Qed.

(** ** Water: one tick after a single impulse *)

Section SingleImpulse.

(** A grid at rest but for the velocity [1] of the interior cell
    [(ix, iz)], and a positive time step. *)
Variables (ix iz : nat) (delta : R) (g0 : Water.Grid).
Hypothesis interior : (1 <= ix <= 62 /\ 1 <= iz <= 62)%nat.
Hypothesis delta_pos : 0 < delta.
Hypothesis g0_ok : gridOk g0.
Hypothesis g0_heights : forall x z, hAt g0 x z = 0.
Hypothesis g0_velocities :
  forall x z, vAt g0 x z = if ((x =? ix) && (z =? iz))%nat then 1 else 0.

Let g1 := Water.updateWaterPhysics delta g0.

Lemma impulse_edge x z :
  ~ (1 <= x <= 62 /\ 1 <= z <= 62)%nat -> hAt g1 x z = 0.
Proof using All.
  intros H. unfold g1.
  destruct (cellOf_inv _ _ _ _ _ _ (updateWaterPhysics_edge delta g0 x z g0_ok H)) as [-> _].
  apply g0_heights.
Qed.

Lemma impulse_interior x z :
  (1 <= x <= 62)%nat -> (1 <= z <= 62)%nat ->
  hAt g1 x z =
  ((if ((x =? ix) && (z =? iz))%nat then 1 else 0) +
   (hAt g1 (x - 1) z + hAt g1 x (z - 1)) / 4 * Water.WAVE_SPEED * delta)
  * Water.DAMPING * delta.
Proof using All.
  intros Hx Hz.
  destruct (updateWaterPhysics_interior delta g0 x z g0_ok Hx Hz) as [Hv Hh].
  fold g1 in Hv, Hh. rewrite Hh, Hv, !g0_heights, g0_velocities. lra.
Qed.

(** Cells swept before the disturbed one on either axis stay at rest. *)
Lemma impulse_zero n :
  forall x z, (x + z <= n)%nat -> (x < ix \/ z < iz)%nat -> hAt g1 x z = 0.
Proof using All.
  induction n as [| n IH]; intros x z Hn Hlt.
  - apply impulse_edge. lia.
  - destruct (Nat.le_gt_cases 1 x) as [H1 | H1]; [| apply impulse_edge; lia].
    destruct (Nat.le_gt_cases x 62) as [H2 | H2]; [| apply impulse_edge; lia].
    destruct (Nat.le_gt_cases 1 z) as [H3 | H3]; [| apply impulse_edge; lia].
    destruct (Nat.le_gt_cases z 62) as [H4 | H4]; [| apply impulse_edge; lia].
    rewrite impulse_interior by lia.
    rewrite (IH (x - 1)%nat z), (IH x (z - 1)%nat) by lia.
    replace ((x =? ix) && (z =? iz))%nat with false.
    + lra.
    + symmetry. apply andb_false_iff.
      destruct Hlt; [left | right]; apply Nat.eqb_neq; lia.
Qed.

(** No height is negative, and the interior cells at or after the disturbed
    one on both axes are raised. *)
Lemma impulse_sign n :
  forall x z, (x + z <= n)%nat ->
    0 <= hAt g1 x z /\
    ((ix <= x <= 62)%nat -> (iz <= z <= 62)%nat -> 0 < hAt g1 x z).
Proof using All.
  assert (HW : Water.WAVE_SPEED = 2) by (unfold Water.WAVE_SPEED; lra).
  assert (HD : Water.DAMPING = 0.995) by reflexivity.
  induction n as [| n IH]; intros x z Hn.
  - split; [rewrite impulse_edge by lia; lra | intros; lia].
  - destruct (Nat.le_gt_cases 1 x) as [H1 | H1];
      [| split; [rewrite impulse_edge by lia; lra | intros; lia]].
    destruct (Nat.le_gt_cases x 62) as [H2 | H2];
      [| split; [rewrite impulse_edge by lia; lra | intros; lia]].
    destruct (Nat.le_gt_cases 1 z) as [H3 | H3];
      [| split; [rewrite impulse_edge by lia; lra | intros; lia]].
    destruct (Nat.le_gt_cases z 62) as [H4 | H4];
      [| split; [rewrite impulse_edge by lia; lra | intros; lia]].
    rewrite impulse_interior by lia.
    destruct (IH (x - 1)%nat z) as [A1 A2]; [lia |].
    destruct (IH x (z - 1)%nat) as [B1 B2]; [lia |].
    set (a := hAt g1 (x - 1) z) in *. set (b := hAt g1 x (z - 1)) in *.
    rewrite HW, HD.
    assert (Hab : 0 <= (a + b) / 4 * 2 * delta) by nra.
    split.
    + destruct ((x =? ix) && (z =? iz))%nat; nra.
    + intros Qx Qz.
      destruct ((x =? ix) && (z =? iz))%nat eqn:E; [nra |].
      apply andb_false_iff in E.
      assert (Hpos : 0 < a \/ 0 < b).
      { destruct E as [E | E]; apply Nat.eqb_neq in E.
        - left. apply A2; lia.
        - right. apply B2; lia. }
      assert (Hab' : 0 < (a + b) / 4 * 2 * delta) by (destruct Hpos; nra).
      nra.
Qed.

(** After the tick, the cells whose height has changed are exactly the
    interior cells at or after the disturbed one on both axes. *)
Lemma impulse_spread x z :
  hAt g1 x z <> 0 <-> (ix <= x <= 62 /\ iz <= z <= 62)%nat.
Proof using All.
  split.
  - intros Hne.
    destruct (Nat.le_gt_cases ix x) as [H1 | H1];
      [| exfalso; apply Hne, (impulse_zero (x + z)); lia].
    destruct (Nat.le_gt_cases iz z) as [H2 | H2];
      [| exfalso; apply Hne, (impulse_zero (x + z)); lia].
    destruct (Nat.le_gt_cases x 62) as [H3 | H3];
      [| exfalso; apply Hne, impulse_edge; lia].
    destruct (Nat.le_gt_cases z 62) as [H4 | H4];
      [| exfalso; apply Hne, impulse_edge; lia].
    lia.
  - intros [Hx Hz].
    destruct (impulse_sign (x + z) x z (le_n _)) as [_ Hp].
    specialize (Hp Hx Hz). lra.
Qed.

(** The height of a cell at or after the disturbed one is at least the
    impulse passed on once for each step that separates the two cells: a
    step multiplies by [DAMPING * delta * delta / 2]. *)
Lemma impulse_lower n :
  forall i j, (i + j = n)%nat -> (ix + i <= 62)%nat -> (iz + j <= 62)%nat ->
    Water.DAMPING * delta * (Water.DAMPING * delta * delta / 2) ^ n
    <= hAt g1 (ix + i) (iz + j).
Proof using All.
  assert (HW : Water.WAVE_SPEED = 2) by (unfold Water.WAVE_SPEED; lra).
  assert (HD : Water.DAMPING = 0.995) by reflexivity.
  assert (Step : forall a b low : R, 0 <= a -> 0 <= b -> low <= a + b ->
            low * (Water.DAMPING * delta * delta / 2)
            <= (0 + (a + b) / 4 * Water.WAVE_SPEED * delta) * Water.DAMPING * delta).
  { intros a b low A B L. rewrite HW, HD.
    replace ((0 + (a + b) / 4 * 2 * delta) * 0.995 * delta)
      with ((a + b) * (0.995 * delta * delta / 2)) by field.
    apply Rmult_le_compat_r; [nra | exact L]. }
  assert (Start : forall a b : R, 0 <= a -> 0 <= b ->
            Water.DAMPING * delta * 1
            <= (1 + (a + b) / 4 * Water.WAVE_SPEED * delta) * Water.DAMPING * delta).
  { intros a b A B. rewrite HW, HD.
    assert (Hab : 0 <= (a + b) / 4 * 2 * delta) by nra.
    nra. }
  induction n as [| n IH]; intros i j Hn Hx Hz.
  - assert (i = 0 /\ j = 0)%nat as [-> ->] by lia.
    rewrite !Nat.add_0_r, impulse_interior by lia.
    rewrite !Nat.eqb_refl, pow_O.
    apply Start.
    + apply (impulse_sign (ix - 1 + iz) (ix - 1) iz (le_n _)).
    + apply (impulse_sign (ix + (iz - 1)) ix (iz - 1) (le_n _)).
  - rewrite impulse_interior by lia.
    replace ((ix + i =? ix) && (iz + j =? iz))%nat with false
      by (symmetry; apply andb_false_iff;
          destruct i; [right | left]; apply Nat.eqb_neq; lia).
    rewrite <- tech_pow_Rmult.
    rewrite (Rmult_comm (Water.DAMPING * delta * delta / 2)), <- Rmult_assoc.
    apply Step.
    + apply (impulse_sign (ix + i - 1 + (iz + j)) (ix + i - 1) (iz + j) (le_n _)).
    + apply (impulse_sign (ix + i + (iz + j - 1)) (ix + i) (iz + j - 1) (le_n _)).
    + destruct i as [| i'].
      * apply Rle_trans with (hAt g1 (ix + 0) (iz + j - 1)).
        -- replace (iz + j - 1)%nat with (iz + (j - 1))%nat by lia.
           apply IH; lia.
        -- pose proof (proj1 (impulse_sign (ix + 0 - 1 + (iz + j)) (ix + 0 - 1) (iz + j)
                                (le_n _))). lra.
      * apply Rle_trans with (hAt g1 (ix + S i' - 1) (iz + j)).
        -- replace (ix + S i' - 1)%nat with (ix + i')%nat by lia.
           apply IH; lia.
        -- pose proof (proj1 (impulse_sign (ix + S i' + (iz + j - 1)) (ix + S i') (iz + j - 1)
                                (le_n _))). lra.
Qed.

End SingleImpulse.

(** ** Water: the grid at rest and a disturbance *)

Lemma read_repeat n m x z : Water.read (repeat (repeat 0 m) n) x z = 0.
Proof.
  unfold Water.read.
  destruct (Nat.lt_ge_cases x n) as [Hx | Hx].
  - rewrite nth_repeat_lt by exact Hx.
    destruct (Nat.lt_ge_cases z m) as [Hz | Hz].
    + now rewrite nth_repeat_lt.
    + apply nth_overflow. now rewrite repeat_length.
  - rewrite (@nth_overflow _ (repeat (repeat 0 m) n) x []) by (now rewrite repeat_length).
    now destruct z.
Qed.

Lemma initialGrid_ok : gridOk Water.initialGrid.
Proof.
  unfold gridOk, Water.initialGrid.
  cbn [Water.waterHeights Water.waterVelocities].
  repeat split; try apply repeat_length;
    apply Forall_forall; intros row Hr; apply repeat_spec in Hr; subst;
    apply repeat_length.
Qed.

Lemma disturbWater_cell wx wz strength g ix iz :
  Water.gridIndex wx Tank.aqWidth Water.WATER_RES_X = Z.of_nat ix ->
  Water.gridIndex wz Tank.aqDepth Water.WATER_RES_Z = Z.of_nat iz ->
  (1 <= ix <= 62)%nat -> (1 <= iz <= 62)%nat ->
  Water.disturbWater wx wz strength g =
  Water.mkGrid (Water.waterHeights g)
    (Water.write (Water.waterVelocities g) ix iz
       (Water.read (Water.waterVelocities g) ix iz + strength)).
Proof.
  intros Hx Hz Bx Bz. unfold Water.disturbWater. rewrite Hx, Hz, !Nat2Z.id.
  replace ((0 <? Z.of_nat ix) && (Z.of_nat ix <? Z.of_nat Water.WATER_RES_X - 1) &&
           (0 <? Z.of_nat iz) && (Z.of_nat iz <? Z.of_nat Water.WATER_RES_Z - 1))%Z
    with true; [reflexivity |].
  symmetry. unfold Water.WATER_RES_X, Water.WATER_RES_Z.
  repeat (apply andb_true_iff; split); apply Z.ltb_lt; lia.
Qed.

(** The grid at rest after an impulse of [1] at the cell [(ix, iz)]. *)
Lemma impulse_grid wx wz ix iz :
  Water.gridIndex wx Tank.aqWidth Water.WATER_RES_X = Z.of_nat ix ->
  Water.gridIndex wz Tank.aqDepth Water.WATER_RES_Z = Z.of_nat iz ->
  (1 <= ix <= 62)%nat -> (1 <= iz <= 62)%nat ->
  let g0 := Water.disturbWater wx wz 1 Water.initialGrid in
  gridOk g0 /\
  (forall x z, hAt g0 x z = 0) /\
  (forall x z, vAt g0 x z = if ((x =? ix) && (z =? iz))%nat then 1 else 0).
Proof.
  intros Hx Hz Bx Bz g0. unfold g0.
  rewrite (disturbWater_cell wx wz 1 Water.initialGrid ix iz Hx Hz Bx Bz).
  destruct initialGrid_ok as (H1 & H2 & H3 & H4).
  split; [| split].
  - unfold gridOk, Water.initialGrid in *.
    cbn [Water.waterHeights Water.waterVelocities] in *.
    destruct (write_dims (repeat (repeat 0 Water.WATER_RES_Z) Water.WATER_RES_X)
                Water.WATER_RES_Z ix iz
                (Water.read (repeat (repeat 0 Water.WATER_RES_Z) Water.WATER_RES_X) ix iz + 1)
                H4) as [L F].
    split; [exact H1 |]. split; [exact H2 |]. split; [| exact F].
    rewrite L. exact H3.
  - intros x z. unfold hAt, Water.initialGrid.
    cbn [Water.waterHeights Water.waterVelocities]. apply read_repeat.
  - intros x z. unfold vAt, Water.initialGrid.
    cbn [Water.waterHeights Water.waterVelocities].
    destruct (Nat.eqb_spec x ix) as [-> | Nx]; cbn [andb].
    + destruct (Nat.eqb_spec z iz) as [-> | Nz].
      * rewrite (write_read_same _ Water.WATER_RES_Z); auto.
        -- rewrite read_repeat. lra.
        -- rewrite repeat_length. unfold Water.WATER_RES_X. lia.
        -- unfold Water.WATER_RES_Z. lia.
      * rewrite write_read_other by congruence. apply read_repeat.
    + rewrite write_read_other by congruence. apply read_repeat.
Qed.

Lemma gridIndex_centre_x : Water.gridIndex 0 Tank.aqWidth Water.WATER_RES_X = Z.of_nat 32.
Proof.
  unfold Water.gridIndex. symmetry. apply Int_part_spec.
  unfold Tank.aqWidth, Water.WATER_RES_X. rewrite INR_IZR_INZ. simpl. lra.
Qed.

Lemma gridIndex_centre_z : Water.gridIndex 0 Tank.aqDepth Water.WATER_RES_Z = Z.of_nat 32.
Proof.
  unfold Water.gridIndex. symmetry. apply Int_part_spec.
  unfold Tank.aqDepth, Water.WATER_RES_Z. rewrite INR_IZR_INZ. simpl. lra.
Qed.

(** With a time step of a millisecond or more, ten steps of the spread leave
    a height of at least [10^-74]. *)
Lemma spread_floor delta n :
  1 / 1000 <= delta -> (n <= 10)%nat ->
  1 / 10 ^ 74 <= Water.DAMPING * delta * (Water.DAMPING * delta * delta / 2) ^ n.
Proof.
  intros Hd Hn.
  assert (HD : Water.DAMPING = 0.995) by reflexivity.
  rewrite HD.
  assert (H1 : 1 / 10 ^ 4 <= 0.995 * delta) by lra.
  assert (H2 : / 10 ^ 7 <= 0.995 * delta * delta / 2) by nra.
  assert (H3 : (/ 10 ^ 7) ^ n <= (0.995 * delta * delta / 2) ^ n)
    by (apply pow_incr; lra).
  assert (H4 : / 10 ^ 70 <= (/ 10 ^ 7) ^ n).
  { rewrite pow_inv, <- pow_mult.
    apply Rinv_le_contravar; [apply pow_lt; lra |].
    change 70%nat with (7 * 10)%nat. apply Rle_pow; [lra | lia]. }
  assert (H5 : 0 < (0.995 * delta * delta / 2) ^ n) by (apply pow_lt; nra).
  replace (1 / 10 ^ 74) with (1 / 10 ^ 4 * / 10 ^ 70) by lra.
  apply Rmult_le_compat; lra.
Qed.

(** C6, counterexample.  The grid at rest, an impulse of [1] at the centre
    (cell [(32, 32)]) and one tick of a sixtieth of a second: the neighbours
    [(31, 32)] and [(32, 31)] keep a height of exactly zero, and the far cell
    [(40, 45)] has moved. *)
Lemma impulse_reaches_far_cells_not_all_neighbours :
  let g1 := Water.updateWaterPhysics (1 / 60)
              (Water.disturbWater 0 0 1 Water.initialGrid) in
  vAt (Water.disturbWater 0 0 1 Water.initialGrid) 32 32 = 1 /\
  hAt g1 31 32 = 0 /\
  hAt g1 32 31 = 0 /\
  hAt g1 40 45 <> 0.
Proof.
  intros g1.
  destruct (impulse_grid 0 0 32 32 gridIndex_centre_x gridIndex_centre_z)
    as (Ok & Hh & Hv); [lia | lia |].
  assert (Hd : 0 < 1 / 60) by lra.
  assert (Hi : (1 <= 32 <= 62 /\ 1 <= 32 <= 62)%nat) by lia.
  split; [rewrite Hv; reflexivity |].
  split; [| split].
  - apply (impulse_zero 32 32 (1 / 60) _ Hi Hd Ok Hh Hv 63); lia.
  - apply (impulse_zero 32 32 (1 / 60) _ Hi Hd Ok Hh Hv 63); lia.
  - apply (impulse_spread 32 32 (1 / 60) _ Hi Hd Ok Hh Hv). lia.
Qed.

(** C6 (amended).  From a grid at rest but for the velocity [1] of one
    interior cell [(ix, iz)], after one tick with a time step of at least a
    millisecond: every cell before the disturbed one on either axis remains
    exactly zero, the neighbours [(ix-1, iz)] and [(ix, iz-1)] among them; the
    neighbours [(ix+1, iz)] and [(ix, iz+1)] have moved when they are
    interior cells; and the change is not confined to the neighbours: every
    interior cell [(ix+i, iz+j)] with [i + j <= 10] is raised, by at least
    [10^-74].  The bounds on the time step and on the offset keep the heights
    the statement calls nonzero far above the smallest double. *)
Theorem impulse_after_one_tick :
  forall (g0 : Water.Grid) (delta : R) (ix iz : nat),
    gridOk g0 ->
    (1 <= ix <= 62)%nat -> (1 <= iz <= 62)%nat ->
    (forall x z, hAt g0 x z = 0) ->
    (forall x z, vAt g0 x z = if ((x =? ix) && (z =? iz))%nat then 1 else 0) ->
    1 / 1000 <= delta ->
    let g1 := Water.updateWaterPhysics delta g0 in
    (forall x z, (x < ix \/ z < iz)%nat -> hAt g1 x z = 0) /\
    hAt g1 (ix - 1) iz = 0 /\
    hAt g1 ix (iz - 1) = 0 /\
    ((ix + 1 <= 62)%nat -> hAt g1 (ix + 1) iz <> 0) /\
    ((iz + 1 <= 62)%nat -> hAt g1 ix (iz + 1) <> 0) /\
    (forall i j, (i + j <= 10)%nat -> (ix + i <= 62)%nat -> (iz + j <= 62)%nat ->
       1 / 10 ^ 74 <= hAt g1 (ix + i) (iz + j)).
Proof.
  intros g0 delta ix iz Ok Bx Bz Hh Hv Hdelta g1.
  assert (Hd : 0 < delta) by lra.
  assert (Hi : (1 <= ix <= 62 /\ 1 <= iz <= 62)%nat) by lia.
  assert (Near : forall i j, (i + j <= 10)%nat -> (ix + i <= 62)%nat -> (iz + j <= 62)%nat ->
                   1 / 10 ^ 74 <= hAt g1 (ix + i) (iz + j)).
  { intros i j Hij Hx Hz.
    apply Rle_trans with (1 := spread_floor delta (i + j) Hdelta Hij).
    apply (impulse_lower ix iz delta g0 Hi Hd Ok Hh Hv (i + j) i j eq_refl Hx Hz). }
  assert (Pos : 0 < 1 / 10 ^ 74) by lra.
  split; [| split; [| split; [| split; [| split]]]].
  - intros x z Hlt. apply (impulse_zero ix iz delta g0 Hi Hd Ok Hh Hv (x + z)); lia.
  - apply (impulse_zero ix iz delta g0 Hi Hd Ok Hh Hv (ix - 1 + iz)); lia.
  - apply (impulse_zero ix iz delta g0 Hi Hd Ok Hh Hv (ix + (iz - 1))); lia.
  - intros H. specialize (Near 1%nat 0%nat ltac:(lia) H ltac:(lia)).
    rewrite Nat.add_0_r in Near. lra.
  - intros H. specialize (Near 0%nat 1%nat ltac:(lia) ltac:(lia) H).
    rewrite Nat.add_0_r in Near. lra.
  - exact Near.
Qed.

Lemma impulse_after_one_tick_witness :
  let g1 := Water.updateWaterPhysics (1 / 60)
              (Water.disturbWater 0 0 1 Water.initialGrid) in
  (forall x z, (x < 32 \/ z < 32)%nat -> hAt g1 x z = 0) /\
  hAt g1 31 32 = 0 /\
  hAt g1 32 31 = 0 /\
  hAt g1 33 32 <> 0 /\
  hAt g1 32 33 <> 0 /\
  (forall i j, (i + j <= 10)%nat -> (32 + i <= 62)%nat -> (32 + j <= 62)%nat ->
     1 / 10 ^ 74 <= hAt g1 (32 + i) (32 + j)).
Proof.
  intros g1.
  destruct (impulse_grid 0 0 32 32 gridIndex_centre_x gridIndex_centre_z
              ltac:(lia) ltac:(lia)) as (Ok & Hh & Hv).
  destruct (impulse_after_one_tick (Water.disturbWater 0 0 1 Water.initialGrid)
              (1 / 60) 32 32 Ok ltac:(lia) ltac:(lia) Hh Hv ltac:(lra))
    as (A & B & C & D & E & F).
  split; [exact A |]. split; [exact B |]. split; [exact C |].
  split; [apply D; lia |]. split; [apply E; lia | exact F].
Defined.

(** C9.  The in-place step reads, for the Laplacian of an interior cell, the
    heights already written in this tick at [(x-1, z)] and [(x, z-1)] and the
    heights of the previous tick elsewhere; and there is a grid on which it
    does not compute what the synchronous step computes. *)
Theorem inplace_step_differs_from_synchronous :
  (forall (delta : R) (g : Water.Grid) (x z : nat),
     gridOk g -> (1 <= x <= 62)%nat -> (1 <= z <= 62)%nat ->
     let g' := Water.updateWaterPhysics delta g in
     vAt g' x z =
       (vAt g x z +
        ((hAt g' (x - 1) z + hAt g (x + 1) z + hAt g' x (z - 1) + hAt g x (z + 1)) / 4
         - hAt g x z) * Water.WAVE_SPEED * delta) * Water.DAMPING /\
     hAt g' x z = hAt g x z + vAt g' x z * delta) /\
  exists (delta : R) (g : Water.Grid),
    gridOk g /\ Water.updateWaterPhysics delta g <> Water.synchronousStep delta g.
Proof.
  split; [intros; now apply updateWaterPhysics_interior |].
  exists (1 / 60), (Water.disturbWater 0 0 1 Water.initialGrid).
  destruct (impulse_grid 0 0 32 32 gridIndex_centre_x gridIndex_centre_z)
    as (Ok & Hh & Hv); [lia | lia |].
  split; [exact Ok |].
  intros E.
  assert (Hd : 0 < 1 / 60) by lra.
  assert (Hi : (1 <= 32 <= 62 /\ 1 <= 32 <= 62)%nat) by lia.
  assert (N : hAt (Water.updateWaterPhysics (1 / 60)
                     (Water.disturbWater 0 0 1 Water.initialGrid)) 32 33 <> 0)
    by (apply (impulse_spread 32 32 (1 / 60) _ Hi Hd Ok Hh Hv); lia).
  apply N. rewrite E.
  destruct (synchronousStep_interior (1 / 60) _ 32%nat 33%nat Ok) as [Sv Sh]; [lia | lia |].
  rewrite Sh, Sv, !Hh, Hv. simpl. lra.
Qed.

(** ** Kelp: the length-constraint pass *)

Lemma item_setNth j v l i :
  Kelp.item (JsArray.setNth j v l) i =
  if ((j =? i) && (i <? List.length l))%nat then v else Kelp.item l i.
Proof. unfold Kelp.item. apply setNth_nth. Qed.

(** The constraint loop, cut after the segment [k]. *)
Lemma constraintUpTo_S k pl :
  fold_left Kelp.constraintStep (seq 1 (S k)) pl =
  Kelp.constraintStep (fold_left Kelp.constraintStep (seq 1 k) pl) (S k).
Proof. rewrite seq_S, fold_left_app. reflexivity. Qed.

(** After the segments [1 .. k]: the points up to [k] sit one joint length
    from their predecessor, in the direction of the point they replace, or on
    their predecessor when that direction is the zero vector; the points
    after [k] are still to be corrected. *)
Lemma constraintUpTo_spec k pl :
  (k < List.length (points pl))%nat ->
  let post := fold_left Kelp.constraintStep (seq 1 k) pl in
  List.length (points post) = List.length (points pl) /\
  velocities post = velocities pl /\
  Kelp.item (points post) 0 = Kelp.item (points pl) 0 /\
  (forall i, (k < i)%nat -> Kelp.item (points post) i = Kelp.item (points pl) i) /\
  (forall i, (1 <= i <= k)%nat ->
     Kelp.item (points post) i =
     V3.add (Kelp.item (points post) (i - 1))
            (V3.multiplyScalar
               (V3.normalize (V3.sub (Kelp.item (points pl) i)
                                     (Kelp.item (points post) (i - 1))))
               Kelp.jointLength)).
Proof.
  induction k as [| k IH]; intros Hk post.
  - unfold post; simpl. repeat split; auto. intros i Hi; lia.
  - destruct IH as (L & V & Z & Later & Done); [lia |].
    unfold post. rewrite constraintUpTo_S.
    set (mid := fold_left Kelp.constraintStep (seq 1 k) pl) in *.
    unfold Kelp.constraintStep; cbn [points velocities base].
    assert (W : forall i, i <> S k ->
              Kelp.item (JsArray.setNth (S k)
                 (V3.add (Kelp.item (points mid) (S k - 1))
                    (V3.multiplyScalar
                       (V3.normalize (V3.sub (Kelp.item (points mid) (S k))
                                             (Kelp.item (points mid) (S k - 1))))
                       Kelp.jointLength)) (points mid)) i
              = Kelp.item (points mid) i).
    { intros i Hi. rewrite item_setNth.
      destruct (Nat.eqb_spec (S k) i); [congruence | reflexivity]. }
    split; [rewrite setNth_length; exact L |].
    split; [exact V |].
    split; [rewrite W by lia; exact Z |].
    split.
    + intros i Hi. rewrite W by lia. apply Later. lia.
    + intros i Hi. destruct (Nat.eq_dec i (S k)) as [-> | Hne].
      * rewrite (W (S k - 1)%nat) by lia.
        rewrite item_setNth, Nat.eqb_refl.
        replace (S k <? List.length (points mid))%nat with true
          by (symmetry; apply Nat.ltb_lt; lia).
        cbn [andb]. rewrite (Later (S k)) by lia. reflexivity.
      * rewrite W by exact Hne. rewrite (W (i - 1)%nat) by lia.
        apply Done. lia.
Qed.

Lemma distanceTo_add a v : V3.distanceTo a (V3.add a v) = V3.length v.
Proof.
  unfold V3.distanceTo, V3.length. f_equal.
  unfold V3.distanceToSquared, V3.lengthSq; simpl. ring.
Qed.

Lemma jointLength_pos : 0 < Kelp.jointLength.
Proof.
  unfold Kelp.jointLength, Kelp.PLANT_LEN, Kelp.SEGMENTS.
  apply Rdiv_lt_0_compat; [lra |]. apply lt_0_INR. lia.
Qed.

(** The constraint pass on any chain of [SEGMENTS] points. *)
Lemma constraintPass_spec pl j :
  List.length (points pl) = Kelp.SEGMENTS ->
  (1 <= j < Kelp.SEGMENTS)%nat ->
  let post := Kelp.constraintPass pl in
  (Kelp.item (points pl) j <> Kelp.item (points post) (j - 1) ->
   V3.distanceTo (Kelp.item (points post) (j - 1)) (Kelp.item (points post) j)
   = Kelp.jointLength) /\
  (Kelp.item (points pl) j = Kelp.item (points post) (j - 1) ->
   Kelp.item (points post) j = Kelp.item (points post) (j - 1)).
Proof.
  intros HL Hj post.
  destruct (constraintUpTo_spec (Kelp.SEGMENTS - 1) pl) as (_ & _ & _ & _ & Done).
  { rewrite HL. unfold Kelp.SEGMENTS. lia. }
  fold (Kelp.forSegments Kelp.constraintStep pl) in Done.
  fold (Kelp.constraintPass pl) in Done. fold post in Done.
  assert (Hj' : (1 <= j <= Kelp.SEGMENTS - 1)%nat) by lia.
  specialize (Done j Hj'). clearbody post. split.
  - intros Hne. rewrite Done, distanceTo_add, length_multiplyScalar, length_normalize.
    + rewrite Rabs_pos_eq by (apply Rlt_le, jointLength_pos). ring.
    + intros E. apply Hne. apply vec3_eq;
        [apply (f_equal vx) in E | apply (f_equal vy) in E | apply (f_equal vz) in E];
        simpl in E; lra.
  - intros Heq. rewrite Done at 1. rewrite Heq.
    replace (V3.sub (Kelp.item (points post) (j - 1)) (Kelp.item (points post) (j - 1)))
      with V3.zero by (apply vec3_eq; simpl; lra).
    rewrite normalize_zero. apply vec3_eq; simpl; lra.
Qed.

(** ** Kelp: the spring pass *)

Lemma fold_wellFormed (A : Type) (body : Plant -> A -> Plant) l pl :
  (forall pl a, Kelp.wellFormed pl -> Kelp.wellFormed (body pl a)) ->
  Kelp.wellFormed pl -> Kelp.wellFormed (fold_left body l pl).
Proof.
  intros Hb. revert pl; induction l as [| a l IH]; intros pl Hw; simpl; auto.
Qed.

Lemma pinBase_wellFormed pl : Kelp.wellFormed pl -> Kelp.wellFormed (Kelp.pinBase pl).
Proof.
  intros [H1 H2]. unfold Kelp.wellFormed, Kelp.pinBase; cbn [points velocities].
  now rewrite !setNth_length.
Qed.

Lemma pushSegment_wellFormed f pl j :
  Kelp.wellFormed pl -> Kelp.wellFormed (Kelp.pushSegment f pl j).
Proof.
  intros [H1 H2]. unfold Kelp.pushSegment.
  destruct (Rltb _ _); [| split; assumption].
  unfold Kelp.wellFormed; cbn [points velocities]. now rewrite setNth_length.
Qed.

Lemma springStep_wellFormed fr pl j :
  Kelp.wellFormed pl -> Kelp.wellFormed (Kelp.springStep fr pl j).
Proof.
  intros [H1 H2]. unfold Kelp.wellFormed, Kelp.springStep; cbn [points velocities].
  now rewrite !setNth_length.
Qed.

Lemma springPass_wellFormed fr pl :
  Kelp.wellFormed pl -> Kelp.wellFormed (Kelp.springPass fr pl).
Proof.
  intros Hw. unfold Kelp.springPass, Kelp.forSegments, Kelp.fishInteraction.
  apply fold_wellFormed; [intros; now apply springStep_wellFormed |].
  apply fold_wellFormed; [| now apply pinBase_wellFormed].
  intros pl' f Hw'. unfold Kelp.forSegments.
  apply fold_wellFormed; [intros; now apply pushSegment_wellFormed | exact Hw'].
Qed.

Lemma newPlant_wellFormed b : Kelp.wellFormed (Kelp.newPlant b).
Proof.
  unfold Kelp.wellFormed, Kelp.newPlant; cbn [points velocities].
  now rewrite length_map, length_seq, repeat_length.
Qed.

(** A turn of the spring loop writes the point and the velocity of its own
    segment only. *)
Lemma springStep_other fr pl j i :
  i <> j -> Kelp.item (points (Kelp.springStep fr pl j)) i = Kelp.item (points pl) i.
Proof.
  intros H. unfold Kelp.springStep; cbn [points]. rewrite item_setNth.
  destruct (Nat.eqb_spec j i); [congruence | reflexivity].
Qed.

Lemma springFold_untouched fr n a pl i :
  (i < a)%nat ->
  Kelp.item (points (fold_left (Kelp.springStep fr) (seq a n) pl)) i
  = Kelp.item (points pl) i.
Proof.
  revert a pl; induction n as [| n IH]; intros a pl H; simpl; [reflexivity |].
  rewrite IH by lia. apply springStep_other. lia.
Qed.


Lemma fold_left_cons (A B : Type) (f : A -> B -> A) (b : B) (l : list B) (a : A) :
  fold_left f (b :: l) a = fold_left f l (f a b).
Proof. reflexivity. Qed.



Lemma slackPlant_wellFormed : Kelp.wellFormed slackPlant.
Proof.
  split; [apply newPlant_wellFormed |].
  unfold slackPlant; cbn [velocities]. now rewrite setNth_length, repeat_length.
Qed.

Lemma newPlant_item b j :
  (j < Kelp.SEGMENTS)%nat ->
  Kelp.item (points (Kelp.newPlant b)) j
  = vec3 (vx b) (vy b + INR j / INR (Kelp.SEGMENTS - 1) * Kelp.PLANT_LEN) (vz b).
Proof.
  intros Hj. unfold Kelp.item, Kelp.newPlant; cbn [points].
  rewrite (nth_indep _ V3.zero
             (vec3 (vx b) (vy b + INR 0 / INR (Kelp.SEGMENTS - 1) * Kelp.PLANT_LEN) (vz b)))
    by (rewrite length_map, length_seq; exact Hj).
  rewrite (map_nth (fun j => vec3 (vx b)
             (vy b + INR j / INR (Kelp.SEGMENTS - 1) * Kelp.PLANT_LEN) (vz b))).
  rewrite seq_nth by exact Hj. reflexivity.
Qed.

Lemma distanceTo_self a : V3.distanceTo a a = 0.
Proof.
  unfold V3.distanceTo, V3.distanceToSquared; simpl.
  replace ((vx a - vx a) * (vx a - vx a) + (vy a - vy a) * (vy a - vy a) +
           (vz a - vz a) * (vz a - vz a)) with 0 by ring.
  apply sqrt_0.
Qed.






(** ** Curves: the number of samples *)

Lemma getPoints_length c n : List.length (Curve.getPoints c n) = (n + 1)%nat.
Proof. unfold Curve.getPoints. now rewrite length_map, length_seq. Qed.

Lemma getSpacedPoints_length c n : List.length (Curve.getSpacedPoints c n) = (n + 1)%nat.
Proof. unfold Curve.getSpacedPoints. now rewrite length_map, length_seq. Qed.

(** ** Curves: the ends of an open curve *)

Lemma calc_0 p : Curve.calc p 0 = c0 p.
Proof. unfold Curve.calc. ring. Qed.

Lemma calc_1_init x0 x1 t0 t1 : Curve.calc (Curve.init x0 x1 t0 t1) 1 = x1.
Proof. unfold Curve.calc, Curve.init; simpl. ring. Qed.

Lemma pointAt_nat pts k :
  (k < List.length pts)%nat -> Curve.pointAt pts (Z.of_nat k) = nth k pts V3.zero.
Proof.
  intros H. unfold Curve.pointAt.
  rewrite Z.rem_small by lia. now rewrite Nat2Z.id.
Qed.

Lemma locate_open_0 pts :
  (2 <= List.length pts)%nat -> Curve.locate (mkCurve pts false) 0 = (0%Z, 0).
Proof.
  intros H. unfold Curve.locate; cbn [closed controlPoints].
  rewrite Rmult_0_r.
  assert (E : Int_part 0 = 0%Z) by (symmetry; apply Int_part_spec; simpl; lra).
  rewrite E. replace (0 - IZR 0) with 0 by (simpl; lra).
  replace (0 =? Z.of_nat (List.length pts) - 1)%Z with false
    by (symmetry; apply Z.eqb_neq; lia).
  now rewrite andb_false_r.
Qed.

Lemma locate_open_1 pts :
  (2 <= List.length pts)%nat ->
  Curve.locate (mkCurve pts false) 1 = ((Z.of_nat (List.length pts) - 2)%Z, 1).
Proof.
  intros H. unfold Curve.locate; cbn [closed controlPoints].
  rewrite Rmult_1_r.
  assert (E : INR (List.length pts) - 1 = INR (List.length pts - 1)).
  { rewrite minus_INR by lia. simpl. lra. }
  rewrite E, Int_part_INR, <- INR_IZR_INZ.
  replace (INR (List.length pts - 1) - INR (List.length pts - 1)) with 0 by lra.
  rewrite (proj2 (Reqb_true 0 0) eq_refl).
  replace (Z.of_nat (List.length pts - 1) =? Z.of_nat (List.length pts) - 1)%Z with true
    by (symmetry; apply Z.eqb_eq; lia).
  reflexivity.
Qed.

(** [getPoint(0)] is the first control point of an open curve. *)
Lemma getPoint_open_0 pts :
  (2 <= List.length pts)%nat ->
  Curve.getPoint (mkCurve pts false) 0 = nth 0 pts V3.zero.
Proof.
  intros H. unfold Curve.getPoint. rewrite (locate_open_0 pts H).
  unfold Curve.neighbours, Curve.interpolate. cbn [closed controlPoints]. cbv zeta.
  rewrite !calc_0. unfold Curve.initNonuniformCatmullRom, Curve.init; cbn [c0].
  change 0%Z with (Z.of_nat 0). rewrite (pointAt_nat pts 0) by lia.
  now destruct (nth 0 pts V3.zero).
Qed.

(** [getPoint(1)] is the last control point of an open curve. *)
Lemma getPoint_open_1 pts :
  (2 <= List.length pts)%nat ->
  Curve.getPoint (mkCurve pts false) 1 = nth (List.length pts - 1) pts V3.zero.
Proof.
  intros H. unfold Curve.getPoint. rewrite (locate_open_1 pts H).
  unfold Curve.neighbours, Curve.interpolate. cbn [closed controlPoints]. cbv zeta.
  unfold Curve.initNonuniformCatmullRom. rewrite !calc_1_init.
  replace (Z.of_nat (List.length pts) - 2 + 1)%Z with (Z.of_nat (List.length pts - 1))
    by lia.
  rewrite pointAt_nat by lia.
  now destruct (nth (List.length pts - 1) pts V3.zero).
Qed.

(** ** Curves: arc lengths *)

Lemma sample_0 c : sample c 0 = Curve.getPoint c 0.
Proof.
  unfold sample. f_equal. unfold Rdiv. simpl (INR 0). apply Rmult_0_l.
Qed.

Lemma arcSums_cumulated c n a :
  Curve.arcSums c Curve.arcLengthDivisions (seq (S a) n) (sample c a) (cumulated c a)
  = map (cumulated c) (seq (S a) n).
Proof.
  revert a; induction n as [| n IH]; intros a; [reflexivity |].
  cbn [seq Curve.arcSums map]. f_equal. apply (IH (S a)).
Qed.

Lemma arcSums_from_0 c n :
  0 :: Curve.arcSums c Curve.arcLengthDivisions (seq 1 n) (sample c 0) 0
  = map (cumulated c) (seq 0 (S n)).
Proof.
  cbn [seq map cumulated]. f_equal. apply (arcSums_cumulated c n 0).
Qed.

Lemma getLengths_cumulated c :
  Curve.getLengths c = map (cumulated c) (seq 0 (S Curve.arcLengthDivisions)).
Proof.
  unfold Curve.getLengths. rewrite <- sample_0. apply arcSums_from_0.
Qed.

Lemma getLengths_length c :
  List.length (Curve.getLengths c) = S Curve.arcLengthDivisions.
Proof. now rewrite getLengths_cumulated, length_map, length_seq. Qed.

Lemma getLengths_nth c k :
  (k <= Curve.arcLengthDivisions)%nat -> nth k (Curve.getLengths c) 0 = cumulated c k.
Proof.
  intros H. rewrite getLengths_cumulated.
  change 0 with (cumulated c 0) at 1.
  rewrite map_nth, seq_nth by lia. reflexivity.
Qed.

Lemma distanceTo_nonneg a b : 0 <= V3.distanceTo a b.
Proof. apply sqrt_pos. Qed.

Lemma distanceTo_zero a b : V3.distanceTo a b = 0 -> a = b.
Proof.
  unfold V3.distanceTo. intros H.
  destruct a as [ax ay az], b as [bx b_y bz].
  unfold V3.distanceToSquared in H; cbv zeta in H; simpl in H.
  pose proof (Rle_0_sqr (ax - bx)) as Sx.
  pose proof (Rle_0_sqr (ay - b_y)) as Sy.
  pose proof (Rle_0_sqr (az - bz)) as Sz.
  unfold Rsqr in Sx, Sy, Sz.
  apply sqrt_eq_0 in H; [| lra].
  assert (Ex : (ax - bx) * (ax - bx) = 0) by lra.
  assert (Ey : (ay - b_y) * (ay - b_y) = 0) by lra.
  assert (Ez : (az - bz) * (az - bz) = 0) by lra.
  apply Rsqr_0_uniq in Ex, Ey, Ez.
  f_equal; lra.
Qed.

Lemma cumulated_step c k : cumulated c k <= cumulated c (S k).
Proof. simpl. pose proof (distanceTo_nonneg (sample c (S k)) (sample c k)). lra. Qed.

Lemma cumulated_mono c i j : (i <= j)%nat -> cumulated c i <= cumulated c j.
Proof.
  induction 1 as [| j Hij IH]; [lra |].
  pose proof (cumulated_step c j). lra.
Qed.

Lemma cumulated_nonneg c k : 0 <= cumulated c k.
Proof. apply (cumulated_mono c 0 k). lia. Qed.

(** Where the running sum has not grown, the sampled point has not moved. *)
Lemma cumulated_flat c i j :
  (i <= j)%nat -> cumulated c i = cumulated c j -> sample c i = sample c j.
Proof.
  induction 1 as [| j Hij IH]; intros E; [reflexivity |].
  pose proof (cumulated_mono c i j Hij) as M.
  pose proof (cumulated_step c j) as St.
  assert (E1 : cumulated c i = cumulated c j) by lra.
  rewrite (IH E1). symmetry. apply distanceTo_zero.
  simpl in E. lra.
Qed.

(** ** Curves: the binary search at the two ends of the range *)

Section SearchEnds.

Variable c : CatmullRomCurve3.

Let L := Curve.getLengths c.
Let n := Curve.arcLengthDivisions.

Lemma lengths_at (i : Z) :
  (0 <= i <= Z.of_nat n)%Z -> nth (Z.to_nat i) L 0 = cumulated c (Z.to_nat i).
Proof using Type.
  intros H. apply getLengths_nth. fold n. lia.
Qed.

(** A target of zero: the search ends on an index whose length is zero. *)
Lemma search_zero fuel high :
  (0 <= high <= Z.of_nat n)%Z -> (Z.to_nat high < fuel)%nat ->
  let r := Curve.search fuel L 0 0 high in
  (0 <= r <= high)%Z /\ nth (Z.to_nat r) L 0 = 0.
Proof using Type.
  revert high; induction fuel as [| fuel IH]; intros high Hh Hf; [lia |].
  cbn [Curve.search].
  replace (0 <=? high)%Z with true by (symmetry; apply Z.leb_le; lia).
  set (i := (0 + (high - 0) / 2)%Z).
  assert (Hi : (0 <= i <= high)%Z).
  { unfold i. split; [apply Z.add_nonneg_nonneg; [lia | apply Z.div_pos; lia] |].
    assert ((high - 0) / 2 <= high - 0)%Z by (apply Z.div_le_upper_bound; lia). lia. }
  rewrite (lengths_at i) by lia.
  pose proof (cumulated_nonneg c (Z.to_nat i)) as Hn.
  replace (Rltb (cumulated c (Z.to_nat i) - 0) 0) with false
    by (symmetry; apply Rltb_false; lra).
  destruct (Rltb 0 (cumulated c (Z.to_nat i) - 0)) eqn:E.
  - apply Rltb_true in E.
    assert (i <> 0)%Z by (intros ->; simpl in E; lra).
    destruct (IH (i - 1)%Z) as [A B]; [lia | lia |].
    split; [lia | exact B].
  - apply Rltb_false in E. split; [lia |].
    rewrite (lengths_at i) by lia. lra.
Qed.

(** A target equal to the total length: the search ends on an index whose
    length is the total. *)
Lemma search_total fuel low :
  (0 <= low <= Z.of_nat n)%Z -> (n - Z.to_nat low < fuel)%nat ->
  let r := Curve.search fuel L (cumulated c n) low (Z.of_nat n) in
  (low <= r <= Z.of_nat n)%Z /\ nth (Z.to_nat r) L 0 = cumulated c n.
Proof using Type.
  revert low; induction fuel as [| fuel IH]; intros low Hl Hf; [lia |].
  cbn [Curve.search].
  replace (low <=? Z.of_nat n)%Z with true by (symmetry; apply Z.leb_le; lia).
  set (i := (low + (Z.of_nat n - low) / 2)%Z).
  assert (Hi : (low <= i <= Z.of_nat n)%Z).
  { unfold i. split.
    - assert (0 <= (Z.of_nat n - low) / 2)%Z by (apply Z.div_pos; lia). lia.
    - assert ((Z.of_nat n - low) / 2 <= Z.of_nat n - low)%Z
        by (apply Z.div_le_upper_bound; lia). lia. }
  rewrite (lengths_at i) by lia.
  assert (Hm : cumulated c (Z.to_nat i) <= cumulated c n)
    by (apply cumulated_mono; lia).
  destruct (Rltb (cumulated c (Z.to_nat i) - cumulated c n) 0) eqn:E.
  - apply Rltb_true in E.
    assert (i <> Z.of_nat n)%Z by (intros Ei; rewrite Ei, Nat2Z.id in E; lra).
    destruct (IH (i + 1)%Z) as [A B]; [lia | lia |].
    split; [lia | exact B].
  - apply Rltb_false in E.
    replace (Rltb 0 (cumulated c (Z.to_nat i) - cumulated c n)) with false
      by (symmetry; apply Rltb_false; lra).
    split; [lia |]. rewrite (lengths_at i) by lia. lra.
Qed.

End SearchEnds.

(** ** Curves: the ends of the arc-length sampling *)

Lemma mapping_value c (r : Z) :
  (0 <= r <= Z.of_nat Curve.arcLengthDivisions)%Z ->
  Curve.getPoint c (IZR r / (INR (List.length (Curve.getLengths c)) - 1))
  = sample c (Z.to_nat r).
Proof.
  intros H. unfold sample. f_equal. rewrite getLengths_length.
  rewrite S_INR, (INR_IZR_INZ (Z.to_nat r)), Z2Nat.id by lia. f_equal. lra.
Qed.

Lemma getPointAt_0 c : Curve.getPointAt c 0 = Curve.getPoint c 0.
Proof.
  unfold Curve.getPointAt, Curve.getUtoTmapping. cbv zeta.
  rewrite Rmult_0_l.
  destruct (search_zero c (List.length (Curve.getLengths c))
              (Z.of_nat (List.length (Curve.getLengths c)) - 1)) as [Hr Hz].
  { rewrite getLengths_length. lia. }
  { rewrite getLengths_length. lia. }
  set (r := Curve.search _ _ _ _ _) in *.
  rewrite getLengths_length in Hr.
  rewrite Hz, (proj2 (Reqb_true 0 0) eq_refl).
  rewrite mapping_value by lia.
  rewrite getLengths_nth in Hz by lia.
  rewrite <- sample_0. symmetry.
  apply cumulated_flat; [lia |]. simpl. lra.
Qed.

Lemma getPointAt_1 c : Curve.getPointAt c 1 = Curve.getPoint c 1.
Proof.
  unfold Curve.getPointAt, Curve.getUtoTmapping. cbv zeta.
  rewrite Rmult_1_l.
  assert (El : (List.length (Curve.getLengths c) - 1)%nat = Curve.arcLengthDivisions)
    by (rewrite getLengths_length; lia).
  rewrite El, (getLengths_nth c Curve.arcLengthDivisions) by lia.
  destruct (search_total c (List.length (Curve.getLengths c)) 0) as [Hr Hz].
  { unfold Curve.arcLengthDivisions. lia. }
  { rewrite getLengths_length. unfold Curve.arcLengthDivisions. lia. }
  replace (Z.of_nat (List.length (Curve.getLengths c)) - 1)%Z
    with (Z.of_nat Curve.arcLengthDivisions) by (rewrite getLengths_length; lia).
  set (r := Curve.search _ _ _ _ _) in *.
  rewrite Hz, (proj2 (Reqb_true _ _) eq_refl).
  rewrite mapping_value by lia.
  rewrite getLengths_nth in Hz by lia.
  rewrite (cumulated_flat c (Z.to_nat r) Curve.arcLengthDivisions) by (lia || exact Hz).
  unfold sample. f_equal. apply Rdiv_diag.
  apply not_0_INR. unfold Curve.arcLengthDivisions. lia.
Qed.

(** The ends of a polyline of [getSpacedPoints] on an open curve. *)
Lemma getSpacedPoints_ends pts S :
  (2 <= List.length pts)%nat -> (1 <= S)%nat ->
  nth 0 (Curve.getSpacedPoints (mkCurve pts false) S) V3.zero = nth 0 pts V3.zero /\
  nth S (Curve.getSpacedPoints (mkCurve pts false) S) V3.zero
  = nth (List.length pts - 1) pts V3.zero.
Proof.
  intros Hp HS. unfold Curve.getSpacedPoints.
  set (f := fun d : nat => Curve.getPointAt (mkCurve pts false) (INR d / INR S)).
  assert (D : forall k, (k < S + 1)%nat -> nth k (map f (seq 0 (S + 1))) V3.zero = f k).
  { intros k Hk.
    rewrite (nth_indep _ V3.zero (f 0%nat)) by (rewrite length_map, length_seq; exact Hk).
    rewrite map_nth, seq_nth by exact Hk. reflexivity. }
  split.
  - rewrite D by lia. unfold f.
    replace (INR 0 / INR S) with 0 by (simpl; unfold Rdiv; ring).
    rewrite getPointAt_0. now apply getPoint_open_0.
  - rewrite D by lia. unfold f.
    rewrite Rdiv_diag by (apply not_0_INR; lia).
    rewrite getPointAt_1. now apply getPoint_open_1.
Qed.

(** The top curve of the fish, sampled as the sources do. *)
Lemma topPoints_length : List.length FishGeometry.topPoints = 101%nat.
Proof. apply getSpacedPoints_length. Qed.

(** C3, counterexample.  [topCurve.getSpacedPoints(100)] on the seven control
    points of the top curve is a polyline of 101 points, not 100; the sources
    read its last point at index 100. *)
Lemma hundred_divisions_give_101_points :
  List.length (controlPoints FishGeometry.topCurve) = 7%nat /\
  List.length (Curve.getSpacedPoints FishGeometry.topCurve 100) = 101%nat /\
  101%nat <> 100%nat.
Proof.
  split; [reflexivity |]. split; [apply getSpacedPoints_length | lia].
Qed.

(** C3 (amended).  For an open control curve of at least two control points
    and a requested count [S >= 1], the polyline returned by
    [getSpacedPoints(S)] has exactly [S + 1] points; its first point is the
    first control point and its last point is the last control point. *)
Theorem spaced_points_count_and_ends :
  forall (pts : list Vector3) (S : nat),
    (2 <= List.length pts)%nat -> (1 <= S)%nat ->
    let polyline := Curve.getSpacedPoints (mkCurve pts false) S in
    List.length polyline = (S + 1)%nat /\
    nth 0 polyline V3.zero = nth 0 pts V3.zero /\
    nth S polyline V3.zero = nth (List.length pts - 1) pts V3.zero.
Proof.
  intros pts S Hp HS polyline.
  split; [apply getSpacedPoints_length |].
  apply getSpacedPoints_ends; assumption.
Qed.

Lemma spaced_points_witness :
  let polyline := Curve.getSpacedPoints FishGeometry.topCurve 100 in
  List.length polyline = 101%nat /\
  nth 0 polyline V3.zero = vec3 0 0 0 /\
  nth 100 polyline V3.zero = vec3 10 0.55 0.
Proof.
  exact (spaced_points_count_and_ends
           (controlPoints FishGeometry.topCurve) 100 ltac:(simpl; lia) ltac:(lia)).
Defined.

(** ** fish.js: the lookup [getPoint(curvePoints, x)] *)

Lemma xMin_le pts p : In p pts -> FishGeometry.xMin pts <= vx p.
Proof.
  unfold FishGeometry.xMin. generalize (vx (hd V3.zero pts)) as d.
  induction pts as [| q pts IH]; intros d H; [contradiction |].
  simpl. destruct H as [-> | H].
  - apply Rmin_l.
  - eapply Rle_trans; [apply Rmin_r | apply IH, H].
Qed.

Lemma xMax_ge pts p : In p pts -> vx p <= FishGeometry.xMax pts.
Proof.
  unfold FishGeometry.xMax. generalize (vx (hd V3.zero pts)) as d.
  induction pts as [| q pts IH]; intros d H; [contradiction |].
  simpl. destruct H as [-> | H].
  - apply Rmax_l.
  - eapply Rle_trans; [apply IH, H | apply Rmax_r].
Qed.

Lemma getPoint_no_bracket pts x :
  (forall p, In p pts -> x < vx p) \/ (forall p, In p pts -> vx p < x) ->
  FishGeometry.getPoint pts x = Normal None.
Proof.
  induction pts as [| i1 rest IH]; intros H; [reflexivity |].
  cbn [FishGeometry.getPoint].
  destruct rest as [| i2 rest']; [reflexivity |].
  replace (Rleb (vx i1) x && Rleb x (vx i2)) with false.
  - apply IH. destruct H as [H | H]; [left | right];
      intros p Hp; apply H; now right.
  - symmetry. apply andb_false_iff.
    destruct H as [H | H].
    + left. apply Rleb_false. specialize (H i1 (or_introl eq_refl)). lra.
    + right. apply Rleb_false. specialize (H i2 (or_intror (or_introl eq_refl))). lra.
Qed.

(** C7, counterexample.  On the polyline [(0,0,0), (1,1,0)] the query
    [x = 2] is above every sampled [x]; the lookup returns [undefined], it
    raises nothing. *)
Lemma lookup_outside_returns_undefined :
  let pts := [vec3 0 0 0; vec3 1 1 0] in
  FishGeometry.xMax pts < 2 /\
  FishGeometry.getPoint pts 2 = Normal None /\
  FishGeometry.getPoint pts 2 <> Throw OutOfRange.
Proof.
  intros pts.
  assert (E : FishGeometry.getPoint pts 2 = Normal None).
  { apply getPoint_no_bracket. right. intros p [<- | [<- | []]]; simpl; lra. }
  split; [| split].
  - unfold FishGeometry.xMax, pts; simpl.
    repeat apply Rmax_lub_lt; lra.
  - exact E.
  - rewrite E. discriminate.
Qed.

(** C7 (amended).  For every query [x] strictly outside the range
    [[min, max]] of the [x] of the sampled points, the lookup returns
    [undefined]: it returns no point and raises no error. *)
Theorem lookup_outside_range :
  forall (pts : list Vector3) (x : R),
    x < FishGeometry.xMin pts \/ FishGeometry.xMax pts < x ->
    FishGeometry.getPoint pts x = Normal None.
Proof.
  intros pts x H. apply getPoint_no_bracket.
  destruct H as [H | H]; [left | right]; intros p Hp.
  - pose proof (xMin_le pts p Hp). lra.
  - pose proof (xMax_ge pts p Hp). lra.
Qed.

Lemma lookup_outside_range_witness :
  FishGeometry.getPoint [vec3 0 0 0; vec3 1 1 0] 2 = Normal None.
Proof.
  apply (lookup_outside_range [vec3 0 0 0; vec3 1 1 0] 2).
  right. unfold FishGeometry.xMax; simpl. repeat apply Rmax_lub_lt; lra.
Defined.

(** ** Mesh assembly: calls that return *)

Lemma bind_Normal A B (m : Completion A) (k : A -> Completion B) b :
  bind m k = Normal b -> exists a, m = Normal a /\ k a = Normal b.
Proof. destruct m as [a | e]; simpl; [eauto | discriminate]. Qed.

Ltac bind_inv H :=
  let a := fresh "a" in
  let Ha := fresh "Ha" in
  apply bind_Normal in H; destruct H as (a & Ha & H).

Lemma mapM_length A B (f : A -> Completion B) l bs :
  mapM f l = Normal bs -> List.length bs = List.length l.
Proof.
  revert bs; induction l as [| a l IH]; intros bs H; simpl in H.
  - inversion H. reflexivity.
  - bind_inv H. bind_inv H. inversion H; subst. simpl. f_equal. now apply IH.
Qed.

Lemma mapM_Forall A B (f : A -> Completion B) (P : B -> Prop) l bs :
  (forall a b, In a l -> f a = Normal b -> P b) ->
  mapM f l = Normal bs -> Forall P bs.
Proof.
  revert bs; induction l as [| a l IH]; intros bs Hf H; simpl in H.
  - inversion H. constructor.
  - bind_inv H. bind_inv H. inversion H; subst. constructor.
    + eapply Hf; [now left | eassumption].
    + apply IH; [| assumption]. intros; eapply Hf; [right |]; eassumption.
Qed.

(** ** Mesh assembly: indices *)

Lemma planeIndices_bound gridX gridY :
  Forall (fun i => (i < (gridX + 1) * (gridY + 1))%nat) (Three.planeIndices gridX gridY).
Proof.
  apply Forall_forall. intros i Hi. unfold Three.planeIndices in Hi.
  apply in_flat_map in Hi. destruct Hi as (iy & Hy & Hi).
  apply in_flat_map in Hi. destruct Hi as (ix & Hx & Hi).
  apply in_seq in Hy, Hx. simpl in Hi.
  assert (B : ((gridX + 1) * (iy + 1) <= (gridX + 1) * gridY)%nat)
    by (apply Nat.mul_le_mono_l; lia).
  assert (B' : ((gridX + 1) * iy <= (gridX + 1) * (iy + 1))%nat)
    by (apply Nat.mul_le_mono_l; lia).
  rewrite (Nat.mul_add_distr_l (gridX + 1) gridY 1), Nat.mul_1_r.
  repeat (destruct Hi as [<- | Hi]; [lia |]). contradiction.
Qed.

Lemma planeGeometry_valid w h gridX gridY pts parts :
  List.length pts = ((gridX + 1) * (gridY + 1))%nat ->
  validGeometry
    (Three.setParts (Three.setPosition (Three.PlaneGeometry w h gridX gridY) pts) parts).
Proof.
  intros H. unfold validGeometry, Three.vertexCount; cbn [positions indices
    Three.setParts Three.setPosition Three.PlaneGeometry].
  rewrite H. apply planeIndices_bound.
Qed.

Lemma translate_valid g x y z : validGeometry g -> validGeometry (Three.translate g x y z).
Proof.
  unfold validGeometry, Three.vertexCount, Three.translate; cbn [positions indices].
  now rewrite length_map.
Qed.

Lemma rotateX_valid g a : validGeometry g -> validGeometry (Three.rotateX g a).
Proof.
  unfold validGeometry, Three.vertexCount, Three.rotateX; cbn [positions indices].
  now rewrite length_map.
Qed.

Lemma mergeIndices_bound gs offset :
  Forall validGeometry gs ->
  Forall (fun i => (i < offset + list_sum (map Three.vertexCount gs))%nat)
         (Three.mergeIndices gs offset).
Proof.
  revert offset; induction gs as [| g gs IH]; intros offset H; simpl; [constructor |].
  inversion H as [| ? ? Hg Hgs]; subst.
  apply Forall_app. split.
  - apply Forall_forall. intros i Hi. apply in_map_iff in Hi.
    destruct Hi as (j & <- & Hj).
    unfold validGeometry in Hg. rewrite Forall_forall in Hg. specialize (Hg j Hj). lia.
  - specialize (IH (offset + Three.vertexCount g)%nat Hgs).
    eapply Forall_impl; [| exact IH]. simpl. intros i Hi. lia.
Qed.

Lemma mergeGeometries_count gs :
  Three.vertexCount (Three.mergeGeometries gs) = list_sum (map Three.vertexCount gs).
Proof.
  unfold Three.vertexCount, Three.mergeGeometries; cbn [positions].
  induction gs as [| g gs IH]; simpl; [reflexivity |].
  now rewrite length_app, IH.
Qed.

(** Geometries whose indices are valid merge into a geometry whose number of
    vertices is the sum of theirs and whose indices are valid. *)
Lemma mergeGeometries_valid gs :
  Forall validGeometry gs ->
  Three.vertexCount (Three.mergeGeometries gs) = list_sum (map Three.vertexCount gs) /\
  validGeometry (Three.mergeGeometries gs).
Proof.
  intros H. split; [apply mergeGeometries_count |].
  unfold validGeometry. rewrite mergeGeometries_count.
  apply (mergeIndices_bound gs 0 H).
Qed.

(** ** Mesh assembly: the sub-meshes of the fish *)

Lemma tl_rev_length A (l : list A) : List.length (tl (rev l)) = (List.length l - 1)%nat.
Proof.
  destruct (rev l) as [| a r] eqn:E.
  - apply (f_equal (@List.length A)) in E. rewrite length_rev in E. simpl in *. lia.
  - apply (f_equal (@List.length A)) in E. rewrite length_rev in E. simpl in *. lia.
Qed.

Lemma mapi_length A B (f : nat -> A -> B) l :
  List.length (JsArray.mapi f l) = List.length l.
Proof. apply mapiFrom_length. Qed.

(** A fin on a contour of [n >= 1] points has [4 n - 2] vertices. *)
Lemma createFin_valid basePoints contourPoints isTop g :
  FishGeometry.createFin basePoints contourPoints isTop = Normal g ->
  (1 <= List.length contourPoints)%nat ->
  validGeometry g /\
  Three.vertexCount g = (4 * List.length contourPoints - 2)%nat.
Proof.
  unfold FishGeometry.createFin. intros H Hn.
  bind_inv H. apply mapM_length in Ha.
  inversion H; subst; clear H.
  set (full := contourPoints ++ _).
  assert (L : List.length full = (4 * List.length contourPoints - 2)%nat).
  { unfold full. rewrite !length_app, !mapi_length, !tl_rev_length, Ha. lia. }
  split.
  - apply planeGeometry_valid. rewrite L. lia.
  - unfold Three.vertexCount; cbn [positions Three.setParts Three.setPosition].
    exact L.
Qed.

(** The tail fin on a frame of [divisions + 1] points. *)
Lemma tailGeometry_valid lastFrame g :
  FishGeometry.tailGeometry lastFrame = Normal g ->
  List.length lastFrame = (FishGeometry.divisions + 1)%nat ->
  validGeometry g /\
  Three.vertexCount g
  = ((FishGeometry.divisions + 1) * (FishGeometry.tailfinSlices + 1))%nat.
Proof.
  unfold FishGeometry.tailGeometry. intros H HL.
  bind_inv H. inversion H; subst; clear H.
  assert (R : Forall (fun row => List.length row = List.length lastFrame) a).
  { eapply mapM_Forall; [| exact Ha]. intros i row _ Hrow.
    apply mapM_length in Hrow. rewrite Hrow, length_combine, length_seq. lia. }
  pose proof (mapM_length _ _ _ _ _ Ha) as La. rewrite length_seq in La.
  assert (L : List.length (concat a)
              = ((FishGeometry.divisions + 1) * (FishGeometry.tailfinSlices + 1))%nat).
  { rewrite <- La, <- HL. clear - R.
    induction R as [| row rows Hrow _ IH]; simpl; [lia |].
    rewrite length_app, IH, Hrow. lia. }
  split.
  - apply planeGeometry_valid. exact L.
  - unfold Three.vertexCount; cbn [positions Three.setParts Three.setPosition].
    exact L.
Qed.

Lemma getFramePoints_length top bottom side :
  List.length (FishGeometry.getFramePoints top bottom side)
  = (FishGeometry.divisions + 1)%nat.
Proof. apply getSpacedPoints_length. Qed.

Lemma frameLoop_frames fuel i fs :
  FishGeometry.frameLoop fuel i = Normal fs ->
  Forall (fun f => List.length f = (FishGeometry.divisions + 1)%nat) fs.
Proof.
  revert i fs; induction fuel as [| fuel IH]; intros i fs H; simpl in H.
  - inversion H. constructor.
  - destruct (Rltb i 10).
    + bind_inv H. bind_inv H. inversion H; subst. constructor.
      * unfold FishGeometry.getFrame in Ha. bind_inv Ha. bind_inv Ha. bind_inv Ha.
        inversion Ha; subst. apply getFramePoints_length.
      * eapply IH; eassumption.
    + inversion H. constructor.
Qed.

(** Every frame has [divisions + 1] points. *)
Lemma computeFrames_frames frames :
  FishGeometry.computeFrames = Normal frames ->
  (1 <= List.length frames)%nat /\
  Forall (fun f => List.length f = (FishGeometry.divisions + 1)%nat) frames.
Proof.
  unfold FishGeometry.computeFrames. intros H.
  bind_inv H. bind_inv H. bind_inv H. bind_inv H. inversion H; subst; clear H.
  split; [simpl; lia |].
  constructor; [reflexivity |].
  apply Forall_app. split; [eapply frameLoop_frames; eassumption |].
  constructor; [apply getFramePoints_length | constructor].
Qed.

Lemma concat_length_uniform A (ls : list (list A)) n :
  Forall (fun l => List.length l = n) ls ->
  List.length (concat ls) = (n * List.length ls)%nat.
Proof.
  induction 1 as [| l ls Hl _ IH]; simpl; [lia |].
  rewrite length_app, IH, Hl. lia.
Qed.

(** The six geometries handed to [mergeGeometries] have valid indices. *)
Lemma fishParts_valid gs :
  FishGeometry.fishParts = Normal gs ->
  List.length gs = 6%nat /\ Forall validGeometry gs.
Proof.
  unfold FishGeometry.fishParts. intros H.
  bind_inv H. rename a into frames, Ha into Hframes.
  bind_inv H. rename a into lastFrame, Ha into Hlast.
  bind_inv H. rename a into gTail, Ha into Htail.
  bind_inv H. rename a into gDorsal, Ha into Hdorsal.
  bind_inv H. rename a into gRect, Ha into Hrect.
  bind_inv H. rename a into gPelvic, Ha into Hpelvic.
  inversion H; subst; clear H.
  destruct (computeFrames_frames frames Hframes) as [Hne Hall].
  assert (HlastLen : List.length lastFrame = (FishGeometry.divisions + 1)%nat).
  { destruct (nth_error frames (List.length frames - 1)) as [f |] eqn:E;
      [| discriminate].
    inversion Hlast; subst. apply nth_error_In in E.
    rewrite Forall_forall in Hall. now apply Hall. }
  split; [reflexivity |].
  repeat constructor.
  - apply planeGeometry_valid.
    rewrite (concat_length_uniform _ frames _ Hall).
    replace (List.length frames - 1 + 1)%nat with (List.length frames) by lia.
    reflexivity.
  - now apply (tailGeometry_valid lastFrame).
  - apply (createFin_valid _ _ _ _ Hdorsal). rewrite getSpacedPoints_length. lia.
  - apply (createFin_valid _ _ _ _ Hrect). rewrite getSpacedPoints_length. lia.
  - apply translate_valid, rotateX_valid, translate_valid.
    apply (createFin_valid _ _ _ _ Hpelvic). rewrite getSpacedPoints_length. lia.
  - apply translate_valid, rotateX_valid, translate_valid.
    apply (createFin_valid _ _ _ _ Hpelvic). rewrite getSpacedPoints_length. lia.
Qed.

(** ** Curves: the binary search in general *)

Section SearchRange.

Variable c : CatmullRomCurve3.

Let n := Curve.arcLengthDivisions.

(** The search ends on an index that holds the target, or between the
    lengths below the target and the lengths above it. *)
Lemma search_brackets fuel target low high :
  (0 <= low)%Z -> (high <= Z.of_nat n)%Z -> (low <= high + 1)%Z ->
  (Z.to_nat (high - low + 1) <= fuel)%nat ->
  (forall j, (j < Z.to_nat low)%nat -> cumulated c j < target) ->
  (forall j, (Z.to_nat (high + 1) <= j <= n)%nat -> target < cumulated c j) ->
  let r := Curve.search fuel (Curve.getLengths c) target low high in
  (low - 1 <= r <= high)%Z /\
  ((0 <= r)%Z /\ cumulated c (Z.to_nat r) = target \/
   (forall j, (j < Z.to_nat (r + 1))%nat -> cumulated c j < target) /\
   (forall j, (Z.to_nat (r + 1) <= j <= n)%nat -> target < cumulated c j)).
Proof using Type.
  revert low high; induction fuel as [| fuel IH]; intros low high H0 Hn Hlh Hf Hlo Hhi.
  { cbn [Curve.search]. split; [lia |]. right. split.
    - intros j Hj. apply Hlo. lia.
    - exact Hhi. }
  cbn [Curve.search].
  destruct (low <=? high)%Z eqn:Elh.
  - apply Z.leb_le in Elh.
    set (i := (low + (high - low) / 2)%Z).
    assert (Hi : (low <= i <= high)%Z).
    { unfold i. split.
      - assert (0 <= (high - low) / 2)%Z by (apply Z.div_pos; lia). lia.
      - assert ((high - low) / 2 <= high - low)%Z
          by (apply Z.div_le_upper_bound; lia). lia. }
    rewrite (lengths_at c i) by (fold n; lia).
    destruct (Rltb (cumulated c (Z.to_nat i) - target) 0) eqn:E1.
    + apply Rltb_true in E1.
      destruct (IH (i + 1)%Z high) as [A B]; try lia.
      * intros j Hj.
        assert (M : cumulated c j <= cumulated c (Z.to_nat i))
          by (apply cumulated_mono; lia).
        lra.
      * exact Hhi.
      * split; [lia | exact B].
    + apply Rltb_false in E1.
      destruct (Rltb 0 (cumulated c (Z.to_nat i) - target)) eqn:E2.
      * apply Rltb_true in E2.
        destruct (IH low (i - 1)%Z) as [A B]; try lia.
        -- exact Hlo.
        -- intros j Hj.
           assert (M : cumulated c (Z.to_nat i) <= cumulated c j)
             by (apply cumulated_mono; lia).
           lra.
        -- split; [lia | exact B].
      * apply Rltb_false in E2. split; [lia |]. left. split; [lia | lra].
  - apply Z.leb_gt in Elh. split; [lia |]. right. split.
    + intros j Hj. apply Hlo. lia.
    + exact Hhi.
Qed.

End SearchRange.

(** [getUtoTmapping] maps [[0, 1]] into [[0, 1]]. *)
Lemma getUtoTmapping_range c u :
  0 <= u <= 1 -> 0 <= Curve.getUtoTmapping c u <= 1.
Proof.
  intros Hu. unfold Curve.getUtoTmapping. cbv zeta.
  rewrite getLengths_length.
  replace (S Curve.arcLengthDivisions - 1)%nat with Curve.arcLengthDivisions by lia.
  rewrite (getLengths_nth c Curve.arcLengthDivisions) by lia.
  set (n := Curve.arcLengthDivisions).
  set (target := u * cumulated c n).
  pose proof (cumulated_nonneg c n) as Tn.
  assert (T0 : 0 <= target <= cumulated c n) by (unfold target; nra).
  destruct (search_brackets c (S n) target 0 (Z.of_nat (S n) - 1)) as [A B].
  { lia. }
  { fold n. lia. }
  { lia. }
  { unfold n, Curve.arcLengthDivisions. lia. }
  { intros j Hj. simpl in Hj. lia. }
  { intros j Hj. fold n in Hj. lia. }
  set (r := Curve.search _ _ _ _ _) in *. clearbody r.
  assert (Nn : INR (S n) - 1 = INR n) by (rewrite S_INR; lra).
  assert (Pn : 0 < INR n) by (apply lt_0_INR; unfold n, Curve.arcLengthDivisions; lia).
  rewrite Nn.
  assert (R0 : (0 <= r)%Z).
  { destruct B as [[B _] | [_ B]]; [exact B |].
    destruct (Z_le_gt_dec 0 r) as [G | G]; [exact G | exfalso].
    assert (r = -1)%Z by lia.
    assert (target < cumulated c 0) by (apply B; lia). simpl in *. lra. }
  assert (Rn : (r <= Z.of_nat n)%Z) by lia.
  assert (Ir : 0 <= IZR r <= INR n).
  { split; [apply IZR_le; exact R0 |]. rewrite INR_IZR_INZ. apply IZR_le. exact Rn. }
  rewrite (getLengths_nth c (Z.to_nat r)) by (fold n; lia).
  destruct (Reqb (cumulated c (Z.to_nat r)) target) eqn:E.
  - split.
    + apply Rmult_le_pos; [lra | left; apply Rinv_0_lt_compat; exact Pn].
    + apply Rmult_le_reg_r with (INR n); [exact Pn |].
      unfold Rdiv. rewrite Rmult_assoc, Rinv_l by lra. lra.
  - apply Reqb_false in E.
    destruct B as [[_ B] | [B1 B2]]; [contradiction |].
    assert (Rlt : (r < Z.of_nat n)%Z).
    { destruct (Z_lt_ge_dec r (Z.of_nat n)) as [G | G]; [exact G | exfalso].
      assert (cumulated c n < target) by (apply B1; lia). lra. }
    rewrite (getLengths_nth c (Z.to_nat (r + 1))) by (fold n; lia).
    assert (Lb : cumulated c (Z.to_nat r) < target) by (apply B1; lia).
    assert (La : target < cumulated c (Z.to_nat (r + 1))) by (apply B2; fold n; lia).
    set (before := cumulated c (Z.to_nat r)) in *.
    set (after := cumulated c (Z.to_nat (r + 1))) in *.
    assert (F : 0 <= (target - before) / (after - before) <= 1).
    { split.
      - apply Rmult_le_pos; [lra | left; apply Rinv_0_lt_compat; lra].
      - apply Rmult_le_reg_r with (after - before); [lra |].
        unfold Rdiv. rewrite Rmult_assoc, Rinv_l by lra. lra. }
    assert (I1 : IZR r + 1 <= INR n).
    { rewrite INR_IZR_INZ, <- plus_IZR. apply IZR_le. lia. }
    split.
    + apply Rmult_le_pos; [lra | left; apply Rinv_0_lt_compat; exact Pn].
    + apply Rmult_le_reg_r with (INR n); [exact Pn |].
      unfold Rdiv at 1. rewrite Rmult_assoc, Rinv_l by lra. lra.
Qed.

(** ** Curves: the segment of a parameter in [[0, 1]] *)

Lemma locate_range pts t :
  (2 <= List.length pts)%nat -> 0 <= t <= 1 ->
  (0 <= fst (Curve.locate (mkCurve pts false) t) <= Z.of_nat (List.length pts) - 2)%Z /\
  0 <= snd (Curve.locate (mkCurve pts false) t) <= 1.
Proof.
  intros Hl Ht. unfold Curve.locate; cbn [closed controlPoints].
  set (l := List.length pts) in *.
  assert (Il : 2 <= INR l) by (apply (le_INR 2 l); exact Hl).
  set (p := (INR l - 1) * t).
  assert (Hp : 0 <= p <= INR l - 1) by (unfold p; nra).
  destruct (base_Int_part p) as [B1 B2].
  set (ip := Int_part p) in *. clearbody ip.
  assert (I0 : (0 <= ip)%Z).
  { apply Z.lt_succ_r. apply lt_IZR. rewrite succ_IZR. simpl. lra. }
  assert (I1 : (ip <= Z.of_nat l - 1)%Z).
  { apply le_IZR. rewrite minus_IZR, <- INR_IZR_INZ. simpl. lra. }
  destruct (Reqb (p - IZR ip) 0 && (ip =? Z.of_nat l - 1)%Z) eqn:E; cbn [fst snd].
  - split; [lia | lra].
  - split; [| lra].
    apply andb_false_iff in E. destruct E as [E | E].
    + apply Reqb_false in E.
      destruct (Z.eq_dec ip (Z.of_nat l - 1)) as [Q | Q]; [exfalso | lia].
      apply E. rewrite Q, minus_IZR, <- INR_IZR_INZ in *. simpl in *. lra.
    + apply Z.eqb_neq in E. lia.
Qed.

(** ** Curves: how far a segment leaves its control points *)

Lemma pow025_pos x : 0 < x -> 0 < Curve.pow025 x.
Proof. intros H. unfold Curve.pow025. apply sqrt_lt_R0, sqrt_lt_R0, H. Qed.

Lemma pow025_16 x : 0 <= x -> Curve.pow025 (16 * x) = 2 * Curve.pow025 x.
Proof.
  intros H. unfold Curve.pow025.
  rewrite sqrt_mult by lra.
  replace 16 with (4 * 4) by lra. rewrite sqrt_square by lra.
  rewrite sqrt_mult by (try lra; apply sqrt_pos).
  replace 4 with (2 * 2) by lra. rewrite sqrt_square by lra. reflexivity.
Qed.

Lemma pow025_le x y : 0 <= x -> x <= y -> Curve.pow025 x <= Curve.pow025 y.
Proof.
  intros H0 H. unfold Curve.pow025. apply sqrt_le_1_alt, sqrt_le_1_alt, H.
Qed.

(** A squared distance of at least 1/16 is far from the threshold under
    which the library replaces a knot interval. *)
Lemma pow025_large x : / 16 <= x -> / 2 <= Curve.pow025 x.
Proof.
  intros H.
  replace (/ 2) with (Curve.pow025 (/ 16)); [apply pow025_le; lra |].
  assert (E : Curve.pow025 (16 * / 16) = 2 * Curve.pow025 (/ 16))
    by (apply pow025_16; lra).
  replace (16 * / 16) with 1 in E by lra.
  unfold Curve.pow025 in E at 1. rewrite !sqrt_1 in E. lra.
Qed.

(** The two basis functions that weigh the tangents. *)
Lemma hermite_10 w : 0 <= w <= 1 -> 0 <= w * w * w - 2 * (w * w) + w <= 4 / 27.
Proof.
  intros H.
  assert (0 <= w * ((1 - w) * (1 - w)))
    by (apply Rmult_le_pos; [lra | apply Rle_0_sqr]).
  assert (0 <= (3 * w - 1) * (3 * w - 1) * (4 - 3 * w))
    by (apply Rmult_le_pos; [apply Rle_0_sqr | lra]).
  lra.
Qed.

Lemma hermite_11 w : 0 <= w <= 1 -> - (4 / 27) <= w * w * w - w * w <= 0.
Proof.
  intros H.
  assert (0 <= w * w * (1 - w)) by (apply Rmult_le_pos; [apply Rle_0_sqr | lra]).
  assert (0 <= (3 * w - 2) * (3 * w - 2) * (3 * w + 1))
    by (apply Rmult_le_pos; [apply Rle_0_sqr | lra]).
  lra.
Qed.

(** One coordinate of a segment whose control values increase stays near the
    two values it joins, when neither neighbouring knot interval is less than
    half the interval of the segment. *)
Lemma nonuniform_bound x0 x1 x2 x3 dt0 dt1 dt2 w :
  0 < dt0 -> 0 < dt1 -> 0 < dt2 -> dt1 <= 2 * dt0 -> dt1 <= 2 * dt2 ->
  x0 <= x1 -> x1 <= x2 -> x2 <= x3 -> 0 <= w <= 1 ->
  x1 - 8 / 27 * (x3 - x0)
  <= Curve.calc (Curve.initNonuniformCatmullRom x0 x1 x2 x3 dt0 dt1 dt2) w
  <= x2 + 8 / 27 * (x3 - x0).
Proof.
  intros P0 P1 P2 A0 A2 X01 X12 X23 Hw.
  set (r0 := dt1 / dt0). set (s0 := dt1 / (dt0 + dt1)).
  set (r2 := dt1 / dt2). set (s2 := dt1 / (dt1 + dt2)).
  assert (Hr0 : 0 <= r0 <= 2).
  { unfold r0. split.
    - apply Rmult_le_pos; [lra | left; apply Rinv_0_lt_compat; lra].
    - apply Rmult_le_reg_r with dt0; [lra |].
      unfold Rdiv. rewrite Rmult_assoc, Rinv_l by lra. lra. }
  assert (Hr2 : 0 <= r2 <= 2).
  { unfold r2. split.
    - apply Rmult_le_pos; [lra | left; apply Rinv_0_lt_compat; lra].
    - apply Rmult_le_reg_r with dt2; [lra |].
      unfold Rdiv. rewrite Rmult_assoc, Rinv_l by lra. lra. }
  assert (Hs0 : 0 <= s0 <= 1).
  { unfold s0. split.
    - apply Rmult_le_pos; [lra | left; apply Rinv_0_lt_compat; lra].
    - apply Rmult_le_reg_r with (dt0 + dt1); [lra |].
      unfold Rdiv. rewrite Rmult_assoc, Rinv_l by lra. lra. }
  assert (Hs2 : 0 <= s2 <= 1).
  { unfold s2. split.
    - apply Rmult_le_pos; [lra | left; apply Rinv_0_lt_compat; lra].
    - apply Rmult_le_reg_r with (dt1 + dt2); [lra |].
      unfold Rdiv. rewrite Rmult_assoc, Rinv_l by lra. lra. }
  set (t1 := (x1 - x0) * r0 - (x2 - x0) * s0 + (x2 - x1)).
  set (t2 := (x2 - x1) - (x3 - x1) * s2 + (x3 - x2) * r2).
  assert (E : Curve.calc (Curve.initNonuniformCatmullRom x0 x1 x2 x3 dt0 dt1 dt2) w
              = x1 + (x2 - x1) * (3 * (w * w) - 2 * (w * w * w))
                + t1 * (w * w * w - 2 * (w * w) + w) + t2 * (w * w * w - w * w)).
  { unfold Curve.calc, Curve.initNonuniformCatmullRom, Curve.init; cbn [c0 c1 c2 c3].
    unfold t1, t2, r0, s0, r2, s2. field. repeat split; lra. }
  rewrite E. clear E.
  pose proof (hermite_10 w Hw) as H10. pose proof (hermite_11 w Hw) as H11.
  set (h10 := w * w * w - 2 * (w * w) + w) in *.
  set (h11 := w * w * w - w * w) in *.
  assert (H01 : 0 <= 3 * (w * w) - 2 * (w * w * w) <= 1).
  { assert (0 <= w * w * (3 - 2 * w))
      by (apply Rmult_le_pos; [apply Rle_0_sqr | lra]).
    assert (0 <= (1 - w) * (1 - w) * (1 + 2 * w))
      by (apply Rmult_le_pos; [apply Rle_0_sqr | lra]).
    lra. }
  set (h01 := 3 * (w * w) - 2 * (w * w * w)) in *.
  assert (T1 : - (x1 - x0) <= t1 <= 2 * (x1 - x0) + (x2 - x1)).
  { pose proof (Rmult_le_pos (x1 - x0) r0) as Q1.
    pose proof (Rmult_le_pos (x1 - x0) (2 - r0)) as Q2.
    pose proof (Rmult_le_pos (x2 - x0) s0) as Q3.
    pose proof (Rmult_le_pos (x2 - x0) (1 - s0)) as Q4.
    unfold t1. lra. }
  assert (T2 : - (x3 - x2) <= t2 <= (x2 - x1) + 2 * (x3 - x2)).
  { pose proof (Rmult_le_pos (x3 - x2) r2) as Q1.
    pose proof (Rmult_le_pos (x3 - x2) (2 - r2)) as Q2.
    pose proof (Rmult_le_pos (x3 - x1) s2) as Q3.
    pose proof (Rmult_le_pos (x3 - x1) (1 - s2)) as Q4.
    unfold t2. lra. }
  clearbody t1 t2 h10 h11 h01.
  pose proof (Rmult_le_pos (x2 - x1) h01) as Q1.
  pose proof (Rmult_le_pos (x2 - x1) (1 - h01)) as Q2.
  pose proof (Rmult_le_pos (t1 + (x1 - x0)) h10) as Q3.
  pose proof (Rmult_le_pos (2 * (x1 - x0) + (x2 - x1) - t1) h10) as Q4.
  pose proof (Rmult_le_pos (t2 + (x3 - x2)) (- h11)) as Q5.
  pose proof (Rmult_le_pos ((x2 - x1) + 2 * (x3 - x2) - t2) (- h11)) as Q6.
  pose proof (Rmult_le_pos (x1 - x0) (4 / 27 - h10)) as Q7.
  pose proof (Rmult_le_pos (2 * (x1 - x0) + (x2 - x1)) (4 / 27 - h10)) as Q8.
  pose proof (Rmult_le_pos (x3 - x2) (4 / 27 + h11)) as Q9.
  pose proof (Rmult_le_pos ((x2 - x1) + 2 * (x3 - x2)) (4 / 27 + h11)) as Q10.
  split; lra.
Qed.

Lemma interpolate_x_bound p0 p1 p2 p3 w :
  / 16 <= V3.distanceToSquared p0 p1 ->
  / 16 <= V3.distanceToSquared p1 p2 ->
  / 16 <= V3.distanceToSquared p2 p3 ->
  V3.distanceToSquared p1 p2 <= 16 * V3.distanceToSquared p0 p1 ->
  V3.distanceToSquared p1 p2 <= 16 * V3.distanceToSquared p2 p3 ->
  vx p0 <= vx p1 -> vx p1 <= vx p2 -> vx p2 <= vx p3 -> 0 <= w <= 1 ->
  vx p1 - 8 / 27 * (vx p3 - vx p0)
  <= vx (Curve.interpolate p0 p1 p2 p3 w)
  <= vx p2 + 8 / 27 * (vx p3 - vx p0).
Proof.
  intros D0 D1 D2 A0 A2 X01 X12 X23 Hw.
  pose proof (pow025_large _ D0) as L0.
  pose proof (pow025_large _ D1) as L1.
  pose proof (pow025_large _ D2) as L2.
  assert (B0 : Curve.pow025 (V3.distanceToSquared p1 p2)
               <= 2 * Curve.pow025 (V3.distanceToSquared p0 p1)).
  { rewrite <- pow025_16 by lra. apply pow025_le; lra. }
  assert (B2 : Curve.pow025 (V3.distanceToSquared p1 p2)
               <= 2 * Curve.pow025 (V3.distanceToSquared p2 p3)).
  { rewrite <- pow025_16 by lra. apply pow025_le; lra. }
  unfold Curve.interpolate. cbv zeta.
  set (dt0 := Curve.pow025 (V3.distanceToSquared p0 p1)) in *.
  set (dt1 := Curve.pow025 (V3.distanceToSquared p1 p2)) in *.
  set (dt2 := Curve.pow025 (V3.distanceToSquared p2 p3)) in *.
  clearbody dt0 dt1 dt2.
  replace (Rltb dt1 1e-4) with false by (symmetry; apply Rltb_false; lra).
  replace (Rltb dt0 1e-4) with false by (symmetry; apply Rltb_false; lra).
  replace (Rltb dt2 1e-4) with false by (symmetry; apply Rltb_false; lra).
  cbn [vx]. apply nonuniform_bound; lra.
Qed.

Lemma segment_x_range lo hi p0 p1 p2 p3 w :
  / 16 <= V3.distanceToSquared p0 p1 ->
  / 16 <= V3.distanceToSquared p1 p2 ->
  / 16 <= V3.distanceToSquared p2 p3 ->
  V3.distanceToSquared p1 p2 <= 16 * V3.distanceToSquared p0 p1 ->
  V3.distanceToSquared p1 p2 <= 16 * V3.distanceToSquared p2 p3 ->
  vx p0 <= vx p1 -> vx p1 <= vx p2 -> vx p2 <= vx p3 ->
  lo <= vx p1 - 8 / 27 * (vx p3 - vx p0) ->
  vx p2 + 8 / 27 * (vx p3 - vx p0) <= hi ->
  0 <= w <= 1 ->
  lo <= vx (Curve.interpolate p0 p1 p2 p3 w) <= hi.
Proof.
  intros D0 D1 D2 A0 A2 X01 X12 X23 Hlo Hhi Hw.
  pose proof (interpolate_x_bound p0 p1 p2 p3 w D0 D1 D2 A0 A2 X01 X12 X23 Hw). lra.
Qed.

Ltac segment_range :=
  apply segment_x_range;
  [ unfold V3.distanceToSquared, V3.add, V3.sub; cbn [vx vy vz]; lra .. | assumption ].

(** Every point of the contour of the dorsal fin lies over the body. *)
Lemma dorsal_x_range t :
  0 <= t <= 1 -> 0 <= vx (Curve.getPoint FishGeometry.dorsalCurve t) <= 10.
Proof.
  intros Ht. unfold Curve.getPoint.
  destruct (locate_range (controlPoints FishGeometry.dorsalCurve) t) as [Hk Hw];
    [simpl; lia | exact Ht |].
  change (mkCurve (controlPoints FishGeometry.dorsalCurve) false)
    with FishGeometry.dorsalCurve in Hk, Hw.
  destruct (Curve.locate FishGeometry.dorsalCurve t) as [k w]. cbn [fst snd] in Hk, Hw.
  change (Z.of_nat (List.length (controlPoints FishGeometry.dorsalCurve))) with 5%Z in Hk.
  assert (K : (k = 0 \/ k = 1 \/ k = 2 \/ k = 3)%Z) by lia.
  destruct K as [-> | [-> | [-> | ->]]].
  - change (Curve.neighbours FishGeometry.dorsalCurve 0)
      with (V3.add (V3.sub (vec3 3 1.45 0) (vec3 3.25 2.25 0)) (vec3 3 1.45 0),
            vec3 3 1.45 0, vec3 3.25 2.25 0, vec3 3.75 3 0).
    segment_range.
  - change (Curve.neighbours FishGeometry.dorsalCurve 1)
      with (vec3 3 1.45 0, vec3 3.25 2.25 0, vec3 3.75 3 0, vec3 6 2 0).
    segment_range.
  - change (Curve.neighbours FishGeometry.dorsalCurve 2)
      with (vec3 3.25 2.25 0, vec3 3.75 3 0, vec3 6 2 0, vec3 7 1 0).
    segment_range.
  - change (Curve.neighbours FishGeometry.dorsalCurve 3)
      with (vec3 3.75 3 0, vec3 6 2 0, vec3 7 1 0,
            V3.add (V3.sub (vec3 7 1 0) (vec3 6 2 0)) (vec3 7 1 0)).
    segment_range.
Qed.

(** Every point of the contour of the anal fin lies under the body. *)
Lemma rect_x_range t :
  0 <= t <= 1 -> 0 <= vx (Curve.getPoint FishGeometry.rectCurve t) <= 10.
Proof.
  intros Ht. unfold Curve.getPoint.
  destruct (locate_range (controlPoints FishGeometry.rectCurve) t) as [Hk Hw];
    [simpl; lia | exact Ht |].
  change (mkCurve (controlPoints FishGeometry.rectCurve) false)
    with FishGeometry.rectCurve in Hk, Hw.
  destruct (Curve.locate FishGeometry.rectCurve t) as [k w]. cbn [fst snd] in Hk, Hw.
  change (Z.of_nat (List.length (controlPoints FishGeometry.rectCurve))) with 3%Z in Hk.
  assert (K : (k = 0 \/ k = 1)%Z) by lia.
  destruct K as [-> | ->].
  - change (Curve.neighbours FishGeometry.rectCurve 0)
      with (V3.add (V3.sub (vec3 6 (-0.9) 0) (vec3 7.25 (-1.5) 0)) (vec3 6 (-0.9) 0),
            vec3 6 (-0.9) 0, vec3 7.25 (-1.5) 0, vec3 7.5 (-0.75) 0).
    segment_range.
  - change (Curve.neighbours FishGeometry.rectCurve 1)
      with (vec3 6 (-0.9) 0, vec3 7.25 (-1.5) 0, vec3 7.5 (-0.75) 0,
            V3.add (V3.sub (vec3 7.5 (-0.75) 0) (vec3 7.25 (-1.5) 0)) (vec3 7.5 (-0.75) 0)).
    segment_range.
Qed.

(** Every point of the contour of a pelvic fin lies under the body. *)
Lemma pelvic_x_range t :
  0 <= t <= 1 -> 0 <= vx (Curve.getPoint FishGeometry.pelvicCurve t) <= 10.
Proof.
  intros Ht. unfold Curve.getPoint.
  destruct (locate_range (controlPoints FishGeometry.pelvicCurve) t) as [Hk Hw];
    [simpl; lia | exact Ht |].
  change (mkCurve (controlPoints FishGeometry.pelvicCurve) false)
    with FishGeometry.pelvicCurve in Hk, Hw.
  destruct (Curve.locate FishGeometry.pelvicCurve t) as [k w]. cbn [fst snd] in Hk, Hw.
  change (Z.of_nat (List.length (controlPoints FishGeometry.pelvicCurve))) with 3%Z in Hk.
  assert (K : (k = 0 \/ k = 1)%Z) by lia.
  destruct K as [-> | ->].
  - change (Curve.neighbours FishGeometry.pelvicCurve 0)
      with (V3.add (V3.sub (vec3 2.25 (-0.7) 0) (vec3 3.75 (-2) 0)) (vec3 2.25 (-0.7) 0),
            vec3 2.25 (-0.7) 0, vec3 3.75 (-2) 0, vec3 4 (-1) 0).
    segment_range.
  - change (Curve.neighbours FishGeometry.pelvicCurve 1)
      with (vec3 2.25 (-0.7) 0, vec3 3.75 (-2) 0, vec3 4 (-1) 0,
            V3.add (V3.sub (vec3 4 (-1) 0) (vec3 3.75 (-2) 0)) (vec3 4 (-1) 0)).
    segment_range.
Qed.

(** The points of [getSpacedPoints] are points of the curve at parameters in
    [[0, 1]]. *)
Lemma getSpacedPoints_x_range c S lo hi :
  (forall t, 0 <= t <= 1 -> lo <= vx (Curve.getPoint c t) <= hi) ->
  (1 <= S)%nat ->
  forall p, In p (Curve.getSpacedPoints c S) -> lo <= vx p <= hi.
Proof.
  intros Hc HS p Hp. unfold Curve.getSpacedPoints in Hp.
  apply in_map_iff in Hp. destruct Hp as (d & <- & Hd). apply in_seq in Hd.
  unfold Curve.getPointAt. apply Hc, getUtoTmapping_range.
  assert (PS : 0 < INR S) by (apply lt_0_INR; lia).
  assert (D : 0 <= INR d <= INR S) by (split; [apply pos_INR | apply le_INR; lia]).
  split.
  - apply Rmult_le_pos; [lra | left; apply Rinv_0_lt_compat; exact PS].
  - apply Rmult_le_reg_r with (INR S); [exact PS |].
    unfold Rdiv. rewrite Rmult_assoc, Rinv_l by lra. lra.
Qed.

(** ** fish.js: lookups that find a point *)

(** A query between the [x] of the first point and the [x] of the last one
    is bracketed by two consecutive points. *)
Lemma getPoint_bracket pts x :
  (2 <= List.length pts)%nat ->
  vx (nth 0 pts V3.zero) <= x <= vx (nth (List.length pts - 1) pts V3.zero) ->
  exists v, FishGeometry.getPoint pts x = Normal (Some v).
Proof.
  induction pts as [| i1 rest IH]; intros Hl Hx; [simpl in Hl; lia |].
  destruct rest as [| i2 rest']; [simpl in Hl; lia |].
  cbn [FishGeometry.getPoint].
  cbn [nth] in Hx.
  replace (List.length (i1 :: i2 :: rest') - 1)%nat with (S (List.length rest'))
    in Hx by (simpl; lia).
  cbn [nth] in Hx.
  replace (Rleb (vx i1) x) with true by (symmetry; apply Rleb_true; lra).
  cbn [andb].
  destruct (Rleb x (vx i2)) eqn:E; [eexists; reflexivity |].
  apply Rleb_false in E.
  apply IH.
  - destruct rest' as [| i3 rest'']; [simpl in Hx; lra | simpl; lia].
  - cbn [nth]. replace (List.length (i2 :: rest') - 1)%nat with (List.length rest')
      by (simpl; lia).
    lra.
Qed.

Lemma getPointDefined_bracket pts x :
  (2 <= List.length pts)%nat ->
  vx (nth 0 pts V3.zero) <= x <= vx (nth (List.length pts - 1) pts V3.zero) ->
  exists v, FishGeometry.getPointDefined pts x = Normal v.
Proof.
  intros Hl Hx. destruct (getPoint_bracket pts x Hl Hx) as [v E].
  exists v. unfold FishGeometry.getPointDefined. rewrite E. reflexivity.
Qed.

(** The three shaping polylines run from [x = 0] to [x = 10]. *)
Lemma shaping_lookup pts x :
  (2 <= List.length pts)%nat ->
  vx (nth 0 pts V3.zero) = 0 -> vx (nth (List.length pts - 1) pts V3.zero) = 10 ->
  0 <= x <= 10 ->
  exists v,
    FishGeometry.getPointDefined (Curve.getSpacedPoints (mkCurve pts false) 100) x
    = Normal v.
Proof.
  intros Hl H0 H1 Hx.
  destruct (getSpacedPoints_ends pts 100 Hl) as [E0 E1]; [lia |].
  apply getPointDefined_bracket.
  - rewrite getSpacedPoints_length. lia.
  - rewrite getSpacedPoints_length.
    replace (100 + 1 - 1)%nat with 100%nat by lia.
    rewrite E0, E1, H0, H1. exact Hx.
Qed.

Lemma topPoints_lookup x :
  0 <= x <= 10 -> exists v, FishGeometry.getPointDefined FishGeometry.topPoints x = Normal v.
Proof.
  apply (shaping_lookup (controlPoints FishGeometry.topCurve));
    [simpl; lia | reflexivity | reflexivity].
Qed.

Lemma bottomPoints_lookup x :
  0 <= x <= 10 ->
  exists v, FishGeometry.getPointDefined FishGeometry.bottomPoints x = Normal v.
Proof.
  apply (shaping_lookup (controlPoints FishGeometry.bottomCurve));
    [simpl; lia | reflexivity | reflexivity].
Qed.

Lemma sidePoints_lookup x :
  0 <= x <= 10 ->
  exists v, FishGeometry.getPointDefined FishGeometry.sidePoints x = Normal v.
Proof.
  apply (shaping_lookup (controlPoints FishGeometry.sideCurve));
    [simpl; lia | reflexivity | reflexivity].
Qed.

(** ** Mesh assembly: the calls return *)

Lemma mapM_returns A B (f : A -> Completion B) l :
  (forall a, In a l -> exists b, f a = Normal b) ->
  exists bs, mapM f l = Normal bs.
Proof.
  induction l as [| a l IH]; intros H; simpl; [eexists; reflexivity |].
  destruct (H a) as [b Eb]; [now left |].
  destruct IH as [bs Ebs]; [intros; apply H; now right |].
  rewrite Eb, Ebs. simpl. eexists; reflexivity.
Qed.

Lemma element_returns l k :
  (k < List.length l)%nat -> exists v, FishGeometry.element l k = Normal v.
Proof.
  intros H. unfold FishGeometry.element.
  destruct (nth_error l k) as [v |] eqn:E; [eexists; reflexivity |].
  apply nth_error_None in E. lia.
Qed.

Lemma getFrame_returns x :
  0 <= x <= 10 -> exists f, FishGeometry.getFrame x = Normal f.
Proof.
  intros Hx. unfold FishGeometry.getFrame.
  destruct (topPoints_lookup x Hx) as [t ->].
  destruct (bottomPoints_lookup x Hx) as [b ->].
  destruct (sidePoints_lookup x Hx) as [s ->].
  simpl. eexists; reflexivity.
Qed.

Lemma frameLoop_returns fuel i :
  0 <= i -> exists fs, FishGeometry.frameLoop fuel i = Normal fs.
Proof.
  revert i; induction fuel as [| fuel IH]; intros i Hi; cbn [FishGeometry.frameLoop];
    [eexists; reflexivity |].
  destruct (Rltb i 10) eqn:E; [| eexists; reflexivity].
  apply Rltb_true in E.
  destruct (getFrame_returns i) as [f ->]; [lra |].
  destruct (IH (i + FishGeometry.step)) as [fs ->];
    [unfold FishGeometry.step; lra |].
  simpl. eexists; reflexivity.
Qed.

Lemma computeFrames_returns : exists frames, FishGeometry.computeFrames = Normal frames.
Proof.
  unfold FishGeometry.computeFrames. cbv zeta.
  destruct (frameLoop_returns 200 FishGeometry.step) as [fs ->];
    [unfold FishGeometry.step; lra |].
  destruct (element_returns FishGeometry.topPoints 100) as [t ->];
    [unfold FishGeometry.topPoints; rewrite getSpacedPoints_length; lia |].
  destruct (element_returns FishGeometry.bottomPoints 100) as [b ->];
    [unfold FishGeometry.bottomPoints; rewrite getSpacedPoints_length; lia |].
  destruct (element_returns FishGeometry.sidePoints 100) as [s ->];
    [unfold FishGeometry.sidePoints; rewrite getSpacedPoints_length; lia |].
  cbn [bind]. eexists; reflexivity.
Qed.

Lemma tailGeometry_returns lastFrame :
  List.length lastFrame = (FishGeometry.divisions + 1)%nat ->
  exists g, FishGeometry.tailGeometry lastFrame = Normal g.
Proof.
  intros HL. unfold FishGeometry.tailGeometry. cbv zeta.
  set (full := Curve.getPoints _ _ ++ _).
  assert (Lf : List.length full = List.length lastFrame).
  { unfold full. rewrite length_app, tl_rev_length, getPoints_length, HL.
    unfold FishGeometry.divisions. reflexivity. }
  clearbody full.
  match goal with
  | |- exists g, bind (mapM ?f ?l) _ = _ => destruct (mapM_returns _ _ f l) as [rows ->]
  end.
  - intros i _. apply mapM_returns. intros [k p] Hin. cbn [fst snd].
    apply in_combine_l in Hin. apply in_seq in Hin.
    destruct (element_returns full k) as [q ->]; [lia |].
    simpl. eexists; reflexivity.
  - cbn [bind]. eexists; reflexivity.
Qed.

Lemma createFin_returns basePoints contourPoints isTop :
  (forall p, In p contourPoints ->
             exists v, FishGeometry.getPointDefined basePoints (vx p) = Normal v) ->
  exists g, FishGeometry.createFin basePoints contourPoints isTop = Normal g.
Proof.
  intros H. unfold FishGeometry.createFin. cbv zeta.
  match goal with
  | |- exists g, bind (mapM ?f ?l) _ = _ => destruct (mapM_returns _ _ f l) as [base ->]
  end.
  - intros p Hp. destruct (H p Hp) as [v ->]. simpl. eexists; reflexivity.
  - cbn [bind]. eexists; reflexivity.
Qed.

Lemma fishParts_returns : exists gs, FishGeometry.fishParts = Normal gs.
Proof.
  unfold FishGeometry.fishParts.
  destruct computeFrames_returns as [frames Hf]. rewrite Hf. cbn [bind].
  destruct (computeFrames_frames frames Hf) as [Hne Hall].
  destruct (nth_error frames (List.length frames - 1)) as [lastFrame |] eqn:E.
  2:{ apply nth_error_None in E. lia. }
  cbn [bind].
  assert (HL : List.length lastFrame = (FishGeometry.divisions + 1)%nat).
  { apply nth_error_In in E. rewrite Forall_forall in Hall. now apply Hall. }
  destruct (tailGeometry_returns lastFrame HL) as [gTail ->]. cbn [bind].
  destruct (createFin_returns FishGeometry.topPoints
              (Curve.getSpacedPoints FishGeometry.dorsalCurve 100) true) as [gDorsal ->].
  { intros p Hp. apply topPoints_lookup.
    apply (getSpacedPoints_x_range FishGeometry.dorsalCurve 100 0 10 dorsal_x_range);
      [lia | exact Hp]. }
  cbn [bind].
  destruct (createFin_returns FishGeometry.bottomPoints
              (Curve.getSpacedPoints FishGeometry.rectCurve 40) false) as [gRect ->].
  { intros p Hp. apply bottomPoints_lookup.
    apply (getSpacedPoints_x_range FishGeometry.rectCurve 40 0 10 rect_x_range);
      [lia | exact Hp]. }
  cbn [bind].
  destruct (createFin_returns FishGeometry.bottomPoints
              (Curve.getSpacedPoints FishGeometry.pelvicCurve 40) false) as [gPelvic ->].
  { intros p Hp. apply bottomPoints_lookup.
    apply (getSpacedPoints_x_range FishGeometry.pelvicCurve 40 0 10 pelvic_x_range);
      [lia | exact Hp]. }
  cbn [bind]. eexists; reflexivity.
Qed.

Lemma createFishGeometry_returns : exists g, FishGeometry.createFishGeometry = Normal g.
Proof.
  unfold FishGeometry.createFishGeometry.
  destruct fishParts_returns as [gs ->]. cbn [bind]. eexists; reflexivity.
Qed.

(** C8.  [createFishGeometry] returns; the mesh it returns is the merge of
    the body and the five fin sub-meshes, its number of vertices is the sum of
    theirs, and every entry of its index is below that number. *)
Theorem merged_mesh_counts :
  exists (g body tail dorsal rect pelvicL pelvicR : BufferGeometry),
    FishGeometry.createFishGeometry = Normal g /\
    FishGeometry.fishParts = Normal [body; tail; dorsal; rect; pelvicL; pelvicR] /\
    g = Three.mergeGeometries [body; tail; dorsal; rect; pelvicL; pelvicR] /\
    Three.vertexCount g =
      (Three.vertexCount body + Three.vertexCount tail + Three.vertexCount dorsal +
       Three.vertexCount rect + Three.vertexCount pelvicL +
       Three.vertexCount pelvicR)%nat /\
    Forall (fun i => (i < Three.vertexCount g)%nat) (indices g).
Proof.
  destruct fishParts_returns as [gs Hgs].
  destruct (fishParts_valid gs Hgs) as [L V].
  destruct gs as [| body [| tail [| dorsal [| rect [| pelvicL [| pelvicR [| ? ?]]]]]]];
    try discriminate.
  exists (Three.mergeGeometries [body; tail; dorsal; rect; pelvicL; pelvicR]).
  exists body, tail, dorsal, rect, pelvicL, pelvicR.
  destruct (mergeGeometries_valid _ V) as [C I].
  split; [unfold FishGeometry.createFishGeometry; rewrite Hgs; reflexivity |].
  split; [exact Hgs |]. split; [reflexivity |]. split; [| exact I].
  rewrite C. simpl. lia.
Qed.

(* ================================================================== *)
(** * Further properties of the sources *)

(** ** Water: what a step leaves alone *)

(** X1.  [updateWaterPhysics] keeps the size of both arrays and never writes
    a cell of the border of the grid ([x] or [z] equal to 0 or 63): its
    height and its velocity are what they were. *)
Theorem water_border_is_never_written :
  forall (delta : R) (g : Water.Grid),
    gridOk g ->
    gridOk (Water.updateWaterPhysics delta g) /\
    forall x z, (x = 0 \/ 63 <= x \/ z = 0 \/ 63 <= z)%nat ->
      hAt (Water.updateWaterPhysics delta g) x z = hAt g x z /\
      vAt (Water.updateWaterPhysics delta g) x z = vAt g x z.
Proof.
  intros delta g Ok. split; [now apply updateWaterPhysics_ok |].
  intros x z Hb. apply cellOf_inv.
  apply updateWaterPhysics_edge; [exact Ok | lia].
Qed.

Lemma water_border_witness :
  let g := Water.disturbWater 0 0 1 Water.initialGrid in
  gridOk (Water.updateWaterPhysics (1 / 60) g) /\
  forall x z, (x = 0 \/ 63 <= x \/ z = 0 \/ 63 <= z)%nat ->
    hAt (Water.updateWaterPhysics (1 / 60) g) x z = hAt g x z /\
    vAt (Water.updateWaterPhysics (1 / 60) g) x z = vAt g x z.
Proof.
  intros g.
  apply (water_border_is_never_written (1 / 60) g).
  destruct (impulse_grid 0 0 32 32 gridIndex_centre_x gridIndex_centre_z) as (Ok & _);
    [lia | lia | exact Ok].
Defined.

(** A flat surface at rest, cell by cell in the order of the sweep. *)
Lemma flat_water_upto delta c g n :
  gridOk g ->
  (forall x z, (x < 64)%nat -> (z < 64)%nat -> hAt g x z = c) ->
  (forall x z, (x < 64)%nat -> (z < 64)%nat -> vAt g x z = 0) ->
  forall x z, (x + z <= n)%nat -> (x < 64)%nat -> (z < 64)%nat ->
    hAt (Water.updateWaterPhysics delta g) x z = c /\
    vAt (Water.updateWaterPhysics delta g) x z = 0.
Proof.
  intros Ok Hh Hv.
  assert (Edge : forall x z, (x < 64)%nat -> (z < 64)%nat ->
                  ~ (1 <= x <= 62 /\ 1 <= z <= 62)%nat ->
                  hAt (Water.updateWaterPhysics delta g) x z = c /\
                  vAt (Water.updateWaterPhysics delta g) x z = 0).
  { intros x z Hx Hz Hb.
    destruct (cellOf_inv _ _ _ _ _ _ (updateWaterPhysics_edge delta g x z Ok Hb))
      as [E1 E2].
    rewrite E1, E2. split; [apply Hh | apply Hv]; lia. }
  induction n as [| n IH]; intros x z Hn Hx Hz.
  - apply Edge; lia.
  - destruct (le_dec (x + z) n) as [L | L]; [now apply IH |].
    assert (D : (1 <= x <= 62 /\ 1 <= z <= 62)%nat \/
                ~ (1 <= x <= 62 /\ 1 <= z <= 62)%nat) by lia.
    destruct D as [D | D]; [| now apply Edge].
    destruct (updateWaterPhysics_interior delta g x z Ok) as [Ev Eh]; [lia | lia |].
    destruct (IH (x - 1)%nat z) as [A _]; [lia | lia | lia |].
    destruct (IH x (z - 1)%nat) as [B _]; [lia | lia | lia |].
    rewrite A, B, !Hh, Hv in Ev by lia.
    assert (V0 : vAt (Water.updateWaterPhysics delta g) x z = 0)
      by (rewrite Ev; unfold Water.WAVE_SPEED, Water.DAMPING; lra).
    split; [| exact V0]. rewrite Eh, V0, Hh by lia. lra.
Qed.

(** X2.  A flat surface at rest is a fixed point of the solver: when every
    height is [c] and every velocity is zero, they still are after a step,
    whatever the time step. *)
Theorem flat_water_stays_flat :
  forall (delta c : R) (g : Water.Grid),
    gridOk g ->
    (forall x z, (x < 64)%nat -> (z < 64)%nat -> hAt g x z = c /\ vAt g x z = 0) ->
    forall x z, (x < 64)%nat -> (z < 64)%nat ->
      hAt (Water.updateWaterPhysics delta g) x z = c /\
      vAt (Water.updateWaterPhysics delta g) x z = 0.
Proof.
  intros delta c g Ok H x z Hx Hz.
  apply (flat_water_upto delta c g (x + z) Ok); try lia.
  - intros x' z' Hx' Hz'. now apply H.
  - intros x' z' Hx' Hz'. now apply H.
Qed.

Lemma flat_water_witness :
  hAt (Water.updateWaterPhysics (1 / 60) Water.initialGrid) 10 20 = 0 /\
  vAt (Water.updateWaterPhysics (1 / 60) Water.initialGrid) 10 20 = 0.
Proof.
  apply (flat_water_stays_flat (1 / 60) 0 Water.initialGrid initialGrid_ok);
    [| lia | lia].
  intros x z _ _. unfold hAt, vAt, Water.initialGrid; cbn [Water.waterHeights Water.waterVelocities].
  split; apply read_repeat.
Defined.

(** ** Water: where a disturbance lands *)

(** The index is the integer part of the position counted in cells. *)
Lemma gridIndex_floor world size res :
  IZR (Water.gridIndex world size res) <= (world / size + 0.5) * INR res
  < IZR (Water.gridIndex world size res) + 1.
Proof.
  unfold Water.gridIndex.
  destruct (base_Int_part ((world / size + 0.5) * INR res)) as [B1 B2]. lra.
Qed.

(** The test of [disturbWater] passes for the interior indices only. *)
Lemma disturbWater_guard (zx zz : Z) :
  ((0 <? zx) && (zx <? Z.of_nat Water.WATER_RES_X - 1) &&
   (0 <? zz) && (zz <? Z.of_nat Water.WATER_RES_Z - 1))%Z = true
  <-> (1 <= zx <= 62 /\ 1 <= zz <= 62)%Z.
Proof.
  unfold Water.WATER_RES_X, Water.WATER_RES_Z.
  rewrite !andb_true_iff, !Z.ltb_lt. lia.
Qed.

(** The position counted in cells, against the middle of a cell. *)
Lemma cellCentre_offset world size (i : nat) :
  0 < size ->
  world - cellCentre size 64 i =
  ((world / size + 0.5) * INR 64 - INR i - 0.5) * (cellWidth size 64).
Proof.
  intros Hs. unfold cellCentre, cellWidth.
  assert (H64 : INR 64 = 64) by (rewrite INR_IZR_INZ; reflexivity).
  rewrite H64. field. lra.
Qed.

(** X3.  [disturbWater] changes no height, and at most one velocity: either
    the call changes nothing, or it adds [strength] to the velocity of one
    interior cell (1..62 on both axes, never a border cell), the cell whose
    square contains the point.  It does the latter for a point that is more
    than a cell away from the walls of the tank, and the former for a point
    closer to a wall than a cell or outside the tank.  The tolerance of
    [10^-9] leaves out the points within rounding of a cell boundary, where
    the index computed in doubles may be that of the next cell. *)
Theorem disturbWater_changes_one_interior_velocity :
  forall (worldX worldZ strength : R) (g : Water.Grid),
    gridOk g ->
    let g' := Water.disturbWater worldX worldZ strength g in
    let reachX := Tank.aqWidth / 2 - cellWidth Tank.aqWidth Water.WATER_RES_X in
    let reachZ := Tank.aqDepth / 2 - cellWidth Tank.aqDepth Water.WATER_RES_Z in
    let tol := 1 / 10 ^ 9 in
    Water.waterHeights g' = Water.waterHeights g /\
    (g' = g \/
     exists ix iz : nat,
       disturbedAt g g' strength ix iz /\
       Rabs (worldX - cellCentre Tank.aqWidth Water.WATER_RES_X ix)
         <= cellWidth Tank.aqWidth Water.WATER_RES_X / 2 + tol /\
       Rabs (worldZ - cellCentre Tank.aqDepth Water.WATER_RES_Z iz)
         <= cellWidth Tank.aqDepth Water.WATER_RES_Z / 2 + tol) /\
    (Rabs worldX <= reachX - tol -> Rabs worldZ <= reachZ - tol ->
     exists ix iz : nat, disturbedAt g g' strength ix iz) /\
    (reachX + tol <= Rabs worldX \/ reachZ + tol <= Rabs worldZ -> g' = g).
Proof.
  intros wx wz s g Ok g' reachX reachZ tol.
  pose proof (gridIndex_floor wx Tank.aqWidth Water.WATER_RES_X) as Fx.
  pose proof (gridIndex_floor wz Tank.aqDepth Water.WATER_RES_Z) as Fz.
  pose proof (cellCentre_offset wx Tank.aqWidth) as Cx.
  pose proof (cellCentre_offset wz Tank.aqDepth) as Cz.
  assert (Hcell : forall ix iz : nat,
            Water.gridIndex wx Tank.aqWidth Water.WATER_RES_X = Z.of_nat ix ->
            Water.gridIndex wz Tank.aqDepth Water.WATER_RES_Z = Z.of_nat iz ->
            (1 <= ix <= 62)%nat -> (1 <= iz <= 62)%nat ->
            disturbedAt g g' s ix iz).
  { intros ix iz Ex Ez Ix Iz.
    assert (E : g' = Water.mkGrid (Water.waterHeights g)
                  (Water.write (Water.waterVelocities g) ix iz
                     (Water.read (Water.waterVelocities g) ix iz + s)))
      by (apply disturbWater_cell; assumption).
    unfold disturbedAt. rewrite E. cbn [Water.waterHeights].
    split; [exact Ix |]. split; [exact Iz |]. split; [reflexivity |].
    intros x z. unfold vAt; cbn [Water.waterVelocities].
    destruct Ok as (_ & _ & Lv & Fv).
    destruct ((x =? ix) && (z =? iz))%nat eqn:B.
    - apply andb_true_iff in B. destruct B as [B1 B2].
      apply Nat.eqb_eq in B1, B2. subst x z.
      apply (write_read_same _ 64%nat);
        [exact Fv | rewrite Lv; unfold Water.WATER_RES_X; lia | lia].
    - apply write_read_other. intros Q. inversion Q; subst.
      rewrite !Nat.eqb_refl in B. discriminate. }
  assert (Hnone : ~ (1 <= Water.gridIndex wx Tank.aqWidth Water.WATER_RES_X <= 62 /\
                     1 <= Water.gridIndex wz Tank.aqDepth Water.WATER_RES_Z <= 62)%Z ->
                  g' = g).
  { intros N. unfold g', Water.disturbWater. cbv zeta.
    destruct ((0 <? Water.gridIndex wx Tank.aqWidth Water.WATER_RES_X)%Z && _ && _ && _) eqn:B;
      [| reflexivity].
    exfalso. apply N. apply disturbWater_guard. exact B. }
  set (zx := Water.gridIndex wx Tank.aqWidth Water.WATER_RES_X) in *.
  set (zz := Water.gridIndex wz Tank.aqDepth Water.WATER_RES_Z) in *.
  clearbody zx zz g'.
  unfold Water.WATER_RES_X, Water.WATER_RES_Z in *.
  assert (H64 : INR 64 = 64) by (rewrite INR_IZR_INZ; reflexivity).
  assert (Wx : cellWidth Tank.aqWidth 64 = 20 / 64)
    by (unfold cellWidth, Tank.aqWidth; rewrite H64; reflexivity).
  assert (Wz : cellWidth Tank.aqDepth 64 = 16 / 64)
    by (unfold cellWidth, Tank.aqDepth; rewrite H64; reflexivity).
  assert (Inside : (1 <= zx <= 62 /\ 1 <= zz <= 62)%Z ->
            exists ix iz : nat,
              disturbedAt g g' s ix iz /\
              Rabs (wx - cellCentre Tank.aqWidth 64 ix) <= cellWidth Tank.aqWidth 64 / 2 + tol /\
              Rabs (wz - cellCentre Tank.aqDepth 64 iz) <= cellWidth Tank.aqDepth 64 / 2 + tol).
  { intros [Ix Iz].
    assert (Ex : zx = Z.of_nat (Z.to_nat zx)) by lia.
    assert (Ez : zz = Z.of_nat (Z.to_nat zz)) by lia.
    exists (Z.to_nat zx), (Z.to_nat zz).
    split; [apply Hcell; [exact Ex | exact Ez | lia | lia] |].
    assert (Rx : INR (Z.to_nat zx) = IZR zx) by (rewrite INR_IZR_INZ, <- Ex; reflexivity).
    assert (Rz : INR (Z.to_nat zz) = IZR zz) by (rewrite INR_IZR_INZ, <- Ez; reflexivity).
    rewrite Cx, Cz by (unfold Tank.aqWidth, Tank.aqDepth; lra).
    rewrite Rx, Rz, Wx, Wz, H64 in *.
    unfold tol. split; apply Rabs_le; lra. }
  split; [| split; [| split]].
  - destruct (Z_le_dec 1 zx); [| rewrite Hnone by lia; reflexivity].
    destruct (Z_le_dec zx 62); [| rewrite Hnone by lia; reflexivity].
    destruct (Z_le_dec 1 zz); [| rewrite Hnone by lia; reflexivity].
    destruct (Z_le_dec zz 62); [| rewrite Hnone by lia; reflexivity].
    destruct Inside as (ix & iz & D & _); [lia |]. apply D.
  - destruct (Z_le_dec 1 zx); [| left; apply Hnone; lia].
    destruct (Z_le_dec zx 62); [| left; apply Hnone; lia].
    destruct (Z_le_dec 1 zz); [| left; apply Hnone; lia].
    destruct (Z_le_dec zz 62); [| left; apply Hnone; lia].
    right. apply Inside. lia.
  - intros Hx Hz. unfold reachX, reachZ, tol in Hx, Hz. rewrite Wx in Hx. rewrite Wz in Hz.
    unfold Tank.aqWidth, Tank.aqDepth in *. rewrite H64 in *.
    assert (Hx' : - (20 / 2 - 20 / 64 - 1 / 10 ^ 9) <= wx <= 20 / 2 - 20 / 64 - 1 / 10 ^ 9)
      by (revert Hx; unfold Rabs; destruct Rcase_abs; lra).
    assert (Hz' : - (16 / 2 - 16 / 64 - 1 / 10 ^ 9) <= wz <= 16 / 2 - 16 / 64 - 1 / 10 ^ 9)
      by (revert Hz; unfold Rabs; destruct Rcase_abs; lra).
    assert (Bx : (0 < zx < 63)%Z) by (split; apply lt_IZR; lra).
    assert (Bz : (0 < zz < 63)%Z) by (split; apply lt_IZR; lra).
    destruct Inside as (ix & iz & D & _); [lia |]. now exists ix, iz.
  - intros Hout. apply Hnone. intros [Ix Iz].
    unfold reachX, reachZ, tol in Hout. rewrite Wx, Wz in Hout.
    unfold Tank.aqWidth, Tank.aqDepth in *. rewrite H64 in *.
    assert (Qx : 1 <= IZR zx <= 62) by (split; apply IZR_le; lia).
    assert (Qz : 1 <= IZR zz <= 62) by (split; apply IZR_le; lia).
    destruct Hout as [H | H]; revert H; unfold Rabs; destruct Rcase_abs; lra.
Qed.

Lemma disturbWater_witness :
  let g' := Water.disturbWater 0 0 0.3 Water.initialGrid in
  let reachX := Tank.aqWidth / 2 - cellWidth Tank.aqWidth Water.WATER_RES_X in
  let reachZ := Tank.aqDepth / 2 - cellWidth Tank.aqDepth Water.WATER_RES_Z in
  let tol := 1 / 10 ^ 9 in
  Water.waterHeights g' = Water.waterHeights Water.initialGrid /\
  (g' = Water.initialGrid \/
   exists ix iz : nat,
     disturbedAt Water.initialGrid g' 0.3 ix iz /\
     Rabs (0 - cellCentre Tank.aqWidth Water.WATER_RES_X ix)
       <= cellWidth Tank.aqWidth Water.WATER_RES_X / 2 + tol /\
     Rabs (0 - cellCentre Tank.aqDepth Water.WATER_RES_Z iz)
       <= cellWidth Tank.aqDepth Water.WATER_RES_Z / 2 + tol) /\
  (Rabs 0 <= reachX - tol -> Rabs 0 <= reachZ - tol ->
   exists ix iz : nat, disturbedAt Water.initialGrid g' 0.3 ix iz) /\
  (reachX + tol <= Rabs 0 \/ reachZ + tol <= Rabs 0 -> g' = Water.initialGrid).
Proof.
  exact (disturbWater_changes_one_interior_velocity 0 0 0.3 Water.initialGrid
           initialGrid_ok).
Defined.

(** ** Flock: targets *)

Lemma randFloat_range rnd low high :
  0 <= rnd <= 1 -> low <= high -> low <= MathUtils.randFloat rnd low high <= high.
Proof. intros Hr Hl. unfold MathUtils.randFloat. split; nra. Qed.

Lemma get_assign_same A (l : list (option A)) i v :
  JsArray.get (JsArray.assign l i v) i = Some v.
Proof.
  unfold JsArray.get. revert l; induction i as [| i IH]; intros l.
  - destruct l; reflexivity.
  - destruct l as [| h t]; simpl; apply IH.
Qed.

(** X4.  [pickNewTarget(i)] stores, at index [i] of [targets], a point of the
    motion bounds (for values of [Math.random()] in [[0, 1]]), and leaves
    every other entry of the array as it was. *)
Theorem pickNewTarget_stores_a_point_in_bounds :
  forall (draw : Vector3) (i : nat) (tg : list (option Vector3)),
    0 <= vx draw <= 1 -> 0 <= vy draw <= 1 -> 0 <= vz draw <= 1 ->
    exists t,
      JsArray.get (Flock.pickNewTarget draw i tg) i = Some t /\
      (- Tank.halfX <= vx t <= Tank.halfX /\
       - Tank.halfY <= vy t <= Tank.halfY /\
       - Tank.halfZ <= vz t <= Tank.halfZ) /\
      forall j, j <> i ->
        JsArray.get (Flock.pickNewTarget draw i tg) j = JsArray.get tg j.
Proof.
  intros draw i tg Hx Hy Hz. exists (Flock.newTarget draw).
  destruct half_extents as (EX & EY & EZ).
  split; [apply get_assign_same |]. split.
  - unfold Flock.newTarget; cbn [vx vy vz].
    repeat split; apply randFloat_range; try assumption; lra.
  - intros j Hj. unfold Flock.pickNewTarget. apply get_assign_other. congruence.
Qed.

Lemma pickNewTarget_witness :
  exists t,
    JsArray.get (Flock.pickNewTarget (vec3 0.25 0.5 1) 3 [Some V3.zero]) 3 = Some t /\
    (- Tank.halfX <= vx t <= Tank.halfX /\
     - Tank.halfY <= vy t <= Tank.halfY /\
     - Tank.halfZ <= vz t <= Tank.halfZ) /\
    forall j, j <> 3%nat ->
      JsArray.get (Flock.pickNewTarget (vec3 0.25 0.5 1) 3 [Some V3.zero]) j
      = JsArray.get [Some V3.zero] j.
Proof.
  apply (pickNewTarget_stores_a_point_in_bounds (vec3 0.25 0.5 1) 3 [Some V3.zero]);
    simpl; lra.
Defined.

(** ** Flock: the population *)

Lemma removeExtra_firstn fuel count w :
  (List.length (fishData w) <= count + fuel)%nat ->
  fishData (Flock.removeExtra fuel count w) = firstn count (fishData w).
Proof.
  revert w; induction fuel as [| fuel IH]; intros w H; cbn [Flock.removeExtra].
  - rewrite firstn_all2 by lia. reflexivity.
  - destruct (count <? List.length (fishData w))%nat eqn:E.
    + apply Nat.ltb_lt in E. rewrite IH.
      * unfold Flock.removeFish, JsArray.pop; cbn [fishData].
        now apply firstn_removelast.
      * unfold Flock.removeFish, JsArray.pop; cbn [fishData].
        rewrite removelast_length. lia.
    + apply Nat.ltb_ge in E. rewrite firstn_all2 by lia. reflexivity.
Qed.

Lemma addNew_appends fuel p count draws w :
  (count <= List.length (fishData w) + fuel)%nat ->
  fishData (Flock.addNew fuel p count draws w)
  = fishData w
    ++ map (fun k => Flock.newFish p (draws k))
           (seq (List.length (fishData w)) (count - List.length (fishData w))).
Proof.
  revert w; induction fuel as [| fuel IH]; intros w H; cbn [Flock.addNew].
  - replace (count - List.length (fishData w))%nat with 0%nat by lia.
    simpl. now rewrite app_nil_r.
  - destruct (List.length (fishData w) <? count)%nat eqn:E.
    + apply Nat.ltb_lt in E. rewrite IH.
      * unfold Flock.addFish, JsArray.push; cbn [fishData].
        rewrite length_app; cbn [List.length].
        replace (count - List.length (fishData w))%nat
          with (S (count - (List.length (fishData w) + 1))) by lia.
        cbn [seq map]. rewrite <- app_assoc. cbn [app].
        now replace (S (List.length (fishData w))) with (List.length (fishData w) + 1)%nat
          by lia.
      * unfold Flock.addFish, JsArray.push; cbn [fishData].
        rewrite length_app; cbn [List.length]. lia.
    + apply Nat.ltb_ge in E.
      replace (count - List.length (fishData w))%nat with 0%nat by lia.
      simpl. now rewrite app_nil_r.
Qed.

Lemma updateFishCount_fishData p count draws w :
  fishData (Flock.updateFishCount p count draws w)
  = firstn count (fishData w)
    ++ map (fun k => Flock.newFish p (draws k))
           (seq (List.length (fishData w)) (count - List.length (fishData w))).
Proof.
  unfold Flock.updateFishCount.
  set (w1 := Flock.removeExtra (List.length (fishData w)) count w).
  assert (E1 : fishData w1 = firstn count (fishData w))
    by (apply removeExtra_firstn; lia).
  rewrite addNew_appends by (rewrite E1, length_firstn; lia).
  rewrite E1, length_firstn.
  destruct (le_dec count (List.length (fishData w))) as [L | L].
  - replace (count - Nat.min count (List.length (fishData w)))%nat with 0%nat by lia.
    replace (count - List.length (fishData w))%nat with 0%nat by lia.
    reflexivity.
  - now replace (Nat.min count (List.length (fishData w))) with (List.length (fishData w))
      by lia.
Qed.

(** X5.  [updateFishCount(count)] leaves exactly [count] fish: the first
    [count] fish of the array as it was, in their order, followed, when the
    array was shorter, by new fish; each new fish sits at the origin, swims
    along [x] at [fishSpeed] and has no acceleration. *)
Theorem updateFishCount_keeps_a_prefix_and_appends :
  forall (p : Params) (count : nat) (draws : nat -> SpawnDraws) (w : World),
    List.length (fishData (Flock.updateFishCount p count draws w)) = count /\
    fishData (Flock.updateFishCount p count draws w)
    = firstn count (fishData w)
      ++ map (fun k => mkFish V3.zero (vec3 (fishSpeed p) 0 0) V3.zero
                              (1.0 + massDraw (draws k) * 0.2))
             (seq (List.length (fishData w)) (count - List.length (fishData w))).
Proof.
  intros p count draws w. split; [apply updateFishCount_length |].
  rewrite updateFishCount_fishData. f_equal. apply map_ext. intros k.
  unfold Flock.newFish, V3.multiplyScalar. cbn [vx vy vz].
  f_equal. apply vec3_eq; simpl; ring.
Qed.

(** ** Flock: when fish do not push each other *)

Lemma separationStep_idle p a i acc j b :
  i = j \/
  V3.distanceTo (position a) (position b) = 0 \/
  separationDist p <= V3.distanceTo (position a) (position b) ->
  Flock.separationStep p a i acc j b = acc.
Proof.
  intros H. unfold Flock.separationStep.
  destruct (Nat.eqb_spec i j) as [E | E]; [reflexivity |].
  destruct H as [H | H]; [contradiction |].
  rewrite <- distanceTo_sub. cbv zeta.
  destruct H as [H | H].
  - rewrite H. replace (Rltb 0 0) with false by (symmetry; apply Rltb_false; lra).
    reflexivity.
  - replace (Rltb (V3.distanceTo (position a) (position b)) (separationDist p))
      with false by (symmetry; apply Rltb_false; lra).
    rewrite andb_false_r. reflexivity.
Qed.

Lemma separation_idle_from p a i k fs acc :
  (forall j b, nth_error fs j = Some b -> (k + j)%nat <> i ->
     V3.distanceTo (position a) (position b) = 0 \/
     separationDist p <= V3.distanceTo (position a) (position b)) ->
  JsArray.foldiFrom (Flock.separationStep p a i) k fs acc = acc.
Proof.
  revert k acc; induction fs as [| b fs IH]; intros k acc H; [reflexivity |].
  cbn [JsArray.foldiFrom].
  rewrite separationStep_idle.
  - apply IH. intros j c Hj Hn. apply (H (S j) c); [exact Hj | lia].
  - destruct (Nat.eq_dec i k) as [E | E]; [now left | right].
    apply (H 0%nat b); [reflexivity | lia].
Qed.

(** X6.  The separation force on a fish is zero when every other fish is at
    [separationDist] or farther, or exactly at the same place (the force is
    computed for [0 < dist < separationDist] only): fish that coincide do
    not push each other, and a fish alone feels nothing. *)
Theorem separation_is_zero_without_close_neighbours :
  forall (p : Params) (fs : list Fish) (i : nat) (fishA : Fish),
    (forall j fishB, nth_error fs j = Some fishB -> j <> i ->
       V3.distanceTo (position fishA) (position fishB) = 0 \/
       separationDist p <= V3.distanceTo (position fishA) (position fishB)) ->
    Flock.separation p fs i fishA = V3.zero.
Proof.
  intros p fs i a H. unfold Flock.separation, JsArray.foldi.
  apply separation_idle_from. intros j b Hj Hn. apply (H j b Hj). lia.
Qed.

Lemma separation_zero_witness :
  let a := mkFish V3.zero (vec3 2 0 0) V3.zero 1 in
  let b := mkFish V3.zero (vec3 2 0 0) V3.zero 1.1 in
  let c := mkFish (vec3 3 0 0) (vec3 2 0 0) V3.zero 1.2 in
  Flock.separation params [a; b; c] 0 a = V3.zero.
Proof.
  intros a b c.
  apply (separation_is_zero_without_close_neighbours params [a; b; c] 0 a).
  intros j f Hj Hn.
  destruct j as [| [| [| j]]]; simpl in Hj; try congruence; try (injection Hj as <-).
  - left. apply distanceTo_self.
  - right. unfold V3.distanceTo, V3.distanceToSquared; simpl.
    replace ((0 - 3) * (0 - 3) + (0 - 0) * (0 - 0) + (0 - 0) * (0 - 0)) with (3 * 3) by ring.
    rewrite sqrt_square; lra.
  - destruct j; discriminate.
Defined.

(** ** Flock: the mass of a fish *)

Lemma map_setNth A B (f : A -> B) i v (l : list A) a :
  nth_error l i = Some a -> f v = f a ->
  map f (JsArray.setNth i v l) = map f l.
Proof.
  revert i; induction l as [| h t IH]; intros i H E; [destruct i; discriminate |].
  destruct i as [| i]; simpl in *.
  - inversion H; subst. now rewrite E.
  - f_equal. now apply IH.
Qed.

Lemma moveFish_mass p delta d target f :
  mass (Flock.moveFish p delta d target f) = mass f.
Proof.
  unfold Flock.moveFish, Flock.wallBounce, Flock.steer.
  repeat match goal with |- context [let '(_, _) := ?x in _] => destruct x end.
  reflexivity.
Qed.

Lemma fishLoopUpTo_mass p delta draws k w w' :
  fishLoopUpTo p delta draws k w = Some w' ->
  map mass (fishData w') = map mass (fishData w).
Proof.
  revert w'; induction k as [| k IH]; intros w' H.
  - unfold fishLoopUpTo in H; simpl in H. now inversion H.
  - rewrite fishLoopUpTo_S in H.
    destruct (fishLoopUpTo p delta draws k w) as [w1 |] eqn:E; [| discriminate].
    rewrite <- (IH w1 eq_refl).
    destruct (fishStep_inv _ _ _ _ _ H) as (fish & target & Hf & _ & Hd & _).
    rewrite Hd. apply (map_setNth _ _ mass _ _ _ fish Hf). apply moveFish_mass.
Qed.

Lemma mapiFrom_mass (F : nat -> Fish -> Vector3) k l :
  map mass (JsArray.mapiFrom (fun i a => Flock.setAcceleration a (F i a)) k l)
  = map mass l.
Proof. revert k; induction l as [| a l IH]; intros k; simpl; [| rewrite IH]; reflexivity. Qed.

Lemma computeForces_mass lv p fs :
  map mass (Flock.computeForces lv p fs) = map mass fs.
Proof. apply (mapiFrom_mass (Flock.forceOn lv p fs)). Qed.

(** X7.  A tick never changes the mass of a fish nor the number of fish, and
    a fish is created with a mass between 1 and 1.2 (for a value of
    [Math.random()] in [[0, 1]]): once every mass lies in that range it does
    so after every tick and every change of the population, so the division
    by the mass in the separation force is never a division by zero. *)
Theorem mass_is_kept_and_stays_in_range :
  forall (w : World),
    (forall lv p delta draws w',
       Flock.tick lv p delta draws w = Some w' ->
       map mass (fishData w') = map mass (fishData w)) /\
    (forall p count draws,
       Forall (fun f => 1 <= mass f <= 1.2) (fishData w) ->
       (forall k, 0 <= massDraw (draws k) <= 1) ->
       Forall (fun f => 1 <= mass f <= 1.2)
              (fishData (Flock.updateFishCount p count draws w))).
Proof.
  intros w. split.
  - intros lv p delta draws w' H. unfold Flock.tick, Flock.fishLoop in H.
    apply fishLoopUpTo_mass in H. cbn [fishData] in H.
    now rewrite computeForces_mass in H.
  - intros p count draws Hw Hd.
    rewrite updateFishCount_fishData.
    apply Forall_app. split.
    + rewrite <- (firstn_skipn count (fishData w)) in Hw.
      apply Forall_app in Hw. exact (proj1 Hw).
    + apply Forall_forall. intros f Hf. apply in_map_iff in Hf.
      destruct Hf as (k & <- & _). unfold Flock.newFish; cbn [mass].
      specialize (Hd k). lra.
Qed.

Lemma mass_witness :
  let sd := fun _ : nat => mkSpawnDraws 0.5 (vec3 0.25 0.5 0.75) in
  let td := fun _ : nat => mkTickDraws (vec3 0.5 0.25 0.75) 0.5 (vec3 0.5 0.5 0.5) in
  let w := Flock.updateFishCount params 2 sd Flock.emptyWorld in
  exists w',
    Flock.tick SeparationOnly params (1 / 60) td w = Some w' /\
    map mass (fishData w') = map mass (fishData w) /\
    Forall (fun f => 1 <= mass f <= 1.2) (fishData w).
Proof.
  intros sd td w.
  assert (P : paired w) by (apply updateFishCount_paired, emptyWorld_paired).
  destruct (@tick_paired SeparationOnly params (1 / 60) td w P) as (w' & H & _).
  exists w'. split; [exact H |]. split.
  - exact (proj1 (mass_is_kept_and_stays_in_range w) _ _ _ _ _ H).
  - apply (proj2 (mass_is_kept_and_stays_in_range Flock.emptyWorld) params 2%nat sd).
    + constructor.
    + intros k. simpl. lra.
Defined.

(** ** Kelp: a new plant *)

(** In exact arithmetic two consecutive joints of a new plant are a joint
    length apart. *)
Lemma newPlant_gap b j :
  (1 <= j < Kelp.SEGMENTS)%nat ->
  V3.distanceTo (Kelp.item (points (Kelp.newPlant b)) (j - 1))
                (Kelp.item (points (Kelp.newPlant b)) j)
  = Kelp.jointLength.
Proof.
  intros Hj. unfold Kelp.SEGMENTS in Hj.
  rewrite !newPlant_item by (unfold Kelp.SEGMENTS; lia).
  unfold V3.distanceTo, V3.distanceToSquared; cbn [vx vy vz].
  unfold Kelp.jointLength.
  replace (INR (j - 1)) with (INR j - 1) by (rewrite minus_INR by lia; simpl; lra).
  set (n := INR (Kelp.SEGMENTS - 1)).
  assert (Hn : 0 < n) by (unfold n, Kelp.SEGMENTS; apply lt_0_INR; lia).
  assert (Hl : 0 < Kelp.PLANT_LEN) by (unfold Kelp.PLANT_LEN; lra).
  assert (Q : 0 < Kelp.PLANT_LEN / n) by (apply Rdiv_lt_0_compat; assumption).
  replace ((vx b - vx b) * (vx b - vx b) +
           (vy b + (INR j - 1) / n * Kelp.PLANT_LEN - (vy b + INR j / n * Kelp.PLANT_LEN)) *
           (vy b + (INR j - 1) / n * Kelp.PLANT_LEN - (vy b + INR j / n * Kelp.PLANT_LEN)) +
           (vz b - vz b) * (vz b - vz b))
    with ((Kelp.PLANT_LEN / n) * (Kelp.PLANT_LEN / n)) by (field; lra).
  apply sqrt_square. lra.
Qed.

(** X8.  The chain built by [addSeaPlants] on a base in the tank starts on
    its base and at rest; it is straight (every joint has the [x] and [z] of
    the base), it rises from joint to joint up to [PLANT_LEN] above the base,
    and two consecutive joints are [jointLength] apart within [10^-12]: a new
    plant has the segment length the constraint pass enforces, up to the
    rounding of the heights [base.y + (j / (SEGMENTS - 1)) * PLANT_LEN]. *)
Theorem new_plant_is_straight_and_at_rest :
  forall (b : Vector3),
    Tank.contains b ->
    let pts := points (Kelp.newPlant b) in
    Kelp.wellFormed (Kelp.newPlant b) /\
    base (Kelp.newPlant b) = b /\
    Kelp.item pts 0 = b /\
    velocities (Kelp.newPlant b) = repeat V3.zero Kelp.SEGMENTS /\
    Forall (fun j =>
              vx (Kelp.item pts j) = vx b /\
              vz (Kelp.item pts j) = vz b /\
              vy (Kelp.item pts (j - 1)) < vy (Kelp.item pts j) /\
              Rabs (V3.distanceTo (Kelp.item pts (j - 1)) (Kelp.item pts j)
                    - Kelp.jointLength) <= 1 / 10 ^ 12)
           (seq 1 (Kelp.SEGMENTS - 1)) /\
    vy (Kelp.item pts (Kelp.SEGMENTS - 1)) = vy b + Kelp.PLANT_LEN.
Proof.
  intros b _ pts. unfold pts.
  split; [apply newPlant_wellFormed |]. split; [reflexivity |].
  split; [| split; [reflexivity | split]].
  - rewrite newPlant_item by (unfold Kelp.SEGMENTS; lia).
    destruct b as [x y z]. apply vec3_eq; simpl; lra.
  - apply Forall_forall. intros j Hj. apply in_seq in Hj.
    unfold Kelp.SEGMENTS in Hj.
    rewrite newPlant_gap by (unfold Kelp.SEGMENTS; lia).
    rewrite !newPlant_item by (unfold Kelp.SEGMENTS; lia).
    cbn [vx vy vz].
    split; [reflexivity |]. split; [reflexivity |]. split.
    + replace (INR (j - 1)) with (INR j - 1) by (rewrite minus_INR by lia; simpl; lra).
      unfold Kelp.PLANT_LEN, Kelp.SEGMENTS.
      replace (INR (12 - 1)) with 11 by (simpl; lra). lra.
    + replace (Kelp.jointLength - Kelp.jointLength) with 0 by ring.
      rewrite Rabs_R0. lra.
  - rewrite newPlant_item by (unfold Kelp.SEGMENTS; lia).
    cbn [vy]. unfold Kelp.SEGMENTS.
    replace (INR (12 - 1)) with 11 by (simpl; lra). lra.
Qed.

Lemma new_plant_witness :
  let b := vec3 1 (-4) 2 in
  let pts := points (Kelp.newPlant b) in
  Kelp.wellFormed (Kelp.newPlant b) /\
  base (Kelp.newPlant b) = b /\
  Kelp.item pts 0 = b /\
  velocities (Kelp.newPlant b) = repeat V3.zero Kelp.SEGMENTS /\
  Forall (fun j =>
            vx (Kelp.item pts j) = vx b /\
            vz (Kelp.item pts j) = vz b /\
            vy (Kelp.item pts (j - 1)) < vy (Kelp.item pts j) /\
            Rabs (V3.distanceTo (Kelp.item pts (j - 1)) (Kelp.item pts j)
                  - Kelp.jointLength) <= 1 / 10 ^ 12)
         (seq 1 (Kelp.SEGMENTS - 1)) /\
  vy (Kelp.item pts (Kelp.SEGMENTS - 1)) = vy b + Kelp.PLANT_LEN.
Proof.
  apply (new_plant_is_straight_and_at_rest (vec3 1 (-4) 2)).
  unfold Tank.contains, Tank.aqWidth, Tank.aqHeight, Tank.aqDepth; cbn [vx vy vz].
  repeat split; apply Rabs_le; lra.
Defined.

(** ** Kelp: the base of a plant *)

Lemma pushSegment_frame f pl j :
  points (Kelp.pushSegment f pl j) = points pl /\
  base (Kelp.pushSegment f pl j) = base pl /\
  forall i, i <> j ->
    Kelp.item (velocities (Kelp.pushSegment f pl j)) i = Kelp.item (velocities pl) i.
Proof.
  unfold Kelp.pushSegment.
  destruct (Rltb _ 0.55); cbn [points base velocities]; repeat split; try reflexivity.
  intros i Hi. rewrite item_setNth.
  destruct (Nat.eqb_spec j i); [congruence | reflexivity].
Qed.

Lemma pushFold_frame f l pl :
  ~ In 0%nat l ->
  points (fold_left (Kelp.pushSegment f) l pl) = points pl /\
  base (fold_left (Kelp.pushSegment f) l pl) = base pl /\
  Kelp.item (velocities (fold_left (Kelp.pushSegment f) l pl)) 0
  = Kelp.item (velocities pl) 0.
Proof.
  revert pl; induction l as [| j l IH]; intros pl H; [repeat split |].
  cbn [fold_left].
  destruct (IH (Kelp.pushSegment f pl j)) as (A & B & C);
    [intros Q; apply H; now right |].
  destruct (pushSegment_frame f pl j) as (A' & B' & C').
  rewrite A, B, C, A', B'. repeat split.
  apply C'. intros E. apply H. left. now symmetry.
Qed.

Lemma forSegments_push_frame f pl :
  points (Kelp.forSegments (Kelp.pushSegment f) pl) = points pl /\
  base (Kelp.forSegments (Kelp.pushSegment f) pl) = base pl /\
  Kelp.item (velocities (Kelp.forSegments (Kelp.pushSegment f) pl)) 0
  = Kelp.item (velocities pl) 0.
Proof.
  unfold Kelp.forSegments. apply pushFold_frame.
  intros Q. apply in_seq in Q. lia.
Qed.

Lemma fishInteraction_frame fr pl :
  points (Kelp.fishInteraction fr pl) = points pl /\
  base (Kelp.fishInteraction fr pl) = base pl /\
  Kelp.item (velocities (Kelp.fishInteraction fr pl)) 0 = Kelp.item (velocities pl) 0.
Proof.
  unfold Kelp.fishInteraction.
  generalize (fishPositions fr) as fs. intros fs.
  revert pl; induction fs as [| f fs IH]; intros pl; [repeat split |].
  rewrite fold_left_cons.
  destruct (IH (Kelp.forSegments (Kelp.pushSegment f) pl)) as (A & B & C).
  destruct (forSegments_push_frame f pl) as (A' & B' & C').
  rewrite A, B, C, A', B', C'. repeat split.
Qed.

Lemma springStep_frame fr pl j i :
  i <> j ->
  Kelp.item (velocities (Kelp.springStep fr pl j)) i = Kelp.item (velocities pl) i /\
  base (Kelp.springStep fr pl j) = base pl.
Proof.
  intros H. unfold Kelp.springStep; cbn [velocities base]. split; [| reflexivity].
  rewrite item_setNth. destruct (Nat.eqb_spec j i); [congruence | reflexivity].
Qed.

Lemma springFold_frame fr l pl :
  ~ In 0%nat l ->
  Kelp.item (velocities (fold_left (Kelp.springStep fr) l pl)) 0
  = Kelp.item (velocities pl) 0 /\
  base (fold_left (Kelp.springStep fr) l pl) = base pl.
Proof.
  revert pl; induction l as [| j l IH]; intros pl H; [split; reflexivity |].
  cbn [fold_left].
  destruct (IH (Kelp.springStep fr pl j)) as (A & B); [intros Q; apply H; now right |].
  destruct (springStep_frame fr pl j 0) as (A' & B'); [intros E; apply H; left; now symmetry |].
  rewrite A, B, A', B'. split; reflexivity.
Qed.

Lemma constraintFold_base l pl :
  base (fold_left Kelp.constraintStep l pl) = base pl.
Proof. revert pl; induction l as [| j l IH]; intros pl; [reflexivity |]. cbn [fold_left]. now rewrite IH. Qed.

Lemma constraintPass_wellFormed pl : Kelp.wellFormed pl -> Kelp.wellFormed (Kelp.constraintPass pl).
Proof.
  intros [HL HV]. unfold Kelp.constraintPass, Kelp.forSegments.
  destruct (constraintUpTo_spec (Kelp.SEGMENTS - 1) pl) as (L & V & _);
    [rewrite HL; unfold Kelp.SEGMENTS; lia |].
  split; [rewrite L; exact HL | rewrite V; exact HV].
Qed.

Lemma updatePlant_base fr pl :
  Kelp.wellFormed pl ->
  Kelp.wellFormed (Kelp.updatePlant fr pl) /\
  base (Kelp.updatePlant fr pl) = base pl /\
  Kelp.item (points (Kelp.updatePlant fr pl)) 0 = base pl /\
  Kelp.item (velocities (Kelp.updatePlant fr pl)) 0 = V3.zero.
Proof.
  intros Hw. pose proof (springPass_wellFormed fr pl Hw) as Hs.
  destruct Hw as [HL HV].
  assert (P0 : Kelp.item (points (Kelp.pinBase pl)) 0 = base pl).
  { unfold Kelp.pinBase; cbn [points]. rewrite item_setNth.
    rewrite HL. reflexivity. }
  assert (V0 : Kelp.item (velocities (Kelp.pinBase pl)) 0 = V3.zero).
  { unfold Kelp.pinBase; cbn [velocities]. rewrite item_setNth.
    rewrite HV. reflexivity. }
  destruct (fishInteraction_frame fr (Kelp.pinBase pl)) as (FA & FB & FC).
  assert (N0 : ~ In 0%nat (seq 1 (Kelp.SEGMENTS - 1)))
    by (intros Q; apply in_seq in Q; lia).
  destruct (springFold_frame fr (seq 1 (Kelp.SEGMENTS - 1))
              (Kelp.fishInteraction fr (Kelp.pinBase pl)) N0) as (SA & SB).
  pose proof (springFold_untouched fr (Kelp.SEGMENTS - 1) 1
                (Kelp.fishInteraction fr (Kelp.pinBase pl)) 0 ltac:(lia)) as SP.
  split; [apply constraintPass_wellFormed, Hs |].
  unfold Kelp.updatePlant.
  destruct (constraintUpTo_spec (Kelp.SEGMENTS - 1) (Kelp.springPass fr pl))
    as (_ & CV & C0 & _); [rewrite (proj1 Hs); unfold Kelp.SEGMENTS; lia |].
  unfold Kelp.constraintPass, Kelp.forSegments in *.
  split; [| split].
  - rewrite constraintFold_base. unfold Kelp.springPass, Kelp.forSegments.
    rewrite SB, FB. reflexivity.
  - rewrite C0. unfold Kelp.springPass, Kelp.forSegments.
    rewrite SP, FA. exact P0.
  - rewrite CV. unfold Kelp.springPass, Kelp.forSegments.
    rewrite SA, FC. exact V0.
Qed.

(** X9.  A tick pins the plant to its base: after the update of a plant of
    [SEGMENTS] points the first point is the base, the first velocity is
    zero, the base has not moved and both arrays still have [SEGMENTS]
    entries, whatever the fish, the clock and the state before. *)
Theorem plant_keeps_its_base :
  forall (fr : Frame) (pl : Plant),
    Kelp.wellFormed pl ->
    Kelp.wellFormed (Kelp.updatePlant fr pl) /\
    base (Kelp.updatePlant fr pl) = base pl /\
    Kelp.item (points (Kelp.updatePlant fr pl)) 0 = base pl /\
    Kelp.item (velocities (Kelp.updatePlant fr pl)) 0 = V3.zero.
Proof. exact updatePlant_base. Qed.

Lemma plant_keeps_its_base_witness :
  Kelp.wellFormed (Kelp.updatePlant stillFrame slackPlant) /\
  base (Kelp.updatePlant stillFrame slackPlant) = base slackPlant /\
  Kelp.item (points (Kelp.updatePlant stillFrame slackPlant)) 0 = base slackPlant /\
  Kelp.item (velocities (Kelp.updatePlant stillFrame slackPlant)) 0 = V3.zero.
Proof. exact (plant_keeps_its_base stillFrame slackPlant slackPlant_wellFormed). Defined.

(** ** Vectors: the triangle inequality *)

Lemma dot_le_lengths u v :
  vx u * vx v + vy u * vy v + vz u * vz v <= V3.length u * V3.length v.
Proof.
  set (d := vx u * vx v + vy u * vy v + vz u * vz v).
  pose proof (lengthSq_nonneg u) as Pu. pose proof (lengthSq_nonneg v) as Pv.
  unfold V3.length. rewrite <- sqrt_mult by assumption.
  destruct (Rle_dec d 0) as [N | N].
  - eapply Rle_trans; [exact N | apply sqrt_pos].
  - rewrite <- (sqrt_square d) by lra. apply sqrt_le_1_alt.
    unfold d, V3.lengthSq in *.
    pose proof (Rle_0_sqr (vx u * vy v - vy u * vx v)) as C1.
    pose proof (Rle_0_sqr (vy u * vz v - vz u * vy v)) as C2.
    pose proof (Rle_0_sqr (vz u * vx v - vx u * vz v)) as C3.
    unfold Rsqr in C1, C2, C3. nra.
Qed.

Lemma length_add_le u v : V3.length (V3.add u v) <= V3.length u + V3.length v.
Proof.
  pose proof (dot_le_lengths u v) as D.
  pose proof (length_nonneg u) as Pu. pose proof (length_nonneg v) as Pv.
  pose proof (length_sqr u) as Su. pose proof (length_sqr v) as Sv.
  rewrite <- (sqrt_square (V3.length u + V3.length v)) by lra.
  unfold V3.length at 1. apply sqrt_le_1_alt.
  unfold V3.lengthSq in *. unfold V3.add; cbn [vx vy vz]. nra.
Qed.

Lemma distanceTo_triangle a b c :
  V3.distanceTo a c <= V3.distanceTo a b + V3.distanceTo b c.
Proof.
  rewrite !distanceTo_sub.
  replace (V3.sub a c) with (V3.add (V3.sub a b) (V3.sub b c))
    by (apply vec3_eq; simpl; ring).
  apply length_add_le.
Qed.

Lemma vec3_eq_or_not (a b : Vector3) : a = b \/ a <> b.
Proof.
  destruct a as [ax ay az], b as [bx b_y bz].
  destruct (Req_dec ax bx) as [-> | N]; [| right; congruence].
  destruct (Req_dec ay b_y) as [-> | N]; [| right; congruence].
  destruct (Req_dec az bz) as [-> | N]; [| right; congruence].
  now left.
Qed.

(** ** Kelp: how far a plant reaches *)

Lemma segment_at_most_jointLength pl j :
  List.length (points pl) = Kelp.SEGMENTS ->
  (1 <= j < Kelp.SEGMENTS)%nat ->
  V3.distanceTo (Kelp.item (points (Kelp.constraintPass pl)) (j - 1))
                (Kelp.item (points (Kelp.constraintPass pl)) j)
  <= Kelp.jointLength.
Proof.
  intros HL Hj.
  destruct (constraintPass_spec pl j HL Hj) as [A B].
  destruct (vec3_eq_or_not (Kelp.item (points pl) j)
              (Kelp.item (points (Kelp.constraintPass pl)) (j - 1))) as [E | E].
  - rewrite (B E), distanceTo_self. left. exact jointLength_pos.
  - rewrite (A E). lra.
Qed.

Lemma reach_after_constraintPass pl j :
  List.length (points pl) = Kelp.SEGMENTS ->
  (j < Kelp.SEGMENTS)%nat ->
  V3.distanceTo (Kelp.item (points (Kelp.constraintPass pl)) 0)
                (Kelp.item (points (Kelp.constraintPass pl)) j)
  <= INR j * Kelp.jointLength.
Proof.
  intros HL. induction j as [| j IH]; intros Hj.
  - rewrite distanceTo_self. simpl. lra.
  - eapply Rle_trans; [apply (distanceTo_triangle _ (Kelp.item (points (Kelp.constraintPass pl)) j)) |].
    pose proof (segment_at_most_jointLength pl (S j) HL ltac:(lia)) as Sg.
    replace (S j - 1)%nat with j in Sg by lia.
    specialize (IH ltac:(lia)). rewrite S_INR. lra.
Qed.

(** X10.  The constraint pass keeps the rope from exploding, whatever the
    spring step did: after the update of a plant every segment is at most
    [jointLength] long, so the joint [j] is at most [j * jointLength] from
    the base and the whole plant stays within [PLANT_LEN] of it. *)
Theorem plant_stays_within_its_length :
  forall (fr : Frame) (pl : Plant) (j : nat),
    Kelp.wellFormed pl ->
    (j < Kelp.SEGMENTS)%nat ->
    let post := Kelp.updatePlant fr pl in
    ((1 <= j)%nat ->
     V3.distanceTo (Kelp.item (points post) (j - 1)) (Kelp.item (points post) j)
     <= Kelp.jointLength) /\
    V3.distanceTo (base pl) (Kelp.item (points post) j) <= INR j * Kelp.jointLength /\
    V3.distanceTo (base pl) (Kelp.item (points post) j) <= Kelp.PLANT_LEN.
Proof.
  intros fr pl j Hw Hj post.
  pose proof (springPass_wellFormed fr pl Hw) as [HL _].
  destruct (updatePlant_base fr pl Hw) as (_ & _ & B0 & _).
  split; [intros H1; apply segment_at_most_jointLength; [exact HL | lia] |].
  assert (R : V3.distanceTo (base pl) (Kelp.item (points post) j)
              <= INR j * Kelp.jointLength).
  { rewrite <- B0. apply reach_after_constraintPass; assumption. }
  split; [exact R |].
  eapply Rle_trans; [exact R |].
  pose proof jointLength_pos as Pj.
  assert (Ij : INR j <= INR (Kelp.SEGMENTS - 1)) by (apply le_INR; lia).
  assert (E : INR (Kelp.SEGMENTS - 1) * Kelp.jointLength = Kelp.PLANT_LEN).
  { unfold Kelp.jointLength. field. apply not_0_INR. unfold Kelp.SEGMENTS. lia. }
  rewrite <- E. apply Rmult_le_compat_r; lra.
Qed.

Lemma plant_stays_within_witness :
  let post := Kelp.updatePlant stillFrame slackPlant in
  ((1 <= 11)%nat ->
   V3.distanceTo (Kelp.item (points post) (11 - 1)) (Kelp.item (points post) 11)
   <= Kelp.jointLength) /\
  V3.distanceTo (base slackPlant) (Kelp.item (points post) 11) <= INR 11 * Kelp.jointLength /\
  V3.distanceTo (base slackPlant) (Kelp.item (points post) 11) <= Kelp.PLANT_LEN.
Proof.
  apply (plant_stays_within_its_length stillFrame slackPlant 11 slackPlant_wellFormed).
  unfold Kelp.SEGMENTS. lia.
Defined.

(** ** Kelp: fish brushing a plant *)








(** ** Flock: the wall bounce *)

Lemma bounceAxis_inside pos vel half :
  - half <= pos <= half -> Flock.bounceAxis pos vel half = (pos, vel, false).
Proof.
  intros H. unfold Flock.bounceAxis.
  replace (Rltb pos (- half)) with false by (symmetry; apply Rltb_false; lra).
  replace (Rltb half pos) with false by (symmetry; apply Rltb_false; lra).
  reflexivity.
Qed.

Lemma bounceAxis_outside pos vel half :
  0 <= half -> pos < - half \/ half < pos ->
  Flock.bounceAxis pos vel half
  = (if Rltb pos (- half) then - half else half, vel * -1, true).
Proof.
  intros Hh H. unfold Flock.bounceAxis, MathUtils.clamp.
  destruct H as [H | H].
  - replace (Rltb pos (- half)) with true by (symmetry; apply Rltb_true; lra).
    cbn [orb]. rewrite Rmin_right, Rmax_left by lra. reflexivity.
  - replace (Rltb pos (- half)) with false by (symmetry; apply Rltb_false; lra).
    replace (Rltb half pos) with true by (symmetry; apply Rltb_true; lra).
    cbn [orb]. rewrite Rmin_left, Rmax_right by lra. reflexivity.
Qed.

(** X28.  The wall bounce leaves a fish inside the motion bounds exactly as
    it is (no random turn is applied); a fish beyond a wall along [x] is put
    on that wall, and if it is within the bounds along [y] and [z] its
    velocity along [x] is reversed before the random turn. *)
Theorem wall_bounce_acts_only_beyond_a_wall :
  forall (d : TickDraws) (f : Fish),
    (Flock.inBounds f -> Flock.wallBounce d f = f) /\
    (Tank.halfX < vx (position f) ->
     - Tank.halfY <= vy (position f) <= Tank.halfY ->
     - Tank.halfZ <= vz (position f) <= Tank.halfZ ->
     position (Flock.wallBounce d f)
     = vec3 Tank.halfX (vy (position f)) (vz (position f)) /\
     velocity (Flock.wallBounce d f)
     = Flock.bounceTurn d (vec3 (- vx (velocity f)) (vy (velocity f)) (vz (velocity f)))).
Proof.
  intros d f. destruct half_extents as (EX & EY & EZ). split.
  - intros (Hx & Hy & Hz). unfold Flock.wallBounce.
    rewrite !bounceAxis_inside by assumption. cbn [orb].
    destruct f as [[px py pz] [wx wy wz] a m]. reflexivity.
  - intros Hx Hy Hz. unfold Flock.wallBounce.
    rewrite (bounceAxis_outside (vx (position f)) (vx (velocity f)) Tank.halfX)
      by (rewrite ?EX; lra || (right; exact Hx)).
    rewrite !bounceAxis_inside by assumption.
    replace (Rltb (vx (position f)) (- Tank.halfX)) with false
      by (symmetry; apply Rltb_false; rewrite EX in *; lra).
    cbn [orb position velocity]. split; [reflexivity |].
    f_equal. f_equal. ring.
Qed.

Lemma wall_bounce_witness :
  let f := mkFish (vec3 1 2 (-3)) (vec3 2 0 0) V3.zero 1.1 in
  Flock.wallBounce (mkTickDraws (vec3 0.5 0.5 0.5) 0.5 (vec3 0.5 0.5 0.5)) f = f.
Proof.
  intros f.
  apply (wall_bounce_acts_only_beyond_a_wall
           (mkTickDraws (vec3 0.5 0.5 0.5) 0.5 (vec3 0.5 0.5 0.5)) f).
  destruct half_extents as (EX & EY & EZ).
  unfold Flock.inBounds. rewrite EX, EY, EZ. simpl. lra.
Defined.

(** ** Flock: alignment and cohesion *)






(** ** fish.js: a lookup inside the range *)

Lemma getPoint_found pts x v :
  FishGeometry.getPoint pts x = Normal (Some v) ->
  exists k i1 i2,
    nth_error pts k = Some i1 /\ nth_error pts (S k) = Some i2 /\
    vx i1 <= x <= vx i2 /\
    v = V3.lerpVectors i1 i2 ((x - vx i1) / (vx i2 - vx i1)) /\
    forall k' j1 j2, (k' < k)%nat ->
      nth_error pts k' = Some j1 -> nth_error pts (S k') = Some j2 ->
      ~ (vx j1 <= x <= vx j2).
Proof.
  induction pts as [| i1 rest IH]; intros H; [discriminate |].
  cbn [FishGeometry.getPoint] in H.
  destruct rest as [| i2 rest']; [discriminate |].
  destruct (Rleb (vx i1) x && Rleb x (vx i2)) eqn:E.
  - apply andb_true_iff in E. destruct E as [E1 E2].
    apply Rleb_true in E1, E2. inversion H; subst v.
    exists 0%nat, i1, i2. repeat split; try assumption. intros; lia.
  - destruct (IH H) as (k & j1 & j2 & N1 & N2 & B & V & F).
    exists (S k), j1, j2. repeat split; try assumption; try apply B.
    intros k' a b Hk Ha Hb.
    destruct k' as [| k'].
    + simpl in Ha, Hb. inversion Ha; inversion Hb; subst.
      apply andb_false_iff in E. intros [Q1 Q2].
      destruct E as [E | E]; apply Rleb_false in E; lra.
    + apply (F k' a b); [lia | exact Ha | exact Hb].
Qed.

(** X13.  When [getPoint(curvePoints, x)] returns a point, on points whose
    coordinates are within [10^100], the first two consecutive points whose
    [x] bracket the query exist, and when their [x] differ the point returned
    is the interpolation between the two at the query, and its own [x] is the
    query.  (When the two have the same [x] the weight is the quotient
    [0 / 0], and nothing is stated of the point.) *)
Theorem lookup_returns_the_point_at_x :
  forall (pts : list Vector3) (x : R) (v : Vector3),
    Forall (boxed (10 ^ 100)) pts ->
    FishGeometry.getPoint pts x = Normal (Some v) ->
    exists k i1 i2,
      nth_error pts k = Some i1 /\ nth_error pts (S k) = Some i2 /\
      vx i1 <= x <= vx i2 /\
      (forall k' j1 j2, (k' < k)%nat ->
         nth_error pts k' = Some j1 -> nth_error pts (S k') = Some j2 ->
         ~ (vx j1 <= x <= vx j2)) /\
      (vx i1 < vx i2 ->
       v = V3.lerpVectors i1 i2 ((x - vx i1) / (vx i2 - vx i1)) /\
       vx v = x).
Proof.
  intros pts x v _ H.
  destruct (getPoint_found pts x v H) as (k & i1 & i2 & N1 & N2 & B & V & F).
  exists k, i1, i2.
  split; [exact N1 |]. split; [exact N2 |]. split; [exact B |]. split; [exact F |].
  intros Hlt. split; [exact V |].
  rewrite V. unfold V3.lerpVectors, V3.lerp; cbn [vx]. field. lra.
Qed.

Lemma lookup_returns_witness :
  exists k i1 i2,
    nth_error [vec3 0 0 0; vec3 1 1 0; vec3 3 0 1] k = Some i1 /\
    nth_error [vec3 0 0 0; vec3 1 1 0; vec3 3 0 1] (S k) = Some i2 /\
    vx i1 <= 2 <= vx i2 /\
    (forall k' j1 j2, (k' < k)%nat ->
       nth_error [vec3 0 0 0; vec3 1 1 0; vec3 3 0 1] k' = Some j1 ->
       nth_error [vec3 0 0 0; vec3 1 1 0; vec3 3 0 1] (S k') = Some j2 ->
       ~ (vx j1 <= 2 <= vx j2)) /\
    (vx i1 < vx i2 ->
     vec3 2 (1 / 2) (1 / 2) = V3.lerpVectors i1 i2 ((2 - vx i1) / (vx i2 - vx i1)) /\
     vx (vec3 2 (1 / 2) (1 / 2)) = 2).
Proof.
  apply (lookup_returns_the_point_at_x [vec3 0 0 0; vec3 1 1 0; vec3 3 0 1] 2
           (vec3 2 (1 / 2) (1 / 2))).
  - repeat (constructor; [unfold boxed; cbn [vx vy vz]; repeat split; apply Rabs_le; lra |]).
    constructor.
  - cbn [FishGeometry.getPoint vx].
    replace (Rleb 0 2 && Rleb 2 1) with false
      by (symmetry; apply andb_false_iff; right; apply Rleb_false; lra).
    replace (Rleb 1 2 && Rleb 2 3) with true
      by (symmetry; apply andb_true_iff; split; apply Rleb_true; lra).
    do 2 f_equal. unfold V3.lerpVectors, V3.lerp. apply vec3_eq; simpl; lra.
Defined.

(** ** fish.js: a fin whose contour leaves its base *)

Lemma mapM_throws A B (f : A -> Completion B) e l a :
  (forall x, In x l -> (exists b, f x = Normal b) \/ f x = Throw e) ->
  In a l -> f a = Throw e ->
  mapM f l = Throw e.
Proof.
  induction l as [| h t IH]; intros Hall Hin Ha; [contradiction |].
  cbn [mapM].
  destruct (Hall h (or_introl eq_refl)) as [[b Eb] | Eh].
  - rewrite Eb. cbn [bind].
    destruct Hin as [-> | Hin]; [congruence |].
    rewrite IH; [reflexivity | | exact Hin | exact Ha].
    intros x Hx. apply Hall. now right.
  - rewrite Eh. reflexivity.
Qed.

Lemma getPoint_returns pts x : exists r, FishGeometry.getPoint pts x = Normal r.
Proof.
  induction pts as [| i1 rest IH]; [eexists; reflexivity |].
  cbn [FishGeometry.getPoint].
  destruct rest as [| i2 rest']; [eexists; reflexivity |].
  destruct (Rleb (vx i1) x && Rleb x (vx i2)); [eexists; reflexivity | exact IH].
Qed.

Lemma getPointDefined_cases pts x :
  (exists v, FishGeometry.getPointDefined pts x = Normal v) \/
  FishGeometry.getPointDefined pts x = Throw TypeError.
Proof.
  unfold FishGeometry.getPointDefined.
  destruct (getPoint_returns pts x) as [[v |] ->]; cbn [bind]; [left; eauto | now right].
Qed.

Lemma getPointDefined_outside pts x :
  x < FishGeometry.xMin pts \/ FishGeometry.xMax pts < x ->
  FishGeometry.getPointDefined pts x = Throw TypeError.
Proof.
  intros H. unfold FishGeometry.getPointDefined.
  rewrite getPoint_no_bracket; [reflexivity |].
  destruct H as [H | H]; [left | right]; intros p Hp.
  - pose proof (xMin_le pts p Hp). lra.
  - pose proof (xMax_ge pts p Hp). lra.
Qed.

(** X14.  [createFin] looks up, on the base polyline, the [x] of every point
    of the contour and uses the result as a vector: when one contour point
    has its [x] outside the range of the base, the lookup returns
    [undefined] and the call ends with a [TypeError]; no fin is built. *)
Theorem fin_with_contour_outside_base_throws :
  forall (basePoints contourPoints : list Vector3) (isTop : bool) (p : Vector3),
    In p contourPoints ->
    vx p < FishGeometry.xMin basePoints \/ FishGeometry.xMax basePoints < vx p ->
    FishGeometry.createFin basePoints contourPoints isTop = Throw TypeError.
Proof.
  intros basePoints contourPoints isTop p Hin Hout.
  unfold FishGeometry.createFin. cbv zeta.
  match goal with
  | |- bind (mapM ?f ?l) _ = _ => rewrite (mapM_throws _ _ f TypeError l p)
  end; try reflexivity.
  - intros x _. destruct (getPointDefined_cases basePoints (vx x)) as [[v ->] | ->];
      cbn [bind]; [left; eauto | now right].
  - exact Hin.
  - rewrite getPointDefined_outside by exact Hout. reflexivity.
Qed.

Lemma fin_outside_witness :
  FishGeometry.createFin [vec3 0 0 0; vec3 1 1 0] [vec3 0.5 2 0; vec3 2 2 0] true
  = Throw TypeError.
Proof.
  apply (fin_with_contour_outside_base_throws
           [vec3 0 0 0; vec3 1 1 0] [vec3 0.5 2 0; vec3 2 2 0] true (vec3 2 2 0)).
  - right. now left.
  - right. unfold FishGeometry.xMax; simpl. repeat apply Rmax_lub_lt; lra.
Defined.

(** ** Curves: the ends of a closed curve *)

Lemma interpolate_0 p0 p1 p2 p3 : Curve.interpolate p0 p1 p2 p3 0 = p1.
Proof.
  unfold Curve.interpolate. cbv zeta. rewrite !calc_0.
  unfold Curve.initNonuniformCatmullRom, Curve.init; cbn [c0].
  now destruct p1.
Qed.

Lemma pointAt_length pts :
  (1 <= List.length pts)%nat ->
  Curve.pointAt pts (Z.of_nat (List.length pts)) = nth 0 pts V3.zero.
Proof.
  intros H. unfold Curve.pointAt. rewrite Z.rem_same by lia. reflexivity.
Qed.

Lemma locate_closed_0 pts :
  (1 <= List.length pts)%nat ->
  Curve.locate (mkCurve pts true) 0 = (Z.of_nat (List.length pts), 0).
Proof.
  intros H. unfold Curve.locate; cbn [closed controlPoints].
  rewrite Rmult_0_r.
  assert (E : Int_part 0 = 0%Z) by (symmetry; apply Int_part_spec; simpl; lra).
  rewrite E. cbn [Z.ltb Z.compare Z.abs].
  rewrite Z.div_0_l by lia. f_equal; [lia | simpl; lra].
Qed.

Lemma locate_closed_1 pts :
  (1 <= List.length pts)%nat ->
  Curve.locate (mkCurve pts true) 1 = (Z.of_nat (List.length pts), 0).
Proof.
  intros H. unfold Curve.locate; cbn [closed controlPoints].
  rewrite Rminus_0_r, Rmult_1_r, Int_part_INR.
  replace (0 <? Z.of_nat (List.length pts))%Z with true
    by (symmetry; apply Z.ltb_lt; lia).
  f_equal; [lia | rewrite <- INR_IZR_INZ; lra].
Qed.

Lemma getPoint_closed_ends pts :
  (1 <= List.length pts)%nat ->
  Curve.getPoint (mkCurve pts true) 0 = nth 0 pts V3.zero /\
  Curve.getPoint (mkCurve pts true) 1 = nth 0 pts V3.zero.
Proof.
  intros H. unfold Curve.getPoint.
  rewrite (locate_closed_0 pts H), (locate_closed_1 pts H).
  unfold Curve.neighbours; cbn [closed controlPoints orb]. cbv zeta.
  rewrite interpolate_0, pointAt_length by exact H. split; reflexivity.
Qed.

Lemma getSpacedPoints_closed_ends pts S :
  (1 <= List.length pts)%nat -> (1 <= S)%nat ->
  nth 0 (Curve.getSpacedPoints (mkCurve pts true) S) V3.zero = nth 0 pts V3.zero /\
  nth S (Curve.getSpacedPoints (mkCurve pts true) S) V3.zero = nth 0 pts V3.zero.
Proof.
  intros Hp HS. unfold Curve.getSpacedPoints.
  destruct (getPoint_closed_ends pts Hp) as [G0 G1].
  set (f := fun d : nat => Curve.getPointAt (mkCurve pts true) (INR d / INR S)).
  assert (D : forall k, (k < S + 1)%nat -> nth k (map f (seq 0 (S + 1))) V3.zero = f k).
  { intros k Hk.
    rewrite (nth_indep _ V3.zero (f 0%nat)) by (rewrite length_map, length_seq; exact Hk).
    rewrite map_nth, seq_nth by exact Hk. reflexivity. }
  split.
  - rewrite D by lia. unfold f.
    replace (INR 0 / INR S) with 0 by (simpl; unfold Rdiv; ring).
    rewrite getPointAt_0. exact G0.
  - rewrite D by lia. unfold f.
    rewrite Rdiv_diag by (apply not_0_INR; lia).
    rewrite getPointAt_1. exact G1.
Qed.

(** X15.  A frame of the body is a closed loop of [divisions + 1 = 201]
    points that starts and ends on the bottom point, whatever the three
    points it is built from. *)
Theorem frame_is_a_closed_loop_from_the_bottom :
  forall (top bottom side : Vector3),
    List.length (FishGeometry.getFramePoints top bottom side) = 201%nat /\
    nth 0 (FishGeometry.getFramePoints top bottom side) V3.zero = bottom /\
    nth 200 (FishGeometry.getFramePoints top bottom side) V3.zero = bottom.
Proof.
  intros top bottom side. split; [apply getFramePoints_length |].
  unfold FishGeometry.getFramePoints. cbv zeta.
  apply (getSpacedPoints_closed_ends
           [bottom; side; top; V3.setZ side (vz side * -1)] FishGeometry.divisions).
  - simpl. lia.
  - unfold FishGeometry.divisions. lia.
Qed.

(** ** Mesh assembly: the [parts] attribute *)

Lemma map_const A B (b : B) (l : list A) : map (fun _ => b) l = repeat b (List.length l).
Proof. induction l as [| a l IH]; simpl; [| rewrite IH]; reflexivity. Qed.

(** A geometry whose vertices all carry the tag [t]. *)
Lemma createFin_tags basePoints contourPoints isTop g :
  FishGeometry.createFin basePoints contourPoints isTop = Normal g ->
  partTags g = repeat 1%nat (Three.vertexCount g).
Proof.
  unfold FishGeometry.createFin. intros H. bind_inv H. inversion H; subst; clear H.
  unfold Three.vertexCount; cbn [positions partTags Three.setParts Three.setPosition].
  apply map_const.
Qed.

Lemma tailGeometry_tags lastFrame g :
  FishGeometry.tailGeometry lastFrame = Normal g ->
  partTags g = repeat 1%nat (Three.vertexCount g).
Proof.
  unfold FishGeometry.tailGeometry. intros H. bind_inv H. inversion H; subst; clear H.
  unfold Three.vertexCount; cbn [positions partTags Three.setParts Three.setPosition].
  apply map_const.
Qed.

Lemma moved_tags g t a x y z :
  partTags g = repeat t (Three.vertexCount g) ->
  partTags (Three.translate (Three.rotateX (Three.translate g 0 0.6 0) a) x y z)
  = repeat t (Three.vertexCount
                (Three.translate (Three.rotateX (Three.translate g 0 0.6 0) a) x y z)).
Proof.
  intros H. unfold Three.vertexCount, Three.translate, Three.rotateX in *.
  cbn [positions partTags]. rewrite !length_map. exact H.
Qed.

Lemma fishParts_tags gs :
  FishGeometry.fishParts = Normal gs ->
  exists body fins,
    gs = body :: fins /\
    partTags body = repeat 0%nat (Three.vertexCount body) /\
    Forall (fun g => partTags g = repeat 1%nat (Three.vertexCount g)) fins.
Proof.
  unfold FishGeometry.fishParts. intros H.
  bind_inv H. rename a into frames, Ha into Hframes.
  bind_inv H. rename a into lastFrame, Ha into Hlast.
  bind_inv H. rename a into gTail, Ha into Htail.
  bind_inv H. rename a into gDorsal, Ha into Hdorsal.
  bind_inv H. rename a into gRect, Ha into Hrect.
  bind_inv H. rename a into gPelvic, Ha into Hpelvic.
  inversion H; subst; clear H.
  eexists. eexists. split; [reflexivity |]. split.
  - unfold Three.vertexCount; cbn [positions partTags Three.setParts Three.setPosition].
    apply map_const.
  - repeat constructor.
    + exact (tailGeometry_tags _ _ Htail).
    + exact (createFin_tags _ _ _ _ Hdorsal).
    + exact (createFin_tags _ _ _ _ Hrect).
    + apply moved_tags. exact (createFin_tags _ _ _ _ Hpelvic).
    + apply moved_tags. exact (createFin_tags _ _ _ _ Hpelvic).
Qed.

Lemma concat_tags t gs :
  Forall (fun g => partTags g = repeat t (Three.vertexCount g)) gs ->
  concat (map partTags gs) = repeat t (list_sum (map Three.vertexCount gs)).
Proof.
  induction 1 as [| g gs Hg _ IH]; [reflexivity |].
  cbn [map concat list_sum]. rewrite IH, Hg. symmetry. apply repeat_app.
Qed.

(** X16.  In the mesh [createFishGeometry] returns every vertex carries one
    [parts] tag: 0 for the vertices of the body, which come first, and 1 for
    every vertex of the five fins after them. *)
Theorem merged_mesh_tags_body_then_fins :
  exists (g body : BufferGeometry) (fins : list BufferGeometry),
    FishGeometry.createFishGeometry = Normal g /\
    FishGeometry.fishParts = Normal (body :: fins) /\
    List.length fins = 5%nat /\
    List.length (partTags g) = Three.vertexCount g /\
    partTags g
    = repeat 0%nat (Three.vertexCount body)
      ++ repeat 1%nat (Three.vertexCount g - Three.vertexCount body).
Proof.
  destruct fishParts_returns as [gs Hgs].
  destruct (fishParts_valid gs Hgs) as [L _].
  destruct (fishParts_tags gs Hgs) as (body & fins & -> & Tb & Tf).
  exists (Three.mergeGeometries (body :: fins)), body, fins.
  split; [unfold FishGeometry.createFishGeometry; rewrite Hgs; reflexivity |].
  split; [exact Hgs |]. split; [simpl in L; lia |].
  assert (E : partTags (Three.mergeGeometries (body :: fins))
              = repeat 0%nat (Three.vertexCount body)
                ++ repeat 1%nat (list_sum (map Three.vertexCount fins))).
  { unfold Three.mergeGeometries; cbn [partTags map concat].
    rewrite Tb, (concat_tags 1%nat fins Tf). reflexivity. }
  rewrite mergeGeometries_count. cbn [map list_sum].
  set (nb := Three.vertexCount body) in *.
  set (nf := list_sum (map Three.vertexCount fins)) in *.
  split.
  - rewrite E, length_app, !repeat_length. reflexivity.
  - rewrite E. change (list_sum (nb :: map Three.vertexCount fins)) with (nb + nf)%nat.
    now replace (nb + nf - nb)%nat with nf by lia.
Qed.

(** ** Mesh assembly: the shape of a fin *)

Lemma flat_map_length_const A B (f : A -> list B) n l :
  (forall a, List.length (f a) = n) -> List.length (flat_map f l) = (n * List.length l)%nat.
Proof.
  intros H. induction l as [| a l IH]; simpl; [lia |].
  rewrite length_app, H, IH. lia.
Qed.

Lemma planeIndices_length gridX gridY :
  List.length (Three.planeIndices gridX gridY) = (6 * gridX * gridY)%nat.
Proof.
  unfold Three.planeIndices. cbv zeta.
  rewrite (flat_map_length_const _ _ _ (6 * gridX)%nat).
  - rewrite length_seq. lia.
  - intros iy. rewrite (flat_map_length_const _ _ _ 6%nat); [| reflexivity].
    rewrite length_seq. lia.
Qed.

(** X17.  The fin [createFin] returns for a contour of [n >= 1] points is a
    strip of [4 n - 2] vertices, all tagged 1, and [12 (n - 1)] indices,
    each the index of a vertex; its first [n] vertices are the contour. *)
Theorem fin_mesh_shape :
  forall (basePoints contourPoints : list Vector3) (isTop : bool) (g : BufferGeometry),
    FishGeometry.createFin basePoints contourPoints isTop = Normal g ->
    (1 <= List.length contourPoints)%nat ->
    Three.vertexCount g = (4 * List.length contourPoints - 2)%nat /\
    List.length (indices g) = (12 * (List.length contourPoints - 1))%nat /\
    Forall (fun i => (i < Three.vertexCount g)%nat) (indices g) /\
    partTags g = repeat 1%nat (Three.vertexCount g) /\
    firstn (List.length contourPoints) (positions g) = contourPoints.
Proof.
  intros basePoints contourPoints isTop g H Hn.
  destruct (createFin_valid _ _ _ _ H Hn) as [V C].
  split; [exact C |]. split; [| split; [exact V | split; [exact (createFin_tags _ _ _ _ H) |]]].
  - unfold FishGeometry.createFin in H. bind_inv H. inversion H; subst; clear H.
    cbn [indices Three.setParts Three.setPosition Three.PlaneGeometry].
    rewrite planeIndices_length. lia.
  - unfold FishGeometry.createFin in H. bind_inv H. inversion H; subst; clear H.
    cbn [positions Three.setParts Three.setPosition].
    rewrite firstn_app, Nat.sub_diag, firstn_all. cbn [firstn]. apply app_nil_r.
Qed.

Lemma fin_mesh_shape_witness :
  exists g,
    FishGeometry.createFin [vec3 0 0 0; vec3 1 0 0] [vec3 0.25 1 0; vec3 0.75 1 0] true
    = Normal g /\
    Three.vertexCount g = 6%nat /\
    List.length (indices g) = 12%nat /\
    Forall (fun i => (i < Three.vertexCount g)%nat) (indices g) /\
    partTags g = repeat 1%nat (Three.vertexCount g) /\
    firstn 2 (positions g) = [vec3 0.25 1 0; vec3 0.75 1 0].
Proof.
  destruct (createFin_returns [vec3 0 0 0; vec3 1 0 0] [vec3 0.25 1 0; vec3 0.75 1 0] true)
    as [g Hg].
  { intros p Hp. apply getPointDefined_bracket; [simpl; lia |].
    destruct Hp as [<- | [<- | []]]; simpl; lra. }
  exists g. split; [exact Hg |].
  exact (fin_mesh_shape _ _ true g Hg ltac:(simpl; lia)).
Defined.

(** ** Bubbles *)



(** X19.  [resetBubble] puts a bubble 0.2 above the floor of the tank, within
    the middle 40% of its width and depth, with a speed between 0.15 and 0.5
    (for values of [Math.random()] in [[0, 1]]); a frame keeps the speed of a
    bubble in that range, so a bubble never sinks. *)
Theorem bubble_restarts_near_the_bottom_and_keeps_rising :
  forall (d : BubbleDraws) (b : Bubble),
    0 <= bubbleXDraw d <= 1 -> 0 <= bubbleZDraw d <= 1 -> 0 <= bubbleSpeedDraw d <= 1 ->
    let r := Bubbles.resetBubble d b in
    (- (Tank.aqWidth * 0.2) <= vx (bubblePosition r) <= Tank.aqWidth * 0.2 /\
     vy (bubblePosition r) = - Tank.aqHeight / 2 + 0.2 /\
     - (Tank.aqDepth * 0.2) <= vz (bubblePosition r) <= Tank.aqDepth * 0.2 /\
     0.15 <= bubbleSpeed r <= 0.5) /\
    forall delta now1 now2,
      0.15 <= bubbleSpeed b <= 0.5 ->
      0.15 <= bubbleSpeed (Bubbles.animateBubble delta now1 now2 d b) <= 0.5.
Proof.
  intros d b Hx Hz Hs r.
  assert (R : 0.15 <= MathUtils.randFloat (bubbleSpeedDraw d) 0.15 0.5 <= 0.5)
    by (apply randFloat_range; lra).
  split.
  - unfold r, Bubbles.resetBubble, MathUtils.randFloatSpread;
      cbn [bubblePosition bubbleSpeed vx vy vz].
    unfold Tank.aqWidth, Tank.aqDepth.
    split; [lra |]. split; [reflexivity |]. split; [lra | exact R].
  - intros delta now1 now2 Hb. unfold Bubbles.animateBubble. cbv zeta.
    destruct (Rltb _ _); [exact R | exact Hb].
Qed.

Lemma bubble_restart_witness :
  let d := mkBubbleDraws 0 1 0.5 in
  let b := mkBubble (vec3 0 4.6 0) 0.3 in
  let r := Bubbles.resetBubble d b in
  (- (Tank.aqWidth * 0.2) <= vx (bubblePosition r) <= Tank.aqWidth * 0.2 /\
   vy (bubblePosition r) = - Tank.aqHeight / 2 + 0.2 /\
   - (Tank.aqDepth * 0.2) <= vz (bubblePosition r) <= Tank.aqDepth * 0.2 /\
   0.15 <= bubbleSpeed r <= 0.5) /\
  forall delta now1 now2,
    0.15 <= bubbleSpeed b <= 0.5 ->
    0.15 <= bubbleSpeed (Bubbles.animateBubble delta now1 now2 d b) <= 0.5.
Proof.
  intros d b.
  apply (bubble_restarts_near_the_bottom_and_keeps_rising d b); simpl; lra.
Defined.

(** ** Sand *)

Lemma mapi_nth A (f : nat -> A -> A) l i d :
  (i < List.length l)%nat -> nth i (JsArray.mapi f l) d = f i (nth i l d).
Proof.
  intros H. unfold JsArray.mapi.
  pose proof (mapiFrom_nth_error f 0 l i) as E.
  destruct (nth_error l i) as [a |] eqn:N; [| apply nth_error_None in N; lia].
  simpl in E. rewrite (nth_error_nth _ _ d E), (nth_error_nth _ _ d N). reflexivity.
Qed.

Lemma deformVertex_xz wx wz depth radius orig i v :
  vx (Sand.deformVertex wx wz depth radius orig i v) = vx v /\
  vz (Sand.deformVertex wx wz depth radius orig i v) = vz v.
Proof.
  unfold Sand.deformVertex. cbv zeta. destruct (Rltb _ radius); split; reflexivity.
Qed.

Lemma deformVertex_twice wx wz depth radius orig i v :
  Sand.deformVertex wx wz depth radius orig i
    (Sand.deformVertex wx wz depth radius orig i v)
  = Sand.deformVertex wx wz depth radius orig i v.
Proof.
  unfold Sand.deformVertex at 2. cbv zeta.
  match goal with |- context [Rltb ?d radius] => set (dist := d) end.
  destruct (Rltb dist radius) eqn:E;
    unfold Sand.deformVertex; cbv zeta; cbn [V3.setY vx vz]; fold dist;
    rewrite E; reflexivity.
Qed.

Lemma deformVertex_range wx wz depth radius orig i v :
  0 < radius -> 0 <= depth ->
  nth i orig 0 - depth <= vy v <= nth i orig 0 ->
  nth i orig 0 - depth <= vy (Sand.deformVertex wx wz depth radius orig i v)
  <= nth i orig 0.
Proof.
  intros Hr Hd Hv. unfold Sand.deformVertex. cbv zeta.
  match goal with |- context [Rltb ?d radius] => set (dist := d) end.
  destruct (Rltb dist radius) eqn:E; [| exact Hv].
  apply Rltb_true in E. cbn [V3.setY vy].
  assert (P : 0 <= dist) by apply sqrt_pos.
  assert (F : 0 <= dist / radius < 1).
  { split.
    - apply Rmult_le_pos; [exact P | left; apply Rinv_0_lt_compat; exact Hr].
    - apply Rmult_lt_reg_r with radius; [exact Hr |].
      unfold Rdiv. rewrite Rmult_assoc, Rinv_l by lra. lra. }
  split; nra.
Qed.

(** X20.  [deformSandAt] presses a dent into the sand: a vertex closer than
    [radius] (in the horizontal plane) is set to its original height minus
    at most [depth], the other vertices, every [x] and [z] and the original
    heights are left as they were; the dent is computed from the original
    heights, so pressing again at the same place changes nothing. *)
Theorem sand_dent_is_local_bounded_and_idempotent :
  forall (worldX worldZ depth radius : R) (s : SandState),
    let s' := Sand.deformSandAt worldX worldZ depth radius s in
    sandOrigY s' = sandOrigY s /\
    List.length (positionAttr s') = List.length (positionAttr s) /\
    Sand.deformSandAt worldX worldZ depth radius s' = s' /\
    forall i, (i < List.length (positionAttr s))%nat ->
      let v := nth i (positionAttr s) V3.zero in
      let v' := nth i (positionAttr s') V3.zero in
      let dist := sqrt ((vx v - worldX) * (vx v - worldX)
                        + (vz v - worldZ) * (vz v - worldZ)) in
      vx v' = vx v /\ vz v' = vz v /\
      (radius <= dist -> v' = v) /\
      (dist < radius ->
       vy v' = nth i (sandOrigY s) 0 - depth * (1 - dist / radius)).
Proof.
  intros wx wz depth radius s s'.
  split; [reflexivity |]. split; [apply mapi_length |]. split.
  - unfold s', Sand.deformSandAt; cbn [positionAttr sandOrigY]. f_equal.
    unfold JsArray.mapi.
    generalize 0%nat as k. generalize (positionAttr s) as l.
    induction l as [| a l IH]; intros k; [reflexivity |].
    cbn [JsArray.mapiFrom]. now rewrite deformVertex_twice, IH.
  - intros i Hi v v' dist.
    assert (E : v' = Sand.deformVertex wx wz depth radius (sandOrigY s) i v)
      by (unfold v', s', Sand.deformSandAt; cbn [positionAttr]; now apply mapi_nth).
    rewrite E.
    destruct (deformVertex_xz wx wz depth radius (sandOrigY s) i v) as [Ex Ez].
    split; [exact Ex |]. split; [exact Ez |].
    unfold Sand.deformVertex, Sand.sandPosition. cbv zeta. cbn [vx vz].
    rewrite !Rplus_0_r. fold dist.
    split; intros H.
    + replace (Rltb dist radius) with false by (symmetry; apply Rltb_false; lra).
      reflexivity.
    + replace (Rltb dist radius) with true by (symmetry; apply Rltb_true; lra).
      reflexivity.
Qed.

Lemma sand_dent_witness :
  let s := Sand.recordOrigY [vec3 0 0.4 0; vec3 3 0.5 4] in
  let s' := Sand.deformSandAt 0 0 0.12 0.5 s in
  vx (nth 0 (positionAttr s') V3.zero) = 0 /\
  vz (nth 0 (positionAttr s') V3.zero) = 0 /\
  (0.5 <= sqrt ((0 - 0) * (0 - 0) + (0 - 0) * (0 - 0)) ->
   nth 0 (positionAttr s') V3.zero = vec3 0 0.4 0) /\
  (sqrt ((0 - 0) * (0 - 0) + (0 - 0) * (0 - 0)) < 0.5 ->
   vy (nth 0 (positionAttr s') V3.zero)
   = 0.4 - 0.12 * (1 - sqrt ((0 - 0) * (0 - 0) + (0 - 0) * (0 - 0)) / 0.5)).
Proof.
  intros s s'.
  destruct (sand_dent_is_local_bounded_and_idempotent 0 0 0.12 0.5 s) as (_ & _ & _ & H).
  apply (H 0%nat). simpl. lia.
Defined.

Lemma relax_nth delta speed s i :
  (i < List.length (positionAttr s))%nat ->
  nth i (positionAttr (Sand.relaxSand delta speed s)) V3.zero
  = V3.setY (nth i (positionAttr s) V3.zero)
      (vy (nth i (positionAttr s) V3.zero)
       + (nth i (sandOrigY s) 0 - vy (nth i (positionAttr s) V3.zero)) * speed * delta).
Proof.
  intros H. unfold Sand.relaxSand; cbn [positionAttr]. now rewrite mapi_nth.
Qed.

(** X21.  [relaxSand] moves every vertex back toward its original height:
    the distance left is the distance before times [1 - speed * delta], so
    for [0 <= speed * delta <= 1] a vertex never passes its original height;
    [x], [z] and the original heights are not changed. *)
Theorem sand_relaxes_toward_its_original_height :
  forall (delta speed : R) (s : SandState) (i : nat),
    (i < List.length (positionAttr s))%nat ->
    let v := nth i (positionAttr s) V3.zero in
    let v' := nth i (positionAttr (Sand.relaxSand delta speed s)) V3.zero in
    let origY := nth i (sandOrigY s) 0 in
    sandOrigY (Sand.relaxSand delta speed s) = sandOrigY s /\
    vx v' = vx v /\ vz v' = vz v /\
    vy v' - origY = (1 - speed * delta) * (vy v - origY) /\
    (0 <= speed * delta <= 1 -> Rabs (vy v' - origY) <= Rabs (vy v - origY)).
Proof.
  intros delta speed s i Hi v v' origY.
  assert (E : v' = V3.setY v (vy v + (origY - vy v) * speed * delta))
    by (apply relax_nth; exact Hi).
  split; [reflexivity |]. rewrite E; cbn [V3.setY vx vy vz].
  split; [reflexivity |]. split; [reflexivity |]. split; [ring |].
  intros H.
  replace (vy v + (origY - vy v) * speed * delta - origY)
    with ((1 - speed * delta) * (vy v - origY)) by ring.
  rewrite Rabs_mult, (Rabs_pos_eq (1 - speed * delta)) by lra.
  pose proof (Rabs_pos (vy v - origY)). nra.
Qed.

Lemma sand_relax_witness :
  let s := mkSand [vec3 1 0.3 2] [0.4] in
  let v' := nth 0 (positionAttr (Sand.relaxSand (1 / 60) 0.2 s)) V3.zero in
  sandOrigY (Sand.relaxSand (1 / 60) 0.2 s) = [0.4] /\
  vx v' = 1 /\ vz v' = 2 /\
  vy v' - 0.4 = (1 - 0.2 * (1 / 60)) * (0.3 - 0.4) /\
  (0 <= 0.2 * (1 / 60) <= 1 -> Rabs (vy v' - 0.4) <= Rabs (0.3 - 0.4)).
Proof.
  intros s v'.
  apply (sand_relaxes_toward_its_original_height (1 / 60) 0.2 s 0). simpl. lia.
Defined.

Lemma deformSandAt_dented wx wz s :
  dentedAtMost 0.12 s -> dentedAtMost 0.12 (Sand.deformSandAt wx wz 0.12 0.5 s).
Proof.
  intros [HL H]. unfold dentedAtMost, Sand.deformSandAt; cbn [positionAttr sandOrigY].
  rewrite mapi_length. split; [exact HL |].
  intros i Hi. rewrite mapi_nth by exact Hi.
  apply deformVertex_range; [lra | lra | now apply H].
Qed.

Lemma relaxSand_dented delta s :
  0 <= delta <= 5 -> dentedAtMost 0.12 s -> dentedAtMost 0.12 (Sand.relaxSand delta 0.2 s).
Proof.
  intros Hd [HL H]. unfold dentedAtMost.
  assert (L : List.length (positionAttr (Sand.relaxSand delta 0.2 s))
              = List.length (positionAttr s))
    by (unfold Sand.relaxSand; cbn [positionAttr]; apply mapi_length).
  rewrite L. split; [exact HL |].
  intros i Hi. rewrite relax_nth by exact Hi. cbn [V3.setY vy sandOrigY Sand.relaxSand].
  specialize (H i Hi). nra.
Qed.

Lemma dentFold_dented fs s :
  dentedAtMost 0.12 s ->
  dentedAtMost 0.12
    (fold_left
       (fun s fishPos =>
          if Rltb (Rabs (vy fishPos - vy Sand.sandPosition)) 0.5
          then Sand.deformSandAt (vx fishPos) (vz fishPos) 0.12 0.5 s
          else s)
       fs s).
Proof.
  revert s; induction fs as [| f fs IH]; intros s H; [exact H |].
  cbn [fold_left]. apply IH.
  destruct (Rltb _ 0.5); [now apply deformSandAt_dented | exact H].
Qed.

(** X22.  Through the sand part of every frame (a dent under each fish close
    to the sand, then the relaxation) every vertex of the sand stays between
    its original height and 0.12 below it, for a frame of at most five
    seconds; the sand as it is when the page loads satisfies this. *)
Theorem sand_stays_between_original_height_and_dent_depth :
  forall (delta : R) (fishPositions : list Vector3) (s : SandState),
    0 <= delta <= 5 ->
    (forall verts, dentedAtMost 0.12 (Sand.recordOrigY verts)) /\
    (dentedAtMost 0.12 s -> dentedAtMost 0.12 (Sand.sandTick delta fishPositions s)).
Proof.
  intros delta fs s Hd. split.
  - intros verts. unfold dentedAtMost, Sand.recordOrigY; cbn [positionAttr sandOrigY].
    split; [apply length_map |].
    intros i Hi. pose proof (map_nth vy verts V3.zero i) as E.
    change (vy V3.zero) with 0 in E. rewrite E. lra.
  - intros H. unfold Sand.sandTick.
    apply relaxSand_dented; [exact Hd |]. now apply dentFold_dented.
Qed.

Lemma sand_stays_witness :
  let s := Sand.recordOrigY [vec3 0 0.4 0; vec3 3 0.5 4] in
  dentedAtMost 0.12 (Sand.sandTick (1 / 60) [vec3 0.1 (-4.5) 0] s).
Proof.
  intros s.
  destruct (sand_stays_between_original_height_and_dent_depth
              (1 / 60) [vec3 0.1 (-4.5) 0] s ltac:(lra)) as [A B].
  apply B, A.
Defined.

(** X23.  A fish inside the motion bounds never dents the sand: the sand
    mesh sits at [y = -4.6], more than 0.5 below the lowest height a fish can
    have, so for such fish the sand part of a frame is the relaxation
    alone. *)
Theorem fish_in_bounds_never_dent_the_sand :
  forall (delta : R) (fishPositions : list Vector3) (s : SandState),
    Forall (fun p => - Tank.halfY <= vy p <= Tank.halfY) fishPositions ->
    Sand.sandTick delta fishPositions s = Sand.relaxSand delta 0.2 s.
Proof.
  intros delta fs s H. unfold Sand.sandTick. f_equal.
  induction H as [| f fs Hf _ IH]; [reflexivity |].
  cbn [fold_left].
  replace (Rltb (Rabs (vy f - vy Sand.sandPosition)) 0.5) with false; [exact IH |].
  symmetry. apply Rltb_false.
  destruct half_extents as (_ & EY & _). rewrite EY in Hf.
  unfold Sand.sandPosition, Sand.sandHeight, Tank.aqHeight; cbn [vy].
  rewrite Rabs_pos_eq by lra. lra.
Qed.

Lemma fish_never_dent_witness :
  let s := Sand.recordOrigY [vec3 0 0.4 0; vec3 3 0.5 4] in
  Sand.sandTick (1 / 60) [vec3 0 (-3) 0; vec3 1 2 1] s = Sand.relaxSand (1 / 60) 0.2 s.
Proof.
  intros s.
  apply (fish_in_bounds_never_dent_the_sand (1 / 60) [vec3 0 (-3) 0; vec3 1 2 1] s).
  destruct half_extents as (_ & EY & _). rewrite EY.
  repeat constructor; simpl; lra.
Defined.

(** ** The height of the sand under a point *)

(** The state of the loop of [getSandHeightAt]: nothing found yet, or the
    squared distance and the height of a vertex of the top that no vertex of
    the top seen so far beats. *)
Lemma heightFold_spec x z h verts seen st :
  (st = (None, None) /\
   forall v, In v seen -> Rabs (vy v - h / 2) > 0.4) \/
  (exists v, In v seen /\ Rabs (vy v - h / 2) <= 0.4 /\
     st = (Some ((vx v - x) * (vx v - x) + (vz v - z) * (vz v - z)), Some (vy v)) /\
     forall u, In u seen -> Rabs (vy u - h / 2) <= 0.4 ->
       (vx v - x) * (vx v - x) + (vz v - z) * (vz v - z)
       <= (vx u - x) * (vx u - x) + (vz u - z) * (vz u - z)) ->
  let st' := fold_left (Sand.heightStep x z h) verts st in
  (st' = (None, None) /\
   forall v, In v (seen ++ verts) -> Rabs (vy v - h / 2) > 0.4) \/
  (exists v, In v (seen ++ verts) /\ Rabs (vy v - h / 2) <= 0.4 /\
     st' = (Some ((vx v - x) * (vx v - x) + (vz v - z) * (vz v - z)), Some (vy v)) /\
     forall u, In u (seen ++ verts) -> Rabs (vy u - h / 2) <= 0.4 ->
       (vx v - x) * (vx v - x) + (vz v - z) * (vz v - z)
       <= (vx u - x) * (vx u - x) + (vz u - z) * (vz u - z)).
Proof.
  revert seen st; induction verts as [| w verts IH]; intros seen st H st'.
  - unfold st'. cbn [fold_left]. rewrite app_nil_r. exact H.
  - unfold st'. cbn [fold_left].
    replace (seen ++ w :: verts) with ((seen ++ [w]) ++ verts)
      by (rewrite <- app_assoc; reflexivity).
    apply IH. unfold Sand.heightStep. cbv zeta.
    set (dw := (vx w - x) * (vx w - x) + (vz w - z) * (vz w - z)).
    destruct (Rltb 0.4 (Rabs (vy w - h / 2))) eqn:T.
    + apply Rltb_true in T.
      destruct H as [[-> Hn] | (v & Hv & Tv & -> & Hm)].
      * left. split; [reflexivity |]. intros u Hu. apply in_app_or in Hu.
        destruct Hu as [Hu | [<- | []]]; [now apply Hn | lra].
      * right. exists v. split; [apply in_or_app; now left |].
        split; [exact Tv |]. split; [reflexivity |].
        intros u Hu Tu. apply in_app_or in Hu.
        destruct Hu as [Hu | [<- | []]]; [now apply Hm | lra].
    + apply Rltb_false in T.
      destruct H as [[-> Hn] | (v & Hv & Tv & -> & Hm)].
      * right. cbn [fst Sand.closer]. exists w.
        split; [apply in_or_app; right; now left |].
        split; [lra |]. split; [reflexivity |].
        intros u Hu Tu. apply in_app_or in Hu.
        destruct Hu as [Hu | [<- | []]]; [specialize (Hn u Hu); lra | fold dw; lra].
      * right. cbn [fst Sand.closer].
        set (dv := (vx v - x) * (vx v - x) + (vz v - z) * (vz v - z)) in *.
        destruct (Rltb dw dv) eqn:C.
        -- apply Rltb_true in C. exists w.
           split; [apply in_or_app; right; now left |].
           split; [lra |]. split; [reflexivity |].
           intros u Hu Tu. apply in_app_or in Hu. fold dw.
           destruct Hu as [Hu | [<- | []]]; [specialize (Hm u Hu Tu); lra | fold dw; lra].
        -- apply Rltb_false in C. exists v.
           split; [apply in_or_app; now left |].
           split; [exact Tv |]. split; [reflexivity |].
           intros u Hu Tu. apply in_app_or in Hu. fold dv.
           destruct Hu as [Hu | [<- | []]]; [now apply Hm | fold dw; lra].
Qed.

(** X24.  [getSandHeightAt(x, z, ...)] returns [null] exactly when the
    geometry has no vertex within 0.4 of the top height [sandHeight / 2];
    otherwise it returns the height of such a vertex, one that no other such
    vertex is closer to [(x, z)] than (in the horizontal plane). *)
Theorem sand_height_is_that_of_a_nearest_top_vertex :
  forall (x z : R) (sandGeom : list Vector3) (sandWidth sandDepth sandHeight : R),
    let r := Sand.getSandHeightAt x z sandGeom sandWidth sandDepth sandHeight in
    (r = None /\
     Forall (fun v => Rabs (vy v - sandHeight / 2) > 0.4) sandGeom) \/
    (exists v, In v sandGeom /\ Rabs (vy v - sandHeight / 2) <= 0.4 /\
       r = Some (vy v) /\
       Forall (fun u => Rabs (vy u - sandHeight / 2) <= 0.4 ->
                 (vx v - x) * (vx v - x) + (vz v - z) * (vz v - z)
                 <= (vx u - x) * (vx u - x) + (vz u - z) * (vz u - z))
              sandGeom).
Proof.
  intros x z geom sw sd h r.
  destruct (heightFold_spec x z h geom [] (None, None)) as [[E Hn] | (v & Hv & Tv & E & Hm)].
  { left. split; [reflexivity |]. intros v []. }
  - left. unfold r, Sand.getSandHeightAt. rewrite E. split; [reflexivity |].
    apply Forall_forall. intros v Hv. now apply Hn.
  - right. exists v. cbn [app] in *. split; [exact Hv |]. split; [exact Tv |].
    unfold r, Sand.getSandHeightAt. rewrite E. split; [reflexivity |].
    apply Forall_forall. intros u Hu Tu. now apply Hm.
Qed.

(** ** The plants that sway *)




(** ** The mesh of the water surface *)

Lemma meshSetY_nth pos i y j :
  nth j (WaterMesh.setY pos i y) V3.zero
  = if ((i =? j) && (j <? List.length pos))%nat
    then V3.setY (nth j pos V3.zero) y else nth j pos V3.zero.
Proof.
  unfold WaterMesh.setY. rewrite setNth_nth.
  destruct (Nat.eqb_spec i j) as [-> | N]; reflexivity.
Qed.

Lemma meshSetY_length pos i y : List.length (WaterMesh.setY pos i y) = List.length pos.
Proof. apply setNth_length. Qed.

(** The columns [z = 0 .. k - 1] of the row [x]. *)
Lemma meshRow_spec (h : list (list R)) x k pos :
  let row := fold_left
               (fun p z => WaterMesh.setY p (z + x * Water.WATER_RES_Z)
                                          (Water.read h x z))
               (seq 0 k) pos in
  List.length row = List.length pos /\
  forall j,
    nth j row V3.zero
    = if ((x * Water.WATER_RES_Z <=? j) && (j <? x * Water.WATER_RES_Z + k)
          && (j <? List.length pos))%nat
      then V3.setY (nth j pos V3.zero) (Water.read h x (j - x * Water.WATER_RES_Z))
      else nth j pos V3.zero.
Proof.
  induction k as [| k IH]; intros row.
  - split; [reflexivity |]. intros j. unfold row. cbn [seq fold_left].
    replace ((x * Water.WATER_RES_Z <=? j) && (j <? x * Water.WATER_RES_Z + 0))%nat
      with false
      by (symmetry; apply andb_false_iff;
          destruct (Nat.leb_spec (x * Water.WATER_RES_Z) j); [right | now left];
          apply Nat.ltb_ge; lia).
    reflexivity.
  - unfold row. rewrite seq_S, fold_left_app. cbn [fold_left Nat.add].
    destruct IH as [L E]. split; [rewrite meshSetY_length; exact L |].
    intros j. rewrite meshSetY_nth, L, E.
    destruct (Nat.eqb_spec (k + x * Water.WATER_RES_Z) j) as [Q | Q].
    + subst j. cbn [andb].
      destruct (Nat.ltb_spec (k + x * Water.WATER_RES_Z) (List.length pos)) as [B | B].
      * replace (x * Water.WATER_RES_Z <=? k + x * Water.WATER_RES_Z)%nat with true
          by (symmetry; apply Nat.leb_le; lia).
        replace (k + x * Water.WATER_RES_Z <? x * Water.WATER_RES_Z + k)%nat with false
          by (symmetry; apply Nat.ltb_ge; lia).
        replace (k + x * Water.WATER_RES_Z <? x * Water.WATER_RES_Z + S k)%nat with true
          by (symmetry; apply Nat.ltb_lt; lia).
        cbn [andb].
        now replace (k + x * Water.WATER_RES_Z - x * Water.WATER_RES_Z)%nat with k by lia.
      * rewrite !andb_false_r. reflexivity.
    + cbn [andb].
      destruct (Nat.leb_spec (x * Water.WATER_RES_Z) j) as [A | A]; cbn [andb];
        [| reflexivity].
      destruct (Nat.ltb_spec j (x * Water.WATER_RES_Z + k)) as [B | B];
        destruct (Nat.ltb_spec j (x * Water.WATER_RES_Z + S k)) as [C | C];
        try lia; reflexivity.
Qed.

(** The rows [x = 0 .. m - 1]. *)
Lemma meshRows_spec (h : list (list R)) m pos :
  let rows := fold_left
                (fun p x =>
                   fold_left
                     (fun p z => WaterMesh.setY p (z + x * Water.WATER_RES_Z)
                                                (Water.read h x z))
                     (seq 0 Water.WATER_RES_Z) p)
                (seq 0 m) pos in
  List.length rows = List.length pos /\
  forall j,
    nth j rows V3.zero
    = if ((j <? m * Water.WATER_RES_Z) && (j <? List.length pos))%nat
      then V3.setY (nth j pos V3.zero)
             (Water.read h (j / Water.WATER_RES_Z) (j mod Water.WATER_RES_Z))
      else nth j pos V3.zero.
Proof.
  induction m as [| m IH]; intros rows.
  - split; reflexivity.
  - unfold rows. rewrite seq_S, fold_left_app. cbn [fold_left Nat.add].
    destruct IH as [L E].
    match goal with
    | |- context [fold_left ?f (seq 0 Water.WATER_RES_Z) ?p] =>
        destruct (meshRow_spec h m Water.WATER_RES_Z p) as [L' E']
    end.
    cbv zeta in L', E'. split; [rewrite L'; exact L |].
    intros j. rewrite E', L, E.
    unfold Water.WATER_RES_Z in *.
    destruct (Nat.leb_spec (m * 64) j) as [A | A]; cbn [andb].
    + replace (j <? m * 64)%nat with false by (symmetry; apply Nat.ltb_ge; lia).
      cbn [andb].
      destruct (Nat.ltb_spec j (m * 64 + 64)) as [B | B]; cbn [andb].
      * replace (j <? S m * 64)%nat with true by (symmetry; apply Nat.ltb_lt; lia).
        cbn [andb]. destruct (j <? List.length pos)%nat; [| reflexivity].
        assert (Q : (j / 64 = m)%nat)
          by (symmetry; apply (Nat.div_unique j 64 m (j - m * 64)); lia).
        assert (M : (j mod 64 = j - m * 64)%nat)
          by (symmetry; apply (Nat.mod_unique j 64 m (j - m * 64)); lia).
        now rewrite Q, M.
      * replace (j <? S m * 64)%nat with false by (symmetry; apply Nat.ltb_ge; lia).
        reflexivity.
    + replace (j <? m * 64)%nat with true by (symmetry; apply Nat.ltb_lt; lia).
      replace (j <? S m * 64)%nat with true by (symmetry; apply Nat.ltb_lt; lia).
      cbn [andb].
      destruct (j <? List.length pos)%nat eqn:B; [| reflexivity].
      cbn [V3.setY]. reflexivity.
Qed.

(** X26.  [updateWaterMesh] copies the height of the cell [(x, z)] to the
    [y] of the vertex [z + 64 x] and changes nothing else: the first 4096
    vertices of the mesh receive the 64 x 64 heights, row after row, every
    vertex keeps its [x] and [z], and the vertices from 4096 on (the plane of
    the sources has 129 x 129 of them) are never written. *)
Theorem water_mesh_receives_the_heights_row_by_row :
  forall (g : Water.Grid) (posAttr : list Vector3),
    let posAttr' := WaterMesh.updateWaterMesh g posAttr in
    List.length posAttr' = List.length posAttr /\
    (forall i, vx (nth i posAttr' V3.zero) = vx (nth i posAttr V3.zero) /\
               vz (nth i posAttr' V3.zero) = vz (nth i posAttr V3.zero)) /\
    (forall i, (4096 <= i)%nat -> nth i posAttr' V3.zero = nth i posAttr V3.zero) /\
    (forall x z, (x < 64)%nat -> (z < 64)%nat ->
                 (z + x * 64 < List.length posAttr)%nat ->
                 vy (nth (z + x * 64) posAttr' V3.zero) = hAt g x z).
Proof.
  intros g pos pos'.
  destruct (meshRows_spec (Water.waterHeights g) Water.WATER_RES_X pos) as [L E].
  cbv zeta in L, E.
  assert (U : pos' = fold_left
                (fun p x =>
                   fold_left
                     (fun p z => WaterMesh.setY p (z + x * Water.WATER_RES_Z)
                                   (Water.read (Water.waterHeights g) x z))
                     (seq 0 Water.WATER_RES_Z) p)
                (seq 0 Water.WATER_RES_X) pos) by reflexivity.
  rewrite U. unfold Water.WATER_RES_X, Water.WATER_RES_Z in *.
  split; [exact L |]. split; [| split].
  - intros i. rewrite E. destruct ((i <? 64 * 64) && (i <? List.length pos))%nat;
      split; reflexivity.
  - intros i Hi. rewrite E.
    replace (i <? 64 * 64)%nat with false by (symmetry; apply Nat.ltb_ge; lia).
    reflexivity.
  - intros x z Hx Hz Hl. rewrite E.
    replace (z + x * 64 <? 64 * 64)%nat with true by (symmetry; apply Nat.ltb_lt; lia).
    replace (z + x * 64 <? List.length pos)%nat with true
      by (symmetry; apply Nat.ltb_lt; lia).
    cbn [andb V3.setY vy]. unfold hAt.
    assert (Q : ((z + x * 64) / 64 = x)%nat)
      by (symmetry; apply (Nat.div_unique (z + x * 64) 64 x z); lia).
    assert (M : ((z + x * 64) mod 64 = z)%nat)
      by (symmetry; apply (Nat.mod_unique (z + x * 64) 64 x z); lia).
    now rewrite Q, M.
Qed.

Lemma water_mesh_witness :
  let g := Water.disturbWater 0 0 0.3 Water.initialGrid in
  let posAttr := repeat (vec3 1 2 3) WaterMesh.vertexCount in
  vy (nth (5 + 7 * 64) (WaterMesh.updateWaterMesh g posAttr) V3.zero) = hAt g 7 5.
Proof.
  intros g posAttr.
  destruct (water_mesh_receives_the_heights_row_by_row g posAttr) as (_ & _ & _ & H).
  apply (H 7%nat 5%nat); [lia | lia |].
  unfold posAttr. rewrite repeat_length. unfold WaterMesh.vertexCount. lia.
Defined.

(** ** The ribbon of a kelp plant *)

Lemma flat_map_pairs_nth A (f : nat -> list A) (d : A) a n i b :
  (forall k, List.length (f k) = 2%nat) ->
  (i < n)%nat -> (b < 2)%nat ->
  nth (2 * i + b) (flat_map f (seq a n)) d = nth b (f (a + i)%nat) d.
Proof.
  intros H. revert a i. induction n as [| n IH]; intros a i Hi Hb; [lia |].
  cbn [seq flat_map].
  destruct i as [| i].
  - rewrite app_nth1 by (rewrite H; lia).
    replace (a + 0)%nat with a by lia. reflexivity.
  - rewrite app_nth2 by (rewrite H; lia). rewrite H.
    replace (2 * S i + b - 2)%nat with (2 * i + b)%nat by lia.
    rewrite IH by lia. f_equal. f_equal. lia.
Qed.

Lemma sideOf_unit pA pB : V3.length (KelpRibbon.sideOf pA pB) = 1.
Proof.
  unfold KelpRibbon.sideOf. cbv zeta.
  set (s := V3.normalize _).
  destruct (Rltb (V3.length s) 0.0001) eqn:E.
  - rewrite length_x. apply Rabs_pos_eq. lra.
  - apply Rltb_false in E.
    destruct (normalize_cases (KelpRibbon.crossVectors (vec3 0 1 0)
                                 (V3.normalize (V3.sub pB pA)))) as [N | N].
    + fold s in N. unfold V3.length. rewrite N. apply sqrt_1.
    + fold s in N. rewrite N, length_zero in E. lra.
Qed.

Lemma segmentTriangles_bound segs i :
  (i + 1 < segs)%nat ->
  Forall (fun k => (k < 2 * segs)%nat) (KelpRibbon.segmentTriangles i).
Proof.
  intros H. unfold KelpRibbon.segmentTriangles. cbv zeta.
  repeat constructor; lia.
Qed.

(** X27.  The ribbon built for a chain of [n] points has two vertices for
    each of the [n - 1] segments and two triangles for each segment but the
    last, and every index is the index of a vertex.  The two vertices of the
    segment [i] sit on either side of the point [i] of the chain, which is
    their middle, at a distance that narrows from [bladeWidth] at the base
    toward a quarter of it at the tip. *)
Theorem ribbon_follows_the_chain :
  forall (points : list Vector3) (bladeWidth : R),
    0 <= bladeWidth ->
    let segs := (List.length points - 1)%nat in
    let r := KelpRibbon.createKelpRibbon points bladeWidth in
    List.length (ribbonPositions r) = (2 * segs)%nat /\
    List.length (ribbonUvs r) = (2 * segs)%nat /\
    List.length (ribbonIndex r) = (6 * (segs - 1))%nat /\
    Forall (fun k => (k < 2 * segs)%nat) (ribbonIndex r) /\
    forall i, (i < segs)%nat ->
      let leftV := nth (2 * i) (ribbonPositions r) V3.zero in
      let rightV := nth (2 * i + 1) (ribbonPositions r) V3.zero in
      V3.lerp leftV rightV (1 / 2) = nth i points V3.zero /\
      V3.distanceTo leftV rightV = bladeWidth * (1 - INR i / INR segs * 0.75).
Proof.
  intros points bladeWidth Hb segs r.
  unfold r, KelpRibbon.createKelpRibbon. cbv zeta. fold segs.
  cbn [ribbonPositions ribbonUvs ribbonIndex].
  split; [| split; [| split; [| split]]].
  - rewrite (flat_map_length_const _ _ _ 2%nat); [| reflexivity].
    rewrite length_seq. lia.
  - rewrite (flat_map_length_const _ _ _ 2%nat); [| reflexivity].
    rewrite length_seq. lia.
  - rewrite (flat_map_length_const _ _ _ 6%nat); [| reflexivity].
    rewrite length_seq. lia.
  - apply Forall_forall. intros k Hk. apply in_flat_map in Hk.
    destruct Hk as (i & Hi & Hk). apply in_seq in Hi.
    pose proof (segmentTriangles_bound segs i ltac:(lia)) as B.
    rewrite Forall_forall in B. now apply B.
  - intros i Hi.
    set (leftV := nth (2 * i) _ V3.zero). set (rightV := nth (2 * i + 1) _ V3.zero).
    assert (El : leftV = nth 0 (KelpRibbon.segmentVertices points bladeWidth segs i) V3.zero).
    { unfold leftV. replace (2 * i)%nat with (2 * i + 0)%nat by lia.
      rewrite (flat_map_pairs_nth _ _ _ 0 segs i 0); [reflexivity | reflexivity | lia | lia]. }
    assert (Er : rightV = nth 1 (KelpRibbon.segmentVertices points bladeWidth segs i) V3.zero).
    { unfold rightV.
      rewrite (flat_map_pairs_nth _ _ _ 0 segs i 1); [reflexivity | reflexivity | lia | lia]. }
    unfold KelpRibbon.segmentVertices in El, Er. cbv zeta in El, Er. cbn [nth] in El, Er.
    set (pA := nth i points V3.zero) in *.
    set (side := KelpRibbon.sideOf pA (nth (i + 1) points V3.zero)) in *.
    set (w := KelpRibbon.widthAt bladeWidth segs i) in *.
    assert (Ps : 0 < INR segs) by (apply lt_0_INR; lia).
    assert (T : 0 <= INR i / INR segs <= 1).
    { split.
      - apply Rmult_le_pos; [apply pos_INR | left; apply Rinv_0_lt_compat; exact Ps].
      - apply Rmult_le_reg_r with (INR segs); [exact Ps |].
        unfold Rdiv. rewrite Rmult_assoc, Rinv_l by lra.
        assert (INR i <= INR segs) by (apply le_INR; lia). lra. }
    assert (Pw : 0 <= w) by (unfold w, KelpRibbon.widthAt; cbv zeta; nra).
    split.
    + rewrite El, Er. unfold V3.lerp, V3.add, V3.multiplyScalar; cbn [vx vy vz].
      destruct pA; apply vec3_eq; simpl; field.
    + rewrite distanceTo_sub, El, Er.
      replace (V3.sub (V3.add pA (V3.multiplyScalar side (w * 0.5)))
                      (V3.add pA (V3.multiplyScalar side (- w * 0.5))))
        with (V3.multiplyScalar side w)
        by (unfold V3.sub, V3.add, V3.multiplyScalar; apply vec3_eq; simpl; lra).
      rewrite length_multiplyScalar. unfold side. rewrite sideOf_unit.
      rewrite Rabs_pos_eq by exact Pw. unfold w, KelpRibbon.widthAt. cbv zeta. ring.
Qed.

Lemma ribbon_witness :
  let points := points (Kelp.newPlant V3.zero) in
  let r := KelpRibbon.createKelpRibbon points 0.18 in
  List.length (ribbonPositions r) = 22%nat /\
  List.length (ribbonUvs r) = 22%nat /\
  List.length (ribbonIndex r) = 60%nat /\
  Forall (fun k => (k < 22)%nat) (ribbonIndex r) /\
  forall i, (i < 11)%nat ->
    let leftV := nth (2 * i) (ribbonPositions r) V3.zero in
    let rightV := nth (2 * i + 1) (ribbonPositions r) V3.zero in
    V3.lerp leftV rightV (1 / 2) = nth i points V3.zero /\
    V3.distanceTo leftV rightV = 0.18 * (1 - INR i / INR 11 * 0.75).
Proof.
  intros points r.
  exact (ribbon_follows_the_chain points 0.18 ltac:(lra)).
Defined.

(** ** The earlier loop *)

Lemma clamp_inside v lo hi : lo <= v <= hi -> MathUtils.clamp v lo hi = v.
Proof.
  intros H. unfold MathUtils.clamp. rewrite Rmin_right, Rmax_right by lra. reflexivity.
Qed.

(** X30.  In the earlier loop a fish is kept inside the motion bounds by
    clamping its position: after the body of the loop the position is within
    the bounds, it is the position moved by [vel * delta] whenever that point
    is within the bounds, and the velocity is never reflected: it has the
    magnitude [|fishSpeed|] (or is zero when the blended direction is zero),
    whether the fish was clamped or not. *)
Theorem early_loop_clamps_position_only :
  forall (p : Params) (delta : R) (fs : list EarlyLoop.Fish) (i : nat)
         (target : Vector3) (f : EarlyLoop.Fish),
    let f' := EarlyLoop.moveFish p delta fs i target f in
    let moved := V3.addScaledVector (EarlyLoop.position f) (EarlyLoop.velocity f') delta in
    (- Tank.halfX <= vx (EarlyLoop.position f') <= Tank.halfX /\
     - Tank.halfY <= vy (EarlyLoop.position f') <= Tank.halfY /\
     - Tank.halfZ <= vz (EarlyLoop.position f') <= Tank.halfZ) /\
    (V3.length (EarlyLoop.velocity f') = Rabs (fishSpeed p) \/
     EarlyLoop.velocity f' = V3.zero) /\
    ((- Tank.halfX <= vx moved <= Tank.halfX /\
      - Tank.halfY <= vy moved <= Tank.halfY /\
      - Tank.halfZ <= vz moved <= Tank.halfZ) ->
     EarlyLoop.position f' = moved).
Proof.
  intros p delta fs i target f f' moved.
  destruct half_extents as (EX & EY & EZ).
  unfold f', EarlyLoop.moveFish in *. cbv zeta in *.
  cbn [EarlyLoop.position EarlyLoop.velocity vx vy vz] in *.
  split; [| split].
  - repeat split; apply clamp_bounds; lra.
  - match goal with |- V3.length (V3.multiplyScalar (V3.normalize ?b) _) = _ \/ _ =>
      destruct (vec3_eq_or_not b V3.zero) as [Z | Z]
    end.
    + right. rewrite Z, normalize_zero. apply vec3_eq; simpl; ring.
    + left. rewrite length_multiplyScalar, (length_normalize Z). ring.
  - intros (Hx & Hy & Hz). unfold moved in *.
    rewrite !clamp_inside by assumption.
    now destruct (V3.addScaledVector _ _ delta).
Qed.

Lemma early_loop_witness :
  let f := EarlyLoop.mkFish V3.zero (vec3 2 0 0) in
  let f' := EarlyLoop.moveFish params (1 / 60) [f] 0 (vec3 5 0 0) f in
  EarlyLoop.position f'
  = V3.addScaledVector (EarlyLoop.position f) (EarlyLoop.velocity f') (1 / 60).
Proof.
  intros f f'.
  destruct (early_loop_clamps_position_only params (1 / 60) [f] 0 (vec3 5 0 0) f)
    as (_ & V & H).
  apply H. fold f' in V |- *.
  destruct half_extents as (EX & EY & EZ). rewrite EX, EY, EZ.
  assert (B : forall c, c * c <= V3.lengthSq (EarlyLoop.velocity f') ->
                        V3.length (EarlyLoop.velocity f') <= 2 -> -2 <= c <= 2).
  { intros c Hc Hl. pose proof (length_sqr (EarlyLoop.velocity f')) as S.
    pose proof (length_nonneg (EarlyLoop.velocity f')) as P. split; nra. }
  assert (L : V3.length (EarlyLoop.velocity f') <= 2).
  { destruct V as [V | V]; [rewrite V | rewrite V, length_zero; lra].
    simpl. rewrite Rabs_pos_eq; lra. }
  unfold V3.addScaledVector; cbn [EarlyLoop.position vx vy vz V3.zero f].
  pose proof (B (vx (EarlyLoop.velocity f'))) as Bx.
  pose proof (B (vy (EarlyLoop.velocity f'))) as By.
  pose proof (B (vz (EarlyLoop.velocity f'))) as Bz.
  unfold V3.lengthSq in Bx, By, Bz.
  pose proof (Rle_0_sqr (vx (EarlyLoop.velocity f'))) as Sx.
  pose proof (Rle_0_sqr (vy (EarlyLoop.velocity f'))) as Sy.
  pose proof (Rle_0_sqr (vz (EarlyLoop.velocity f'))) as Sz.
  unfold Rsqr in Sx, Sy, Sz.
  assert (-2 <= vx (EarlyLoop.velocity f') <= 2) by (apply Bx; [lra | exact L]).
  assert (-2 <= vy (EarlyLoop.velocity f') <= 2) by (apply By; [lra | exact L]).
  assert (-2 <= vz (EarlyLoop.velocity f') <= 2) by (apply Bz; [lra | exact L]).
  repeat split; lra.
Defined.
